(** * learn-italian: transcript segmentation and clip extraction

    A shallow embedding of the caption parsers, the segment builder, the
    segment-quality helpers, the URL and time helpers, the extraction
    orchestrator and the facade of the repository, together with the
    properties its specification states about them and further
    properties read off the code.

    Conventions of the embedding.
    - A JavaScript string is the list of its UTF-16 code units
      ([jsstring]).  A regular expression of the source is a term of
      [Regex.regex], run by a backtracking matcher; [replace], [split],
      [match], [exec] and [test] are defined on that matcher.
    - A finite JavaScript number is the rational it stands for ([Q]).
      Comparisons, [Math.min] and [Math.max] are exact on doubles, and
      so is the arithmetic of the code on whole numbers below 2^53:
      the modules [SegmentBuilder], [CaptionProcessor] and [VideoUtils]
      compute with exact rationals, and what is proved of them does
      not depend on rounding.  Where rounding decides what the code
      does (the test of the duration floor, the advance of the window
      clock, the gap test of the merge, the time of a stamp), the
      function is modelled again in module [Rounded], in which every
      sum, difference, product and quotient of the code is rounded to
      the nearest double ([Double.round]).  [parseInt] and [parseFloat]
      also return [NaN] and the infinities.
    - A [while] loop or a recursive retry is a function with a fuel
      argument that has no result when the fuel runs out; the loop of
      [Rounded] then answers with the segments pushed so far.
    - What is outside the program (the extraction tool, the file
      system, the clock, the metadata, caption and translation
      services) is a record of functions that answer each call, and a
      world that keeps the progress map, the time and a log of the
      attempts and waits. *)

From Stdlib Require Import List Bool Arith NArith ZArith QArith Qround Lia Lqa.
From Stdlib Require Import Qabs Qpower Qreduction.
From Stdlib Require Import Ascii String DecimalString DecimalNat Sorted.
From Stdlib Require Qcanon.
Import ListNotations.

Set Implicit Arguments.

(** ** JavaScript primitives *)

Module JS.

(** A UTF-16 code unit. *)
Definition char := N.

(** A string value: its sequence of code units. *)
Definition jsstring := list char.

(** The code units of an ASCII literal. *)
Definition js (s : string) : jsstring :=
  List.map N_of_ascii (list_ascii_of_string s).

Definition ch (a : ascii) : char := N_of_ascii a.

Definition char_eqb (a b : char) : bool := N.eqb a b.

Fixpoint str_eqb (a b : jsstring) : bool :=
  match a, b with
  | [], [] => true
  | x :: a', y :: b' => char_eqb x y && str_eqb a' b'
  | _, _ => false
  end.

(** Truthiness of a string: the empty string is the only falsy one. *)
Definition truthy (s : jsstring) : bool :=
  match s with [] => false | _ :: _ => true end.

(** The class [\s] of a regular expression, which is also what
    [String.prototype.trim] removes: WhiteSpace and LineTerminator. *)
Definition is_space (c : char) : bool :=
  ((9 <=? c) && (c <=? 13) || (c =? 32) || (c =? 160) || (c =? 5760)
   || ((8192 <=? c) && (c <=? 8202)) || (c =? 8232) || (c =? 8233)
   || (c =? 8239) || (c =? 8287) || (c =? 12288) || (c =? 65279))%N.

(** LineTerminator: the code units that [.] does not match. *)
Definition is_line_terminator (c : char) : bool :=
  ((c =? 10) || (c =? 13) || (c =? 8232) || (c =? 8233))%N.

(** The class [\d]. *)
Definition is_digit (c : char) : bool := ((48 <=? c) && (c <=? 57))%N.

(** The class [[.!?]]. *)
Definition is_sentence_end (c : char) : bool :=
  ((c =? 46) || (c =? 33) || (c =? 63))%N.

Definition SP : char := 32%N.

Fixpoint drop_while (p : char -> bool) (s : jsstring) : jsstring :=
  match s with
  | [] => []
  | c :: r => if p c then drop_while p r else s
  end.

(** [s.trim()] *)
Definition trim (s : jsstring) : jsstring :=
  rev (drop_while is_space (rev (drop_while is_space s))).

(** [pieces.join(sep)] *)
Fixpoint join (sep : jsstring) (pieces : list jsstring) : jsstring :=
  match pieces with
  | [] => []
  | [x] => x
  | x :: rest => x ++ sep ++ join sep rest
  end.

Fixpoint starts_with (pre s : jsstring) : bool :=
  match pre, s with
  | [], _ => true
  | a :: pre', b :: s' => char_eqb a b && starts_with pre' s'
  | _ :: _, [] => false
  end.

(** [s.includes(pat)] *)
Fixpoint includes (pat s : jsstring) : bool :=
  starts_with pat s ||
  match s with
  | [] => false
  | _ :: r => includes pat r
  end.

(** [s.replace(pat, '')] for a one-unit string [pat]: the first
    occurrence only. *)
Fixpoint removeFirst (c0 : char) (s : jsstring) : jsstring :=
  match s with
  | [] => []
  | c :: r => if char_eqb c c0 then r else c :: removeFirst c0 r
  end.

(** [n.toString()] for a non-negative integer. *)
Definition nat_to_string (n : nat) : jsstring :=
  js (NilEmpty.string_of_uint (Nat.to_uint n)).

(** [n.toString()] for an integer. *)
Definition int_to_string (n : Z) : jsstring :=
  js (NilEmpty.string_of_int (Z.to_int n)).

(** Numbers. *)
Definition number := Q.

Definition of_nat (n : nat) : number := inject_Z (Z.of_nat n).

(** [a <= b], [a < b], [a >= b], [a > b] *)
Definition leb (a b : number) : bool := Qle_bool a b.
Definition ltb (a b : number) : bool := negb (Qle_bool b a).
Definition geb (a b : number) : bool := leb b a.
Definition gtb (a b : number) : bool := ltb b a.

(** [Math.min(a, b)], [Math.max(a, b)] *)
Definition Math_min (a b : number) : number := if leb a b then a else b.
Definition Math_max (a b : number) : number := if leb a b then b else a.

(** [Math.max(...(x :: xs))] *)
Definition Math_max_list (x : number) (xs : list number) : number :=
  fold_left Math_max xs x.

End JS.

Import JS.

(** ** Binary64

    The numbers of the program are IEEE 754 doubles: 53 bits of
    precision, the unit in the last place from 2^-1074 up to 2^971.
    [Double.round q] is the double nearest to the rational [q], a tie
    going to the neighbour with the even significand; it is [None]
    when the rounding overflows to an infinity.  A finite double is
    the rational it stands for, in lowest terms; the sign of a zero is
    not kept. *)

Module Double.

Definition precision : Z := 53.
Definition least_exponent : Z := -1074.

(** [floor (log2 q)] for a positive rational [q]. *)
Definition ilog2 (q : Q) : Z :=
  let k := (Z.log2 (Qnum q) - Z.log2 (Zpos (Qden q)))%Z in
  if Qle_bool (2 ^ k) q then k else (k - 1)%Z.

(** The exponent of the unit in the last place of the doubles around
    [q]. *)
Definition exponent (q : Q) : Z :=
  Z.max least_exponent (ilog2 (Qabs q) - (precision - 1)).

(** The integer nearest to [x], a tie going to the even one. *)
Definition nearest_even (x : Q) : Z :=
  let f := Qfloor x in
  match Qcompare (x - inject_Z f) (1 # 2) with
  | Lt => f
  | Gt => (f + 1)%Z
  | Eq => if Z.even f then f else (f + 1)%Z
  end.

(** The double nearest to [q]: the multiple of [2 ^ e] nearest to it,
    [e] being the exponent of the unit in the last place around [q];
    [None] from 2^1024 on. *)
Definition round (q : Q) : option Q :=
  let q := Qred q in
  if Qeq_bool q 0 then Some 0
  else
    let e := exponent q in
    let r := Qred (inject_Z (nearest_even (q / 2 ^ e)) * 2 ^ e) in
    if Qle_bool (2 ^ 1024) (Qabs r) then None else Some r.

(** [a + b] and [a - b] of two finite doubles; [None]: an
    infinity. *)
Definition add (a b : number) : option number := round (a + b).
Definition sub (a b : number) : option number := round (a - b).

(** The double that a decimal denotes: [literal 3 10] is the double
    of [0.3]. *)
Definition literal (n d : Z) : number :=
  match round (inject_Z n / inject_Z d) with
  | Some q => q
  | None => 0
  end.

End Double.

(** ** Regular expressions with captures

    The expressions of the source run on a backtracking matcher:
    alternatives are tried in order, a greedy quantifier tries the
    longer match first and a lazy one the shorter.  Every quantifier of
    the source is on a class of code units.  No expression of the
    source nests capturing groups, so the captures are collected in the
    order the groups close. *)

Module Regex.

Inductive regex : Type :=
| Lit (s : jsstring)
| Rep (greedy : bool) (lo : nat) (hi : option nat) (p : char -> bool)
| Group (r : regex)
| Cat (r1 r2 : regex)
| Alt (r1 r2 : regex).

(** [[class]], [[class]*], [[class]+], [[class]*?], [[class]{n}] *)
Definition one (p : char -> bool) : regex := Rep true 1 (Some 1%nat) p.
Definition star (p : char -> bool) : regex := Rep true 0 None p.
Definition plus (p : char -> bool) : regex := Rep true 1 None p.
Definition lazy_star (p : char -> bool) : regex := Rep false 0 None p.
Definition times (n : nat) (p : char -> bool) : regex := Rep true n (Some n) p.

(** [[^c]] and [.] *)
Definition not_char (c : ascii) : char -> bool :=
  fun x => negb (char_eqb x (ch c)).
Definition dot : char -> bool := fun x => negb (is_line_terminator x).

Fixpoint seq (rs : list regex) : regex :=
  match rs with
  | [] => Lit []
  | [r] => r
  | r :: rs' => Cat r (seq rs')
  end.

Definition or_else {R} (a b : option R) : option R :=
  match a with Some x => Some x | None => b end.

Definition may_take (hi : option nat) : bool :=
  match hi with Some O => false | _ => true end.

(** A quantified class against [s], then the continuation [k]. *)
Fixpoint rep_match {R} (p : char -> bool) (greedy : bool) (lo : nat)
         (hi : option nat) (s : jsstring) (k : jsstring -> option R)
  : option R :=
  let more :=
    match s with
    | c :: r =>
        if p c && may_take hi
        then rep_match p greedy (Nat.pred lo) (option_map Nat.pred hi) r k
        else None
    | [] => None
    end in
  match lo with
  | S _ => more
  | O => if greedy then or_else more (k s) else or_else (k s) more
  end.

Fixpoint run {R} (r : regex) (s : jsstring) (caps : list jsstring)
         (k : jsstring -> list jsstring -> option R) : option R :=
  match r with
  | Lit l => if starts_with l s then k (skipn (List.length l) s) caps else None
  | Rep greedy lo hi p => rep_match p greedy lo hi s (fun s' => k s' caps)
  | Group r1 =>
      run r1 s caps
          (fun s' caps' =>
             k s' (caps' ++ [firstn (List.length s - List.length s') s]))
  | Cat r1 r2 => run r1 s caps (fun s' caps' => run r2 s' caps' k)
  | Alt r1 r2 => or_else (run r1 s caps k) (run r2 s caps k)
  end.

(** A match anchored at the start of [s]: what follows it, and the
    captures. *)
Definition match_at (r : regex) (s : jsstring)
  : option (jsstring * list jsstring) :=
  run r s [] (fun s' caps => Some (s', caps)).

(** [s.match(r)] without the [g] flag: the captures of the leftmost
    match. *)
Fixpoint match_first (r : regex) (s : jsstring) : option (list jsstring) :=
  match match_at r s with
  | Some (_, caps) => Some caps
  | None => match s with
            | [] => None
            | _ :: s' => match_first r s'
            end
  end.

(** The [while ((match = r.exec(s)) !== null)] loop of a [g]
    expression that matches no empty string: the captures of the
    successive matches.  [skip] counts the units of the last match
    still to be passed over. *)
Fixpoint exec_all (r : regex) (skip : nat) (s : jsstring)
  : list (list jsstring) :=
  match s with
  | [] => []
  | _ :: s' =>
      match skip with
      | S k => exec_all r k s'
      | O => match match_at r s with
             | Some (rest, caps) =>
                 caps :: exec_all r (List.length s - List.length rest - 1) s'
             | None => exec_all r 0 s'
             end
      end
  end.

(** [s.split(r)] for an expression without groups that matches no
    empty string; [cur] is the piece being read, reversed. *)
Fixpoint split_from (r : regex) (skip : nat) (cur : jsstring) (s : jsstring)
  : list jsstring :=
  match s with
  | [] => [rev cur]
  | c :: s' =>
      match skip with
      | S k => split_from r k cur s'
      | O => match match_at r s with
             | Some (rest, _) =>
                 match (List.length s - List.length rest)%nat with
                 | S n => rev cur :: split_from r n [] s'
                 | O => split_from r 0 (c :: cur) s'
                 end
             | None => split_from r 0 (c :: cur) s'
             end
      end
  end.

Definition split (r : regex) (s : jsstring) : list jsstring :=
  split_from r 0 [] s.

(** [s.replace(r, rep)] for a [g] expression that matches no empty
    string and a replacement without [$] patterns. *)
Fixpoint replace_from (r : regex) (rep : jsstring) (skip : nat) (s : jsstring)
  : jsstring :=
  match s with
  | [] => []
  | c :: s' =>
      match skip with
      | S k => replace_from r rep k s'
      | O => match match_at r s with
             | Some (rest, _) =>
                 match (List.length s - List.length rest)%nat with
                 | S n => rep ++ replace_from r rep n s'
                 | O => c :: replace_from r rep 0 s'
                 end
             | None => c :: replace_from r rep 0 s'
             end
      end
  end.

Definition replace_all (r : regex) (rep s : jsstring) : jsstring :=
  replace_from r rep 0 s.

(** [r.test(s)] *)
Definition test (r : regex) (s : jsstring) : bool :=
  match match_first r s with
  | Some _ => true
  | None => false
  end.

End Regex.

(** ** The string operations of the source that take an expression *)

Module Text.
Import Regex.

(** [s.replace(/\s+/g, ' ')] *)
Definition collapse_spaces (s : jsstring) : jsstring :=
  replace_all (plus is_space) [SP] s.

(** [s.split(/[class]+/)] for a class [p] of code units. *)
Definition split_on (p : char -> bool) (s : jsstring) : list jsstring :=
  Regex.split (plus p) s.

(** [s.split(/\s+/)] *)
Definition split_spaces (s : jsstring) : list jsstring := split_on is_space s.

(** [s.split(/[.!?]+/)] *)
Definition split_sentences (s : jsstring) : list jsstring :=
  split_on is_sentence_end s.

(** [s.split(/[class]/)] *)
Definition split_each (p : char -> bool) (s : jsstring) : list jsstring :=
  Regex.split (one p) s.

(** [s.split(sep)] for a one-unit string [sep]. *)
Definition split_char (sep : char) (s : jsstring) : list jsstring :=
  Regex.split (Lit [sep]) s.

(** [/<[^>]*>/g] and [text.replace(/<[^>]*>/g, '')] *)
Definition tagRegex : regex :=
  seq [ Lit (js "<"); star (not_char ">"); Lit (js ">") ].

Definition stripTags (s : jsstring) : jsstring := replace_all tagRegex [] s.

(** [/\[.*?\]/g] and [text.replace(/\[.*?\]/g, '')] *)
Definition bracketRegex : regex :=
  seq [ Lit (js "["); lazy_star dot; Lit (js "]") ].

Definition stripBrackets (s : jsstring) : jsstring :=
  replace_all bracketRegex [] s.

(** [s.replace(/pat/g, rep)] for a literal, non-empty [pat]. *)
Definition replaceAll (pat rep s : jsstring) : jsstring :=
  replace_all (Lit pat) rep s.

(** The class [[{}[\]()<>]] and [/[{}[\]()<>]/.test(s)] *)
Definition is_formatting (c : char) : bool :=
  existsb (char_eqb c) (js "{}[]()<>").

Definition hasFormattingCharacter (s : jsstring) : bool :=
  test (one is_formatting) s.

End Text.

Import Text.

(** ** Parsing numbers *)

Module NumberParsing.

(** What [parseInt] and [parseFloat] return: a number of the model,
    [NaN], or an infinity. *)
Inductive xnumber : Type :=
| Finite (q : number)
| NaN
| Infinite (negative : bool).

Definition digit_value (c : char) : option N :=
  if is_digit c then Some (c - 48)%N
  else if ((97 <=? c) && (c <=? 102))%N then Some (c - 87)%N
  else if ((65 <=? c) && (c <=? 70))%N then Some (c - 55)%N
  else None.

(** The longest prefix of digits of the radix, read as a number, with
    what follows it; [None] when there is no digit. *)
Fixpoint read_digits (radix : N) (acc : option N) (s : jsstring)
  : option N * jsstring :=
  match s with
  | [] => (acc, [])
  | c :: r =>
      match digit_value c with
      | Some d =>
          if (d <? radix)%N
          then read_digits radix
                 (Some (match acc with Some a => a * radix + d | None => d end)%N) r
          else (acc, s)
      | None => (acc, s)
      end
  end.

(** A leading [+] or [-]. *)
Definition read_sign (s : jsstring) : bool * jsstring :=
  match s with
  | c :: r => if char_eqb c (ch "-") then (true, r)
              else if char_eqb c (ch "+") then (false, r)
              else (false, s)
  | [] => (false, s)
  end.

Definition signed (negative : bool) (q : number) : number :=
  if negative then - q else q.

(** [parseInt(s)] with no radix argument: the whole number that the
    digits write, which is the result of the code below 2^53;
    [Rounded.parseInt] is its rounding to a double. *)
Definition parseInt (s : jsstring) : xnumber :=
  let (negative, s1) := read_sign (drop_while is_space s) in
  let (radix, s2) :=
    if starts_with (js "0x") s1 || starts_with (js "0X") s1
    then (16%N, skipn 2 s1) else (10%N, s1) in
  match fst (read_digits radix None s2) with
  | Some n => Finite (signed negative (inject_Z (Z.of_N n)))
  | None => NaN
  end.

(** The exponent part [[eE][+-]?digits] at the start of [s], when it
    is complete. *)
Definition read_exponent (s : jsstring) : Z :=
  match s with
  | c :: r =>
      if char_eqb c (ch "e") || char_eqb c (ch "E") then
        let (negative, r1) := read_sign r in
        match fst (read_digits 10 None r1) with
        | Some n => if negative then (- Z.of_N n)%Z else Z.of_N n
        | None => 0%Z
        end
      else 0%Z
  | [] => 0%Z
  end.

(** [parseFloat(s)]: the longest prefix that is a decimal literal. *)
Definition parseFloat (s : jsstring) : xnumber :=
  let (negative, s1) := read_sign (drop_while is_space s) in
  if starts_with (js "Infinity") s1 then Infinite negative
  else
    let (int_part, s2) := read_digits 10 None s1 in
    let '(frac_part, frac_len, s3) :=
      match s2 with
      | c :: r =>
          if char_eqb c (ch ".") then
            let (f, r') := read_digits 10 None r in
            (f, (List.length r - List.length r')%nat, r')
          else (None, O, s2)
      | [] => (None, O, s2)
      end in
    match int_part, frac_part with
    | None, None => NaN
    | _, _ =>
        let i := match int_part with Some n => n | None => 0%N end in
        let f := match frac_part with Some n => n | None => 0%N end in
        let mantissa :=
          inject_Z (Z.of_N i)
          + inject_Z (Z.of_N f) / inject_Z (10 ^ Z.of_nat frac_len) in
        Finite (signed negative (mantissa * (10 # 1) ^ read_exponent s3))
    end.

(** Arithmetic and comparison with [NaN]. *)
Definition xadd (a b : xnumber) : xnumber :=
  match a, b with
  | Finite x, Finite y => Finite (x + y)
  | Infinite n, Finite _ => Infinite n
  | Finite _, Infinite n => Infinite n
  | Infinite n, Infinite m => if Bool.eqb n m then Infinite n else NaN
  | _, _ => NaN
  end.

Definition xscale (a : xnumber) (k : number) : xnumber :=
  match a with
  | Finite x => Finite (x * k)
  | Infinite n => Infinite n
  | NaN => NaN
  end.

(** [a >= b] and [a > b] *)
Definition xgeb (a b : xnumber) : bool :=
  match a, b with
  | Finite x, Finite y => geb x y
  | Infinite n, Infinite m => negb n || m
  | Infinite n, Finite _ => negb n
  | Finite _, Infinite m => m
  | _, _ => false
  end.

Definition xgtb (a b : xnumber) : bool :=
  match a, b with
  | Finite x, Finite y => gtb x y
  | Infinite n, Infinite m => negb n && m
  | Infinite n, Finite _ => negb n
  | Finite _, Infinite m => m
  | _, _ => false
  end.

End NumberParsing.

(** ** Data model *)

(** [CaptionData]: one timed line of transcript. *)
Record CaptionData := mkCaption {
  start : number;
  end_ : number;
  caption_text : jsstring
}.

(** [VideoSegment].  The utilities module declares [translation],
    [audioUrl] and [videoUrl] optional ([None] is an absent property);
    the backend always stores a string there. *)
Record VideoSegment := mkSegment {
  id : jsstring;
  startTime : number;
  endTime : number;
  text : jsstring;
  translation : option jsstring;
  audioUrl : option jsstring;
  videoUrl : option jsstring
}.

(** [SegmentationOptions] with every property present. *)
Record SegmentationOptions := mkOptions {
  segmentDuration : number;
  overlap : number;
  minSegmentDuration : number;
  maxSegmentDuration : number;
  preferSentenceBoundaries : bool;
  maxWordsPerSegment : number
}.

(** [Partial<SegmentationOptions>]: the argument a caller passes. *)
Record PartialOptions := mkPartial {
  p_segmentDuration : option number;
  p_overlap : option number;
  p_minSegmentDuration : option number;
  p_maxSegmentDuration : option number;
  p_preferSentenceBoundaries : option bool;
  p_maxWordsPerSegment : option number
}.

(** [DEFAULT_SEGMENTATION_OPTIONS], also the defaults of the
    destructuring in [CaptionProcessor.createSegments]. *)
Definition DEFAULT_SEGMENTATION_OPTIONS : SegmentationOptions :=
  mkOptions 8 1 3 15 true 20.

Definition or_default {A} (d : A) (o : option A) : A :=
  match o with Some v => v | None => d end.

(** [{ ...DEFAULT_SEGMENTATION_OPTIONS, ...options }] *)
Definition resolveOptions (options : PartialOptions) : SegmentationOptions :=
  let d := DEFAULT_SEGMENTATION_OPTIONS in
  mkOptions
    (or_default (segmentDuration d) (p_segmentDuration options))
    (or_default (overlap d) (p_overlap options))
    (or_default (minSegmentDuration d) (p_minSegmentDuration options))
    (or_default (maxSegmentDuration d) (p_maxSegmentDuration options))
    (or_default (preferSentenceBoundaries d) (p_preferSentenceBoundaries options))
    (or_default (maxWordsPerSegment d) (p_maxWordsPerSegment options)).

Definition noOptions : PartialOptions :=
  mkPartial None None None None None None.

(** ** Segment building

    [CaptionProcessor.createSegments] and [createVideoSegments] run the
    same loop; they differ in the two URL properties of the segment they
    push, which are the parameters [audio] and [video] here.  The sums
    and differences of this module are exact, as they are in the code
    on whole numbers below 2^53; [Rounded.segmentLoop] is the loop with
    the rounding of doubles. *)

Module SegmentBuilder.

(** [[...captions].sort((a, b) => a.start - b.start)]: a stable sort by
    [start], as an insertion from the right. *)
Fixpoint insertCaption (c : CaptionData) (l : list CaptionData)
  : list CaptionData :=
  match l with
  | [] => [c]
  | h :: t => if leb (start c) (start h) then c :: l
              else h :: insertCaption c t
  end.

Definition sortCaptions (captions : list CaptionData) : list CaptionData :=
  fold_right insertCaption [] captions.

(** [Math.max(...captions.map(c => c.end))] for a non-empty list. *)
Definition maxEnd (c0 : CaptionData) (rest : list CaptionData) : number :=
  Math_max_list (end_ c0) (List.map end_ rest).

(** [segmentCaptions.map(c => c.text).join(' ').replace(/\s+/g, ' ').trim()] *)
Definition combineText (segmentCaptions : list CaptionData) : jsstring :=
  trim (collapse_spaces (join [SP] (List.map caption_text segmentCaptions))).

Definition wordCount (s : jsstring) : nat := List.length (split_spaces s).

(** The [for (const sentence of sentences)] loop: whole sentences are
    appended while the running word count stays within the limit. *)
Fixpoint takeSentences (maxWords : number) (sentences : list jsstring)
         (text : jsstring) (words : nat) : jsstring :=
  match sentences with
  | [] => text
  | sentence :: rest =>
      let sentenceWords := wordCount (trim sentence) in
      if leb (of_nat (words + sentenceWords)) maxWords
         && truthy (trim sentence)
      then takeSentences maxWords rest
             (text ++ (if truthy text then js ". " else []) ++ trim sentence)
             (words + sentenceWords)
      else text
  end.

(** The word-limit policy applied to the combined text of a window. *)
Definition limitWords (opts : SegmentationOptions) (combinedText : jsstring)
  : jsstring :=
  if ltb (maxWordsPerSegment opts) (of_nat (wordCount combinedText))
     && preferSentenceBoundaries opts
  then
    let sentences := split_sentences combinedText in
    if (1 <? List.length sentences)%nat then
      let text := takeSentences (maxWordsPerSegment opts) sentences [] 0 in
      if truthy text then text else combinedText
    else combinedText
  else combinedText.

(** The URL properties of a pushed segment, from [segmentId],
    [actualStart] and [actualEnd]. *)
Definition url_maker := nat -> number -> number -> option jsstring.

Section Loop.
Variable opts : SegmentationOptions.
Variables audio video : url_maker.
Variables (c0 : CaptionData) (rest : list CaptionData).

Let captions := c0 :: rest.
Let sortedCaptions := sortCaptions captions.

(** The captions a window [[currentTime, segmentEnd)] overlaps. *)
Definition windowCaptions (currentTime segmentEnd : number)
  : list CaptionData :=
  filter (fun caption =>
            ltb (start caption) segmentEnd && gtb (end_ caption) currentTime)
         sortedCaptions.

Definition windowEnd (currentTime : number) : number :=
  Math_min (currentTime + segmentDuration opts) (maxEnd c0 rest).

(** What one window with a caption in it contributes: the segment it
    pushes, if its clipped bounds reach the minimum duration. *)
Definition windowSegment (currentTime : number) (segmentId : nat)
           (first : CaptionData) (others : list CaptionData)
  : option VideoSegment :=
  let segmentEnd := windowEnd currentTime in
  let segmentCaptions := first :: others in
  let combinedText := limitWords opts (combineText segmentCaptions) in
  let actualStart := Math_max currentTime (start first) in
  let actualEnd := Math_min segmentEnd (end_ (last segmentCaptions first)) in
  if geb (actualEnd - actualStart) (minSegmentDuration opts)
  then Some (mkSegment (nat_to_string segmentId) actualStart actualEnd
                       combinedText (Some [])
                       (audio segmentId actualStart actualEnd)
                       (video segmentId actualStart actualEnd))
  else None.

(** The [while (currentTime < Math.max(...))] loop. *)
Fixpoint segmentLoop (fuel : nat) (currentTime : number) (segmentId : nat)
         (segments : list VideoSegment) : option (list VideoSegment) :=
  match fuel with
  | O => None
  | S fuel' =>
      if ltb currentTime (maxEnd c0 rest) then
        match windowCaptions currentTime (windowEnd currentTime) with
        | first :: others =>
            match windowSegment currentTime segmentId first others with
            | Some seg =>
                segmentLoop fuel'
                  (currentTime + (segmentDuration opts - overlap opts))
                  (S segmentId) (segments ++ [seg])
            | None =>
                segmentLoop fuel'
                  (currentTime + (segmentDuration opts - overlap opts))
                  segmentId segments
            end
        | [] =>
            segmentLoop fuel' (currentTime + segmentDuration opts)
                        segmentId segments
        end
      else Some segments
  end.
End Loop.

(** The whole function: empty input returns at once, otherwise the loop
    starts at time 0 with id 1. *)
Definition build (fuel : nat) (opts : SegmentationOptions)
           (audio video : url_maker) (captions : list CaptionData)
  : option (list VideoSegment) :=
  match captions with
  | [] => Some []
  | c0 :: rest => segmentLoop opts audio video c0 rest fuel 0 1 []
  end.

End SegmentBuilder.

(** ** Backend: [CaptionProcessor] *)

Module CaptionProcessor.
Import SegmentBuilder Regex NumberParsing.

(** [audioUrl: ''] and [videoUrl: ''] *)
Definition emptyUrl : url_maker := fun _ _ _ => Some [].

(** [CaptionProcessor.createSegments(captions, options)] *)
Definition createSegments (fuel : nat) (captions : list CaptionData)
           (options : PartialOptions) : option (list VideoSegment) :=
  build fuel (resolveOptions options) emptyUrl emptyUrl captions.

Definition QUOTE : char := 34%N.
Definition NEWLINE : char := 10%N.

(** [cleanText(text)] *)
Definition cleanText (text : jsstring) : jsstring :=
  let t := stripTags text in
  let t := replaceAll (js "&amp;") (js "&") t in
  let t := replaceAll (js "&lt;") (js "<") t in
  let t := replaceAll (js "&gt;") (js ">") t in
  let t := replaceAll (js "&quot;") [QUOTE] t in
  let t := replaceAll (js "&#39;") (js "'") t in
  let t := stripBrackets t in
  trim (collapse_spaces t).

(** [x || '0'] for a possibly missing array element. *)
Definition or_zero (x : option jsstring) : jsstring :=
  match x with
  | Some ((_ :: _) as v) => v
  | _ => js "0"
  end.

(** [parseTimeToSeconds(timeString)], in exact arithmetic;
    [Rounded.parseTimeToSeconds] is the function on doubles. *)
Definition parseTimeToSeconds (timeString : jsstring) : xnumber :=
  if includes (js ":") timeString then
    let parts := split_char (ch ":") timeString in
    let hours := parseInt (or_zero (nth_error parts 0)) in
    let minutes := parseInt (or_zero (nth_error parts 1)) in
    let secondsParts :=
      match nth_error parts 2 with
      | Some ((_ :: _) as p2) =>
          split_each (fun c => char_eqb c (ch ",") || char_eqb c (ch ".")) p2
      | _ => [js "0"]
      end in
    let seconds := parseInt (or_zero (nth_error secondsParts 0)) in
    let milliseconds := parseInt (or_zero (nth_error secondsParts 1)) in
    xadd (xadd (xadd (xscale hours 3600) (xscale minutes 60)) seconds)
         (xscale milliseconds (1 # 1000))
  else if includes (js "s") timeString then
    parseFloat (removeFirst (ch "s") timeString)
  else parseFloat timeString.

(** [if (text && start >= 0 && end > start) captions.push({ start, end, text })].
    [None]: the caption pushed has the end [Infinity], a value the
    model of numbers does not have. *)
Definition pushCaption (start_ end' : xnumber) (text_ : jsstring)
           (captions : list CaptionData) : option (list CaptionData) :=
  if truthy text_ && xgeb start_ (Finite 0) && xgtb end' start_ then
    match start_, end' with
    | Finite s, Finite e => Some (captions ++ [mkCaption s e text_])
    | _, _ => None
    end
  else Some captions.

(** The expression [pRegex] of [parseTTML]: a [<p] tag whose attributes
    [begin] and [end], in this order, are captured between their
    double quotes (groups 1 and 2), then the paragraph content up to
    the first closing tag on the same line (group 3, lazy). *)
Definition pRegex : regex :=
  seq [ Lit (js "<p"); star (not_char ">");
        Lit (js "begin=" ++ [QUOTE]);
        Group (star (fun c => negb (char_eqb c QUOTE))); Lit [QUOTE];
        star (not_char ">");
        Lit (js "end=" ++ [QUOTE]);
        Group (star (fun c => negb (char_eqb c QUOTE))); Lit [QUOTE];
        star (not_char ">"); Lit (js ">");
        Group (lazy_star dot); Lit (js "</p>") ].

(** The body of the [while] loop of [parseTTML], for one match. *)
Definition ttmlCaption (groups : list jsstring)
           (captions : list CaptionData) : option (list CaptionData) :=
  match groups with
  | [m1; m2; m3] =>
      pushCaption (parseTimeToSeconds m1) (parseTimeToSeconds m2)
                  (cleanText m3) captions
  | _ => Some captions
  end.

Fixpoint foldCaptions {A} (step : A -> list CaptionData -> option (list CaptionData))
         (items : list A) (captions : list CaptionData)
  : option (list CaptionData) :=
  match items with
  | [] => Some captions
  | x :: rest =>
      match step x captions with
      | Some captions' => foldCaptions step rest captions'
      | None => None
      end
  end.

(** [parseTTML(ttmlContent)] *)
Definition parseTTML (ttmlContent : jsstring) : option (list CaptionData) :=
  foldCaptions ttmlCaption (exec_all pRegex 0 ttmlContent) [].

(** [\d{2}:\d{2}:\d{2},\d{3}] *)
Definition srtStamp : regex :=
  seq [ times 2 is_digit; Lit (js ":"); times 2 is_digit; Lit (js ":");
        times 2 is_digit; Lit (js ","); times 3 is_digit ].

(** The expression of [parseSRT]: a stamp (group 1), optional white
    space, [-->], optional white space, a stamp (group 2). *)
Definition srtTimeRegex : regex :=
  seq [ Group srtStamp; star is_space; Lit (js "-->"); star is_space;
        Group srtStamp ].

(** [/\n\s*\n/] *)
Definition blockSeparator : regex :=
  seq [ Lit [NEWLINE]; star is_space; Lit [NEWLINE] ].

(** The body of the [for (const block of blocks)] loop of [parseSRT]. *)
Definition srtCaption (block : jsstring) (captions : list CaptionData)
  : option (list CaptionData) :=
  let lines := split_char NEWLINE (trim block) in
  if (3 <=? List.length lines)%nat then
    match match_first srtTimeRegex (nth 1 lines []) with
    | Some [m1; m2] =>
        let text_ := trim (join [SP] (skipn 2 lines)) in
        pushCaption (parseTimeToSeconds m1) (parseTimeToSeconds m2)
                    text_ captions
    | _ => Some captions
    end
  else Some captions.

(** [parseSRT(srtContent)] *)
Definition parseSRT (srtContent : jsstring) : option (list CaptionData) :=
  foldCaptions srtCaption (Regex.split blockSeparator srtContent) [].

(** The [for (const sentence of sentences)] loop of [parsePlainText];
    [durationPerSentence] is 3. *)
Fixpoint plainLoop (sentences : list jsstring) (currentTime : number)
         (captions : list CaptionData) : list CaptionData :=
  match sentences with
  | [] => captions
  | sentence :: rest =>
      let cleanSentence := trim sentence in
      if truthy cleanSentence
      then plainLoop rest (currentTime + 3)
             (captions ++ [mkCaption currentTime (currentTime + 3) cleanSentence])
      else plainLoop rest currentTime captions
  end.

(** [parsePlainText(text)] *)
Definition parsePlainText (text_ : jsstring) : list CaptionData :=
  let sentences :=
    filter (fun s => truthy (trim s)) (split_sentences text_) in
  plainLoop sentences 0 [].

(** [parseCaptions(captionText)] *)
Definition parseCaptions (captionText : jsstring)
  : option (list CaptionData) :=
  if includes (js "<p") captionText || includes (js "ttml") captionText
  then parseTTML captionText
  else if includes (js "-->") captionText
  then parseSRT captionText
  else Some (parsePlainText captionText).

(** One turn of the [for] loop of [mergeAdjacentSegments]: [current]
    is the accumulator, [merged] what has been pushed.  The difference
    of the test is exact here; [Rounded.mergeLoop] rounds it. *)
Fixpoint mergeLoop (rest : list VideoSegment) (current : VideoSegment)
         (merged : list VideoSegment) : list VideoSegment :=
  match rest with
  | [] => merged ++ [current]
  | next :: rest' =>
      if leb (startTime next - endTime current) 2
      then mergeLoop rest'
             (mkSegment (id current) (startTime current) (endTime next)
                (trim (collapse_spaces (text current ++ [SP] ++ text next)))
                (translation current) (audioUrl current) (videoUrl current))
             merged
      else mergeLoop rest' next (merged ++ [current])
  end.

(** [CaptionProcessor.mergeAdjacentSegments(segments)] *)
Definition mergeAdjacentSegments (segments : list VideoSegment)
  : list VideoSegment :=
  match segments with
  | [] => segments
  | [_] => segments
  | first :: rest => mergeLoop rest first []
  end.

(** [CaptionProcessor.validateSegment(segment)] *)
Definition validateSegment (segment : VideoSegment) : bool :=
  truthy (id segment)
  && geb (startTime segment) 0
  && gtb (endTime segment) (startTime segment)
  && truthy (trim (text segment)).

End CaptionProcessor.

(** ** Video utilities: [createVideoSegments], quality scoring, repair *)

Module VideoUtils.
Import SegmentBuilder.

(** [`/api/audio/segment_${segmentId}_${startTime}_${endTime}.mp3`];
    [numberToString] is the conversion of a number inside a template
    literal. *)
Definition generateAudioUrl (numberToString : number -> jsstring)
  : url_maker :=
  fun segmentId startTime endTime =>
    Some (js "/api/audio/segment_" ++ nat_to_string segmentId ++ js "_"
          ++ numberToString startTime ++ js "_" ++ numberToString endTime
          ++ js ".mp3").

(** [`/api/video/segment_${segmentId}_${startTime}_${endTime}.mp4`] *)
Definition generateVideoUrl (numberToString : number -> jsstring)
  : url_maker :=
  fun segmentId startTime endTime =>
    Some (js "/api/video/segment_" ++ nat_to_string segmentId ++ js "_"
          ++ numberToString startTime ++ js "_" ++ numberToString endTime
          ++ js ".mp4").

(** [createVideoSegments(captions, options)] *)
Definition createVideoSegments (numberToString : number -> jsstring)
           (fuel : nat) (captions : list CaptionData)
           (options : PartialOptions) : option (list VideoSegment) :=
  build fuel (resolveOptions options)
        (generateAudioUrl numberToString) (generateVideoUrl numberToString)
        captions.

(** [validateSegment(segment)] *)
Definition validateSegment (segment : VideoSegment) : bool :=
  truthy (id segment)
  && geb (startTime segment) 0
  && gtb (endTime segment) (startTime segment)
  && truthy (trim (text segment)).

(** One turn of the [for] loop of [mergeAdjacentSegments]: [current]
    is the accumulator, [merged] what has been pushed.  The difference
    of the test is exact here; [Rounded.mergeLoop] rounds it. *)
Fixpoint mergeLoop (rest : list VideoSegment) (current : VideoSegment)
         (merged : list VideoSegment) : list VideoSegment :=
  match rest with
  | [] => merged ++ [current]
  | next :: rest' =>
      if leb (startTime next - endTime current) 2
      then mergeLoop rest'
             (mkSegment (id current) (startTime current) (endTime next)
                (trim (collapse_spaces (text current ++ [SP] ++ text next)))
                (translation current) (audioUrl current) (videoUrl current))
             merged
      else mergeLoop rest' next (merged ++ [current])
  end.

(** [mergeAdjacentSegments(segments)] *)
Definition mergeAdjacentSegments (segments : list VideoSegment)
  : list VideoSegment :=
  match segments with
  | [] => segments
  | [_] => segments
  | first :: rest => mergeLoop rest first []
  end.

(** [cleanText(text)] of the utilities module. *)
Definition cleanText (text : jsstring) : jsstring :=
  trim (collapse_spaces (stripBrackets (stripTags text))).

(** [SegmentQuality] *)
Record SegmentQuality := mkQuality {
  score : number;
  issues : list jsstring;
  suggestions : list jsstring
}.

Definition issue (msg : string) (points : number) (q : SegmentQuality)
  : SegmentQuality :=
  mkQuality (score q - points) (issues q ++ [js msg]) (suggestions q).

Definition suggest (msg : string) (q : SegmentQuality) : SegmentQuality :=
  mkQuality (score q) (issues q) (suggestions q ++ [js msg]).

(** [!segment.translation] *)
Definition missingTranslation (segment : VideoSegment) : bool :=
  match translation segment with
  | None => true
  | Some t => negb (truthy t)
  end.

(** [assessSegmentQuality(segment)] *)
Definition assessSegmentQuality (segment : VideoSegment) : SegmentQuality :=
  let q := mkQuality 1 [] [] in
  let duration := endTime segment - startTime segment in
  let q :=
    if ltb duration 3 then issue "Segment too short" (2 # 10) q
    else if gtb duration 15
         then suggest "Consider splitting into smaller segments"
                      (issue "Segment too long" (1 # 10) q)
         else q in
  let wordCount := of_nat (List.length (split_spaces (text segment))) in
  let q :=
    if ltb wordCount 3 then issue "Text too short" (3 # 10) q
    else if gtb wordCount 25
         then suggest "Consider splitting at sentence boundaries"
                      (issue "Text too long" (1 # 10) q)
         else q in
  let q :=
    if missingTranslation segment
    then suggest "Add English translation"
                 (issue "Missing translation" (2 # 10) q)
    else q in
  let q :=
    if hasFormattingCharacter (text segment)
    then suggest "Clean up text formatting"
                 (issue "Contains formatting characters" (1 # 10) q)
    else q in
  mkQuality (Math_max 0 (score q)) (issues q) (suggestions q).

(** [issues.includes(msg)] *)
Definition hasIssue (msg : string) (q : SegmentQuality) : bool :=
  existsb (str_eqb (js msg)) (issues q).

(** The callback of [segments.map] in [optimizeSegments]. *)
Definition optimizeSegment (segment : VideoSegment) : VideoSegment :=
  let quality := assessSegmentQuality segment in
  if geb (score quality) (8 # 10) then segment
  else
    let improved := segment in
    let improved :=
      if hasIssue "Contains formatting characters" quality
      then mkSegment (id improved) (startTime improved) (endTime improved)
                     (cleanText (text segment)) (translation improved)
                     (audioUrl improved) (videoUrl improved)
      else improved in
    let improved :=
      if hasIssue "Missing translation" quality
      then mkSegment (id improved) (startTime improved) (endTime improved)
                     (text improved) (Some (js "[Translation needed]"))
                     (audioUrl improved) (videoUrl improved)
      else improved in
    improved.

(** [optimizeSegments(segments)] *)
Definition optimizeSegments (segments : list VideoSegment)
  : list VideoSegment :=
  List.map optimizeSegment segments.

(** The class of the units of an id in [extractVideoId]: any unit but
    the double quote, [&], [?], [/] and white space. *)
Definition videoIdChar (c : char) : bool :=
  negb (char_eqb c 34%N || char_eqb c (ch "&") || char_eqb c (ch "?")
        || char_eqb c (ch "/") || is_space c).

(** The expression of [extractVideoId]: behind [youtube.com/] a path
    of two parts, or [v/], [e/] or [embed/], or anything up to [?v=]
    or [&v=]; or [youtu.be/]; then eleven units of the class, captured.
    The optional [mbed] is the alternative of [mbed] and nothing, in
    this order. *)
Definition videoIdRegex : Regex.regex :=
  Regex.Cat
    (Regex.Alt
       (Regex.Cat
          (Regex.Lit (js "youtube.com/"))
          (Regex.Alt
             (Regex.seq [ Regex.plus (Regex.not_char "/"); Regex.Lit (js "/");
                          Regex.plus Regex.dot; Regex.Lit (js "/") ])
             (Regex.Alt
                (Regex.seq
                   [ Regex.Alt (Regex.Lit (js "v"))
                               (Regex.Cat (Regex.Lit (js "e"))
                                          (Regex.Alt (Regex.Lit (js "mbed"))
                                                     (Regex.Lit [])));
                     Regex.Lit (js "/") ])
                (Regex.seq
                   [ Regex.star Regex.dot;
                     Regex.one (fun c => char_eqb c (ch "?")
                                         || char_eqb c (ch "&"));
                     Regex.Lit (js "v=") ]))))
       (Regex.Lit (js "youtu.be/")))
    (Regex.Group (Regex.times 11 videoIdChar)).

(** [extractVideoId(url)] of the utilities module: [match[1]] of the
    first match, or [null]. *)
Definition extractVideoId (url : jsstring) : option jsstring :=
  match Regex.match_first videoIdRegex url with
  | Some (m1 :: _) => Some m1
  | _ => None
  end.

(** [isValidYouTubeUrl(url)] *)
Definition isValidYouTubeUrl (url : jsstring) : bool :=
  match extractVideoId url with
  | Some _ => true
  | None => false
  end.

(** [parseTimeToSeconds(hours, minutes, seconds, milliseconds)] of the
    utilities module. *)
Definition parseTimeToSeconds (hours minutes seconds milliseconds : jsstring)
  : NumberParsing.xnumber :=
  NumberParsing.xadd
    (NumberParsing.xadd
       (NumberParsing.xadd
          (NumberParsing.xscale (NumberParsing.parseInt hours) 3600)
          (NumberParsing.xscale (NumberParsing.parseInt minutes) 60))
       (NumberParsing.parseInt seconds))
    (NumberParsing.xscale (NumberParsing.parseInt milliseconds) (1 # 1000)).

(** A stamp of [parseSRTCaptions], each of its four numbers captured:
    two digits, [:], two digits, [:], two digits, [,], three digits. *)
Definition srtStampGroups : Regex.regex :=
  Regex.seq [ Regex.Group (Regex.times 2 is_digit); Regex.Lit (js ":");
              Regex.Group (Regex.times 2 is_digit); Regex.Lit (js ":");
              Regex.Group (Regex.times 2 is_digit); Regex.Lit (js ",");
              Regex.Group (Regex.times 3 is_digit) ].

(** The expression of the time line: a stamp, optional white space,
    the arrow, optional white space, a stamp. *)
Definition srtTimeRegex : Regex.regex :=
  Regex.seq [ srtStampGroups; Regex.star is_space; Regex.Lit (js "-->");
              Regex.star is_space; srtStampGroups ].

(** The callback of [blocks.forEach] in [parseSRTCaptions].  [None]:
    a time that is not a number of the model. *)
Definition srtCaption (block : jsstring) (captions : list CaptionData)
  : option (list CaptionData) :=
  let lines := split_char CaptionProcessor.NEWLINE (trim block) in
  if (3 <=? List.length lines)%nat then
    match Regex.match_first srtTimeRegex (nth 1 lines []) with
    | Some [h1; m1; s1; ms1; h2; m2; s2; ms2] =>
        let text_ := stripTags (join [SP] (skipn 2 lines)) in
        match parseTimeToSeconds h1 m1 s1 ms1,
              parseTimeToSeconds h2 m2 s2 ms2 with
        | NumberParsing.Finite startTime, NumberParsing.Finite endTime =>
            Some (captions ++ [mkCaption startTime endTime (trim text_)])
        | _, _ => None
        end
    | _ => Some captions
    end
  else Some captions.

(** [parseSRTCaptions(srtContent)] *)
Definition parseSRTCaptions (srtContent : jsstring)
  : option (list CaptionData) :=
  CaptionProcessor.foldCaptions srtCaption
    (Regex.split CaptionProcessor.blockSeparator (trim srtContent)) [].

(** [a % n]: the remainder of the division that truncates its
    quotient, so that it has the sign of [a]. *)
Definition remainder (a n : number) : number :=
  let q := a / n in
  a - n * inject_Z (if ltb q 0 then Qceiling q else Qfloor q).

(** [s.padStart(2, '0')] *)
Definition padStart2 (s : jsstring) : jsstring :=
  List.repeat (ch "0") (2 - List.length s) ++ s.

(** [formatTime(seconds)] for a time from 0 up to 2^53, excluded.
    There the two integers are below 2^53 and are printed digit by
    digit, which is what [int_to_string] does, and the floor of the
    quotient, which the code rounds, is the floor of the exact
    quotient; the remainder [%] is exact on doubles.  [None]: another
    time.  From 2^53 seconds on the floor of the rounded quotient can
    be another integer, from 2^53 * 60 seconds on the code prints
    rounded digits, and from 6e22 seconds on an exponent. *)
Definition formatTime (seconds : number) : option jsstring :=
  if leb 0 seconds && ltb seconds (2 ^ 53) then
    let mins := Qfloor (seconds / 60) in
    let secs := Qfloor (remainder seconds 60) in
    Some (int_to_string mins ++ js ":" ++ padStart2 (int_to_string secs))
  else None.

End VideoUtils.

(** ** The functions that round

    The loop of segment building, the merge of adjacent segments and
    the backend reading of a time stamp once more, with every sum,
    difference, product and quotient of the source rounded to the
    nearest double.  The comparisons, [Math.min], [Math.max], the sort
    (the sign of [a.start - b.start] is the sign of the exact
    difference), the window filter and the text policy are exact on
    doubles and are those of [SegmentBuilder]. *)

Module Rounded.
Import SegmentBuilder NumberParsing.

(** How far a loop with fuel has come.  [Returned]: the function
    returned this list.  [Running]: the fuel ran out with this list
    pushed so far.  [Overflow]: a sum or a difference was an infinity,
    which the model of numbers does not have. *)
Inductive run : Type :=
| Returned (segments : list VideoSegment)
| Running (segments : list VideoSegment)
| Overflow.

(** The segments pushed in a run. *)
Definition emitted (r : run) : list VideoSegment :=
  match r with
  | Returned segments => segments
  | Running segments => segments
  | Overflow => []
  end.

Section Loop.
Variable opts : SegmentationOptions.
Variables audio video : url_maker.
Variables (c0 : CaptionData) (rest : list CaptionData).

(** [Math.max(currentTime, segmentCaptions[0].start)] *)
Definition actualStart (currentTime : number) (first : CaptionData)
  : number :=
  Math_max currentTime (start first).

(** [Math.min(segmentEnd, segmentCaptions[segmentCaptions.length - 1].end)] *)
Definition actualEnd (segmentEnd : number) (first : CaptionData)
           (others : list CaptionData) : number :=
  Math_min segmentEnd (end_ (last (first :: others) first)).

(** What a window with a caption in it pushes; [span] is the
    difference [actualEnd - actualStart] as the code computes it. *)
Definition windowSegment (currentTime segmentEnd span : number)
           (segmentId : nat) (first : CaptionData)
           (others : list CaptionData) : option VideoSegment :=
  let segmentCaptions := first :: others in
  let combinedText := limitWords opts (combineText segmentCaptions) in
  if geb span (minSegmentDuration opts)
  then Some (mkSegment (nat_to_string segmentId)
                       (actualStart currentTime first)
                       (actualEnd segmentEnd first others)
                       combinedText (Some [])
                       (audio segmentId (actualStart currentTime first)
                              (actualEnd segmentEnd first others))
                       (video segmentId (actualStart currentTime first)
                              (actualEnd segmentEnd first others)))
  else None.

(** The [while (currentTime < Math.max(...))] loop.  [sum] is
    [currentTime + segmentDuration], which is also the next time of
    the clock after an empty window; [step] is
    [segmentDuration - overlap]. *)
Fixpoint segmentLoop (fuel : nat) (currentTime : number) (segmentId : nat)
         (segments : list VideoSegment) : run :=
  match fuel with
  | O => Running segments
  | S fuel' =>
      if ltb currentTime (maxEnd c0 rest) then
        match Double.add currentTime (segmentDuration opts) with
        | Some sum =>
            let segmentEnd := Math_min sum (maxEnd c0 rest) in
            match windowCaptions c0 rest currentTime segmentEnd with
            | first :: others =>
                match Double.sub (actualEnd segmentEnd first others)
                                 (actualStart currentTime first),
                      Double.sub (segmentDuration opts) (overlap opts) with
                | Some span, Some step =>
                    match Double.add currentTime step with
                    | Some next =>
                        match windowSegment currentTime segmentEnd span
                                            segmentId first others with
                        | Some seg =>
                            segmentLoop fuel' next (S segmentId)
                                        (segments ++ [seg])
                        | None => segmentLoop fuel' next segmentId segments
                        end
                    | None => Overflow
                    end
                | _, _ => Overflow
                end
            | [] => segmentLoop fuel' sum segmentId segments
            end
        | None => Overflow
        end
      else Returned segments
  end.
End Loop.

Definition build (fuel : nat) (opts : SegmentationOptions)
           (audio video : url_maker) (captions : list CaptionData) : run :=
  match captions with
  | [] => Returned []
  | c0 :: rest => segmentLoop opts audio video c0 rest fuel 0 1 []
  end.

(** [CaptionProcessor.createSegments(captions, options)] *)
Definition createSegments (fuel : nat) (captions : list CaptionData)
           (options : PartialOptions) : run :=
  build fuel (resolveOptions options) CaptionProcessor.emptyUrl
        CaptionProcessor.emptyUrl captions.

(** [createVideoSegments(captions, options)] *)
Definition createVideoSegments (numberToString : number -> jsstring)
           (fuel : nat) (captions : list CaptionData)
           (options : PartialOptions) : run :=
  build fuel (resolveOptions options)
        (VideoUtils.generateAudioUrl numberToString)
        (VideoUtils.generateVideoUrl numberToString) captions.

(** One turn of the [for] loop of [mergeAdjacentSegments], which is
    the same text in the backend and in the utilities module.  [None]:
    the difference [next.startTime - current.endTime] is an
    infinity. *)
Fixpoint mergeLoop (rest : list VideoSegment) (current : VideoSegment)
         (merged : list VideoSegment) : option (list VideoSegment) :=
  match rest with
  | [] => Some (merged ++ [current])
  | next :: rest' =>
      match Double.sub (startTime next) (endTime current) with
      | Some gap =>
          if leb gap 2
          then mergeLoop rest'
                 (mkSegment (id current) (startTime current) (endTime next)
                    (trim (collapse_spaces (text current ++ [SP] ++ text next)))
                    (translation current) (audioUrl current)
                    (videoUrl current))
                 merged
          else mergeLoop rest' next (merged ++ [current])
      | None => None
      end
  end.

(** [mergeAdjacentSegments(segments)] *)
Definition mergeAdjacentSegments (segments : list VideoSegment)
  : option (list VideoSegment) :=
  match segments with
  | [] => Some segments
  | [_] => Some segments
  | first :: rest => mergeLoop rest first []
  end.

(** A number as the code holds it: rounded to the nearest double, an
    infinity beyond the largest one. *)
Definition xround (a : xnumber) : xnumber :=
  match a with
  | Finite q =>
      match Double.round q with
      | Some r => Finite r
      | None => Infinite (ltb q 0)
      end
  | _ => a
  end.

(** [parseInt(s)] and [parseFloat(s)]: the double nearest to the
    number that the digits write. *)
Definition parseInt (s : jsstring) : xnumber :=
  xround (NumberParsing.parseInt s).

Definition parseFloat (s : jsstring) : xnumber :=
  xround (NumberParsing.parseFloat s).

(** [a * k], [a / k] for a positive constant [k], and [a + b]. *)
Definition times (a : xnumber) (k : number) : xnumber :=
  xround (xscale a k).

Definition over (a : xnumber) (k : number) : xnumber :=
  xround (xscale a (/ k)).

Definition plus (a b : xnumber) : xnumber := xround (xadd a b).

(** [CaptionProcessor.parseTimeToSeconds(timeString)] *)
Definition parseTimeToSeconds (timeString : jsstring) : xnumber :=
  if includes (js ":") timeString then
    let parts := split_char (ch ":") timeString in
    let hours := parseInt (CaptionProcessor.or_zero (nth_error parts 0)) in
    let minutes := parseInt (CaptionProcessor.or_zero (nth_error parts 1)) in
    let secondsParts :=
      match nth_error parts 2 with
      | Some ((_ :: _) as p2) =>
          split_each (fun c => char_eqb c (ch ",") || char_eqb c (ch ".")) p2
      | _ => [js "0"]
      end in
    let seconds :=
      parseInt (CaptionProcessor.or_zero (nth_error secondsParts 0)) in
    let milliseconds :=
      parseInt (CaptionProcessor.or_zero (nth_error secondsParts 1)) in
    plus (plus (plus (times hours 3600) (times minutes 60)) seconds)
         (over milliseconds 1000)
  else if includes (js "s") timeString then
    parseFloat (removeFirst (ch "s") timeString)
  else parseFloat timeString.

End Rounded.


(** ** Effects: a world, exceptions, and runs that do not end *)

(** A thrown value: an [Error] with its message, or anything else. *)
Inductive Thrown : Type :=
| Error (message : jsstring)
| NotAnError.

(** [error instanceof Error ? error.message : fallback] *)
Definition messageOr (fallback : string) (e : Thrown) : jsstring :=
  match e with
  | Error m => m
  | NotAnError => js fallback
  end.

(** How a run ends: it returns, it throws, or the model has no result
    for it (the fuel of a loop ran out, or a value outside the model
    of numbers came up). *)
Inductive Res (A : Type) : Type :=
| Ret (a : A)
| Throw (e : Thrown)
| NoResult.
Arguments Ret {A} a.
Arguments Throw {A} e.
Arguments NoResult {A}.

Module Effects.
Section WithWorld.
Variable World : Type.

Definition M (A : Type) : Type := World -> Res A * World.

Definition ret {A} (a : A) : M A := fun w => (Ret a, w).

Definition bind {A B} (m : M A) (f : A -> M B) : M B :=
  fun w =>
    match m w with
    | (Ret a, w') => f a w'
    | (Throw e, w') => (Throw e, w')
    | (NoResult, w') => (NoResult, w')
    end.

Definition throw {A} (e : Thrown) : M A := fun w => (Throw e, w).

Definition no_result {A} : M A := fun w => (NoResult, w).

(** [try { body } catch (error) { handler }] *)
Definition try_catch {A} (body : M A) (handler : Thrown -> M A) : M A :=
  fun w =>
    match body w with
    | (Throw e, w') => handler e w'
    | other => other
    end.

Definition get : M World := fun w => (Ret w, w).
Definition modify (f : World -> World) : M unit := fun w => (Ret tt, f w).
End WithWorld.

Arguments ret {World A} a _.
Arguments bind {World A B} m f _.
Arguments throw {World A} e _.
Arguments no_result {World A} _.
Arguments try_catch {World A} body handler _.
Arguments get {World} _.
Arguments modify {World} f _.
End Effects.

(** ** Backend: [VideoProcessingService] *)

Module VideoProcessingService.
Import Effects.

Inductive Status : Type := pending | processing | completed | failed.

(** [ProcessingProgress]; [jobStartTime] and [jobEndTime] are the
    properties [startTime] and [endTime], dates in milliseconds. *)
Record ProcessingProgress := mkProgress {
  videoId : jsstring;
  status : Status;
  progress : number;
  currentSegment : option nat;
  totalSegments : option nat;
  error : option jsstring;
  jobStartTime : option Z;
  jobEndTime : option Z
}.

(** [Partial<ProcessingProgress>] *)
Record ProgressUpdate := mkUpdate {
  u_videoId : option jsstring;
  u_status : option Status;
  u_progress : option number;
  u_currentSegment : option nat;
  u_totalSegments : option nat;
  u_error : option jsstring;
  u_jobStartTime : option Z;
  u_jobEndTime : option Z
}.

Definition noUpdate : ProgressUpdate :=
  mkUpdate None None None None None None None None.

Definition or_keep {A} (old : option A) (new : option A) : option A :=
  match new with Some v => Some v | None => old end.

(** [{ ...current, ...updates }] *)
Definition applyUpdate (current : ProcessingProgress)
           (updates : ProgressUpdate) : ProcessingProgress :=
  mkProgress
    (or_default (videoId current) (u_videoId updates))
    (or_default (status current) (u_status updates))
    (or_default (progress current) (u_progress updates))
    (or_keep (currentSegment current) (u_currentSegment updates))
    (or_keep (totalSegments current) (u_totalSegments updates))
    (or_keep (error current) (u_error updates))
    (or_keep (jobStartTime current) (u_jobStartTime updates))
    (or_keep (jobEndTime current) (u_jobEndTime updates)).

(** A [Map<string, ProcessingProgress>]: its entries in insertion
    order, each key once. *)
Definition ProgressMap := list (jsstring * ProcessingProgress).

(** [map.get(key)] *)
Fixpoint map_get (key : jsstring) (m : ProgressMap)
  : option ProcessingProgress :=
  match m with
  | [] => None
  | (k, v) :: rest => if str_eqb key k then Some v else map_get key rest
  end.

(** [map.set(key, value)]: a present key keeps its place, a new one
    goes last. *)
Fixpoint map_set (key : jsstring) (value : ProcessingProgress)
         (m : ProgressMap) : ProgressMap :=
  match m with
  | [] => [(key, value)]
  | (k, v) :: rest =>
      if str_eqb key k then (k, value) :: rest
      else (k, v) :: map_set key value rest
  end.

(** What the extraction of one segment with the external tool comes
    to: the three calls succeed, the video information is missing, or
    one of the calls rejects. *)
Inductive AttemptOutcome : Type :=
| Extracted
| NoVideoInfo
| Rejected (e : Thrown).

Inductive OutputDir : Type := AudioDir | VideoDir.

(** What is outside the program: the external tool, answering the
    [n]-th attempt of the run, and the file system. *)
Record Tools := mkTools {
  extraction : nat -> jsstring -> VideoSegment -> AttemptOutcome;
  mkdir : OutputDir -> option Thrown
}.

Inductive Event : Type :=
| Attempt (video : jsstring) (segment : VideoSegment) (retryCount : nat)
| Wait (milliseconds : Z).

(** The state of the service and of its surroundings: the static
    [progressMap], the clock, and what has been done so far. *)
Record World := mkWorld {
  progressMap : ProgressMap;
  clock : Z;
  events : list Event
}.

Definition attemptsSoFar (w : World) : nat :=
  List.length (filter (fun e => match e with Attempt _ _ _ => true
                                        | Wait _ => false end)
                      (events w)).

Definition record (e : Event) (w : World) : World :=
  mkWorld (progressMap w) (clock w) (events w ++ [e]).

(** [setTimeout(resolve, ms)], awaited. *)
Definition sleep (ms : Z) : M World unit :=
  modify (fun w => mkWorld (progressMap w) (clock w + ms)%Z
                           (events w ++ [Wait ms])).

(** [Date.now()] and [new Date()] *)
Definition now : M World Z := fun w => (Ret (clock w), w).

(** [updateProgress(progressId, updates)] *)
Definition updateProgress (progressId : jsstring) (updates : ProgressUpdate)
  : M World unit :=
  modify (fun w =>
            match map_get progressId (progressMap w) with
            | Some current =>
                mkWorld (map_set progressId (applyUpdate current updates)
                                 (progressMap w))
                        (clock w) (events w)
            | None => w
            end).

(** [getProgress(videoId)] *)
Fixpoint findProgress (video : jsstring) (m : ProgressMap)
  : option ProcessingProgress :=
  match m with
  | [] => None
  | (_, p) :: rest =>
      if str_eqb (videoId p) video then Some p else findProgress video rest
  end.

Definition getProgress (video : jsstring) : M World (option ProcessingProgress) :=
  fun w => (Ret (findProgress video (progressMap w)), w).

(** [clearOldProgress()] *)
Definition clearOldProgress : M World unit :=
  modify (fun w =>
            let oneHourAgo := (clock w - 60 * 60 * 1000)%Z in
            mkWorld
              (filter (fun kv => match jobStartTime (snd kv) with
                                 | Some t => negb (t <? oneHourAgo)%Z
                                 | None => true
                                 end)
                      (progressMap w))
              (clock w) (events w)).

(** [ensureDirectories()] *)
Definition ensureDirectories (tools : Tools) : M World unit :=
  fun w =>
    match mkdir tools AudioDir with
    | Some e => (Throw e, w)
    | None => match mkdir tools VideoDir with
              | Some e => (Throw e, w)
              | None => (Ret tt, w)
              end
    end.

(** The inner [try] of [processSegment]: one run of the tool, any
    failure rethrown as [yt-dlp processing error: ...]. *)
Definition extractOnce (tools : Tools) (video : jsstring)
           (segment : VideoSegment) (retryCount : nat) : M World unit :=
  fun w =>
    let w' := record (Attempt video segment retryCount) w in
    let wrap m := Error (js "yt-dlp processing error: " ++ m) in
    match extraction tools (attemptsSoFar w) video segment with
    | Extracted => (Ret tt, w')
    | NoVideoInfo => (Throw (wrap (js "Could not get video info")), w')
    | Rejected e => (Throw (wrap (messageOr "Unknown yt-dlp error" e)), w')
    end.

Definition maxRetries : nat := 3.

(** [processSegment(videoId, segment, retryCount)] *)
Fixpoint processSegmentFrom (fuel : nat) (tools : Tools) (video : jsstring)
         (segment : VideoSegment) (retryCount : nat) : M World unit :=
  match fuel with
  | O => no_result
  | S fuel' =>
      try_catch
        (extractOnce tools video segment retryCount)
        (fun e =>
           if (retryCount <? maxRetries)%nat then
             bind (sleep (2000 * (Z.of_nat retryCount + 1)))
                  (fun _ => processSegmentFrom fuel' tools video segment
                                               (S retryCount))
           else throw e)
  end.

(** [processSegment(videoId, segment)], [retryCount] defaulting to 0;
    the fuel covers every retry. *)
Definition processSegment (tools : Tools) (video : jsstring)
           (segment : VideoSegment) : M World unit :=
  processSegmentFrom (S maxRetries) tools video segment 0.

(** [Math.round(x)] *)
Definition Math_round (x : number) : number :=
  inject_Z (Qfloor (x + (1 # 2))).

(** The [for (let i = 0; i < segments.length; i++)] loop of
    [processSegments], from index [i] on. *)
Fixpoint segmentsLoop (tools : Tools) (video progressId : jsstring)
         (total : nat) (remaining : list VideoSegment) (i : nat)
  : M World unit :=
  match remaining with
  | [] => ret tt
  | segment :: rest =>
      bind (updateProgress progressId
              (mkUpdate None None
                 (Some (Math_round ((of_nat i / of_nat total) * 100)))
                 (Some (i + 1)%nat) None None None None))
           (fun _ =>
      bind (processSegment tools video segment)
           (fun _ => segmentsLoop tools video progressId total rest (S i)))
  end.

(** [processSegments(videoId, segments)] *)
Definition processSegments (tools : Tools) (video : jsstring)
           (segments : list VideoSegment) : M World unit :=
  bind now (fun t0 =>
  let progressId := video ++ js "_" ++ int_to_string t0 in
  bind (modify (fun w =>
          mkWorld (map_set progressId
                     (mkProgress video pending 0 None
                                 (Some (List.length segments)) None
                                 (Some t0) None)
                     (progressMap w))
                  (clock w) (events w)))
       (fun _ =>
  try_catch
    (bind (ensureDirectories tools) (fun _ =>
     bind (updateProgress progressId
             (mkUpdate None (Some processing) None None None None None None))
          (fun _ =>
     bind (segmentsLoop tools video progressId (List.length segments)
                        segments 0)
          (fun _ =>
     bind now (fun t1 =>
     updateProgress progressId
       (mkUpdate None (Some completed) (Some 100) None None None None
                 (Some t1)))))))
    (fun e =>
       updateProgress progressId
         (mkUpdate None (Some failed) None None None
                   (Some (messageOr "Unknown error" e)) None None)))).

End VideoProcessingService.

(** ** Backend: [VideoService] *)

Module VideoService.
Import Effects Regex.
Import VideoProcessingService.

(** [VideoProcessingRequest] *)
Record VideoProcessingRequest := mkRequest {
  req_videoUrl : jsstring;
  req_segmentDuration : option number;
  req_includeTranslation : option bool
}.

(** The [data] of a [VideoProcessingResponse]. *)
Record ResponseData := mkData {
  data_videoId : jsstring;
  data_title : jsstring;
  data_duration : number;
  data_segments : list VideoSegment;
  data_captions : jsstring;
  data_thumbnail : jsstring
}.

(** [VideoProcessingResponse] *)
Record VideoProcessingResponse := mkResponse {
  success : bool;
  data : option ResponseData;
  response_error : option jsstring
}.

(** [VideoMetadata] of the metadata provider. *)
Record VideoMetadata := mkMetadata {
  title : jsstring;
  description : jsstring;
  duration : number;
  thumbnail : jsstring;
  publishedAt : jsstring;
  channelTitle : jsstring
}.

(** The collaborators of [processVideo], each answering with a value
    or a rejection: the metadata and caption provider, the
    translation service, the extraction tools; and the environment
    ([BACKEND_URL], the printing of numbers). *)
Record Collaborators := mkCollaborators {
  getVideoMetadata : jsstring -> VideoMetadata + Thrown;
  extractCaptions : jsstring -> jsstring -> jsstring + Thrown;
  translate : jsstring -> jsstring -> jsstring -> jsstring + Thrown;
  tools : Tools;
  BACKEND_URL : option jsstring;
  numberToString : number -> jsstring
}.

(** [await collaborator(...)] *)
Definition await {A} (answer : A + Thrown) : M World A :=
  match answer with
  | inl a => ret a
  | inr e => throw e
  end.

(** The class [[^&\n?#]]. *)
Definition idChar (c : char) : bool :=
  negb (char_eqb c (ch "&") || char_eqb c 10%N
        || char_eqb c (ch "?") || char_eqb c (ch "#")).

(** The [patterns] of [extractVideoId]. *)
Definition patterns : list regex :=
  [ seq [ Alt (Lit (js "youtube.com/watch?v="))
              (Alt (Lit (js "youtu.be/")) (Lit (js "youtube.com/embed/")));
          Group (plus idChar) ];
    seq [ Lit (js "youtube.com/v/"); Group (plus idChar) ];
    seq [ Lit (js "youtube.com/watch?"); star dot; Lit (js "v=");
          Group (plus idChar) ] ].

(** [extractVideoId(url)] *)
Fixpoint firstMatch (ps : list regex) (url : jsstring) : option jsstring :=
  match ps with
  | [] => None
  | pattern :: rest =>
      match match_first pattern url with
      | Some (((_ :: _) as m1) :: _) => Some m1
      | _ => firstMatch rest url
      end
  end.

Definition extractVideoId (url : jsstring) : option jsstring :=
  firstMatch patterns url.

(** [request.segmentDuration || 8] *)
Definition segmentDurationOr8 (d : option number) : number :=
  match d with
  | Some q => if Qeq_bool q 0 then 8 else q
  | None => 8
  end.

(** The translation loop: a failed translation is replaced by a
    marker and the loop goes on. *)
Fixpoint translateAll (c : Collaborators) (segments : list VideoSegment)
  : M World (list VideoSegment) :=
  match segments with
  | [] => ret []
  | segment :: rest =>
      bind (try_catch
              (await (translate c (text segment) (js "it") (js "en")))
              (fun _ => ret (js "[Translation failed]")))
           (fun t =>
      bind (translateAll c rest)
           (fun rest' =>
      ret (mkSegment (id segment) (startTime segment) (endTime segment)
                     (text segment) (Some t)
                     (audioUrl segment) (videoUrl segment) :: rest')))
  end.

(** The [segments.forEach] that fills in the URLs. *)
Definition withUrls (c : Collaborators) (video : jsstring)
           (segment : VideoSegment) : VideoSegment :=
  let baseUrl := or_default (js "http://localhost:3001")
                   (match BACKEND_URL c with
                    | Some ((_ :: _) as u) => Some u
                    | _ => None
                    end) in
  let name := video ++ js "_" ++ numberToString c (startTime segment)
                    ++ js "_" ++ numberToString c (endTime segment) in
  mkSegment (id segment) (startTime segment) (endTime segment)
            (text segment) (translation segment)
            (Some (baseUrl ++ js "/processed/audio/" ++ name ++ js ".mp3"))
            (Some (baseUrl ++ js "/processed/video/" ++ name ++ js ".mp4")).

Definition lift_option {A} (o : option A) : M World A :=
  match o with
  | Some a => ret a
  | None => no_result
  end.

(** [processVideo(request)]; [fuel] bounds the loop of
    [createSegments]. *)
Definition processVideo (c : Collaborators) (fuel : nat)
           (request : VideoProcessingRequest)
  : M World VideoProcessingResponse :=
  try_catch
    (bind (match extractVideoId (req_videoUrl request) with
           | Some v => ret v
           | None => throw (Error (js "Invalid YouTube URL"))
           end) (fun video =>
     bind (await (getVideoMetadata c video)) (fun metadata =>
     bind (await (extractCaptions c video (js "it"))) (fun captions =>
     bind (lift_option (CaptionProcessor.parseCaptions captions))
          (fun captionData =>
     bind (lift_option
             (CaptionProcessor.createSegments fuel captionData
                (mkPartial
                   (Some (segmentDurationOr8 (req_segmentDuration request)))
                   (Some 1) None None None None)))
          (fun segments =>
     bind (if or_default false (req_includeTranslation request)
           then translateAll c segments else ret segments)
          (fun segments =>
     bind (processSegments (tools c) video segments) (fun _ =>
     let segments := List.map (withUrls c video) segments in
     ret (mkResponse true
            (Some (mkData video (title metadata) (duration metadata)
                          segments
                          (join [SP] (List.map caption_text captionData))
                          (thumbnail metadata)))
            None)))))))))
    (fun e =>
       ret (mkResponse false None
              (Some (messageOr "Failed to process video" e)))).

End VideoService.

(** * Properties *)

(** ** Expressions as scans

    The single-class expressions of the text operations are read off
    by one pass over the string; the scans below are what the matcher
    computes for them, and the properties that follow are proved on
    the scans. *)

Section Scanning.
Import Regex.

(** [s.replace(/\s+/g, ' ')]: every maximal run of white space becomes
    one space; [in_run] tells that the previous unit was white space. *)
Fixpoint collapse_from (in_run : bool) (s : jsstring) : jsstring :=
  match s with
  | [] => []
  | c :: r =>
      if is_space c
      then (if in_run then collapse_from true r
            else SP :: collapse_from true r)
      else c :: collapse_from false r
  end.

(** [s.split(/[class]+/)]: the pieces between maximal runs of [p]; a
    run at either end yields an empty piece there, and the empty string
    yields one empty piece. *)
Fixpoint splitScan (p : char -> bool) (in_run : bool) (s : jsstring)
  : list jsstring :=
  match s with
  | [] => [[]]
  | c :: r =>
      if p c
      then (if in_run then splitScan p true r
            else [] :: splitScan p true r)
      else match splitScan p false r with
           | piece :: pieces => (c :: piece) :: pieces
           | [] => [[c]]
           end
  end.

(** [text.replace(/<[^>]*>/g, '')]: from a [<] that some later [>]
    closes, everything up to the first such [>] is removed. *)
Fixpoint stripTagsFrom (in_tag : bool) (s : jsstring) : jsstring :=
  match s with
  | [] => []
  | c :: r =>
      if in_tag then stripTagsFrom (negb (char_eqb c (ch ">"))) r
      else if char_eqb c (ch "<") && existsb (char_eqb (ch ">")) r
           then stripTagsFrom true r
           else c :: stripTagsFrom false r
  end.

(** Whether [.*?\]] matches at the start of [s]: a [\]] is met before a
    line terminator or the end. *)
Fixpoint closesBracket (s : jsstring) : bool :=
  match s with
  | [] => false
  | c :: r =>
      if char_eqb c (ch "]") then true
      else if is_line_terminator c then false
      else closesBracket r
  end.

(** [text.replace(/\[.*?\]/g, '')] *)
Fixpoint stripBracketsFrom (in_bracket : bool) (s : jsstring) : jsstring :=
  match s with
  | [] => []
  | c :: r =>
      if in_bracket then stripBracketsFrom (negb (char_eqb c (ch "]"))) r
      else if char_eqb c (ch "[") && closesBracket r
           then stripBracketsFrom true r
           else c :: stripBracketsFrom false r
  end.

(** What follows the first [c0] of [s]. *)
Fixpoint afterFirst (c0 : char) (s : jsstring) : option jsstring :=
  match s with
  | [] => None
  | c :: r => if char_eqb c c0 then Some r else afterFirst c0 r
  end.

(** What follows the first [\]] of [s], when no line terminator stands
    before it. *)
Fixpoint afterBracket (s : jsstring) : option jsstring :=
  match s with
  | [] => None
  | c :: r =>
      if char_eqb c (ch "]") then Some r
      else if is_line_terminator c then None
      else afterBracket r
  end.

Lemma char_eqb_sym a b : char_eqb a b = char_eqb b a.
Proof. apply N.eqb_sym. Qed.

(** *** Skipping a match *)

Lemma replace_from_skip r rep n : forall s,
  replace_from r rep n s = replace_from r rep 0 (skipn n s).
Proof.
  induction n as [|n IH]; intros s; [reflexivity|].
  destruct s as [|c s]; [reflexivity|]. cbn [replace_from skipn]. apply IH.
Qed.

Lemma split_from_skip r n : forall cur s,
  Regex.split_from r n cur s = Regex.split_from r 0 cur (skipn n s).
Proof.
  induction n as [|n IH]; intros cur s; [reflexivity|].
  destruct s as [|c s]; [reflexivity|].
  cbn [Regex.split_from skipn]. apply IH.
Qed.

Lemma skipn_to_suffix (pre rest : jsstring) :
  skipn (List.length (pre ++ rest) - List.length rest) (pre ++ rest) = rest.
Proof.
  rewrite length_app, Nat.add_sub.
  rewrite skipn_app, Nat.sub_diag, skipn_all. reflexivity.
Qed.

Lemma drop_while_suffix p s : exists pre, s = pre ++ drop_while p s.
Proof.
  induction s as [|c s (pre & IH)]; cbn.
  - now exists [].
  - destruct (p c).
    + exists (c :: pre). cbn. now f_equal.
    + now exists [].
Qed.

Lemma afterFirst_suffix c0 s rest :
  afterFirst c0 s = Some rest -> exists pre, s = pre ++ rest.
Proof.
  revert rest. induction s as [|c s IH]; intros rest; cbn; [discriminate|].
  destruct (char_eqb c c0).
  - intros H. injection H as <-. now exists [c].
  - intros H. destruct (IH rest H) as (pre & ->). now exists (c :: pre).
Qed.

Lemma afterBracket_suffix s rest :
  afterBracket s = Some rest -> exists pre, s = pre ++ rest.
Proof.
  revert rest. induction s as [|c s IH]; intros rest; cbn [afterBracket];
    [discriminate|].
  destruct (char_eqb c (ch "]")).
  - intros H. injection H as <-. now exists [c].
  - destruct (is_line_terminator c); [discriminate|].
    intros H. destruct (IH rest H) as (pre & ->). now exists (c :: pre).
Qed.

(** One turn of a replacement, when the match at the start of the
    string is known by what follows it. *)
Lemma replace_all_match r rep c s pre rest caps :
  match_at r (c :: s) = Some (rest, caps) -> s = pre ++ rest ->
  replace_all r rep (c :: s) = rep ++ replace_all r rep rest.
Proof.
  intros Hm ->. unfold replace_all. cbn [replace_from]. rewrite Hm.
  replace (List.length (c :: pre ++ rest) - List.length rest)%nat
    with (S (List.length (pre ++ rest) - List.length rest))
    by (cbn [List.length]; rewrite length_app; lia).
  now rewrite replace_from_skip, skipn_to_suffix.
Qed.

Lemma replace_all_no_match r rep c s :
  match_at r (c :: s) = None ->
  replace_all r rep (c :: s) = c :: replace_all r rep s.
Proof.
  intros Hm. unfold replace_all. cbn [replace_from]. now rewrite Hm.
Qed.

Lemma split_match r c s pre rest caps cur :
  match_at r (c :: s) = Some (rest, caps) -> s = pre ++ rest ->
  Regex.split_from r 0 cur (c :: s) = rev cur :: Regex.split_from r 0 [] rest.
Proof.
  intros Hm ->. cbn [Regex.split_from]. rewrite Hm.
  replace (List.length (c :: pre ++ rest) - List.length rest)%nat
    with (S (List.length (pre ++ rest) - List.length rest))
    by (cbn [List.length]; rewrite length_app; lia).
  now rewrite split_from_skip, skipn_to_suffix.
Qed.

Lemma split_no_match r c s cur :
  match_at r (c :: s) = None ->
  Regex.split_from r 0 cur (c :: s) = Regex.split_from r 0 (c :: cur) s.
Proof.
  intros Hm. cbn [Regex.split_from]. now rewrite Hm.
Qed.

(** *** What the expressions match *)

Lemma rep_match_turn {R} p greedy lo hi c s (k : jsstring -> option R) :
  rep_match p greedy lo hi (c :: s) k
  = let more := if p c && may_take hi
                then rep_match p greedy (Nat.pred lo) (option_map Nat.pred hi) s k
                else None in
    match lo with
    | S _ => more
    | O => if greedy then or_else more (k (c :: s)) else or_else (k (c :: s)) more
    end.
Proof. reflexivity. Qed.

(** A greedy run of a class, when whatever follows is accepted. *)
Lemma greedy_run {R} p (k : jsstring -> R) s :
  rep_match p true 0 None s (fun s' => Some (k s'))
  = Some (k (drop_while p s)).
Proof.
  induction s as [|c s IH]; [reflexivity|].
  rewrite rep_match_turn. cbn [drop_while may_take option_map Nat.pred].
  destruct (p c); cbn [andb]; [now rewrite IH | reflexivity].
Qed.

Lemma match_at_plus p c s :
  match_at (plus p) (c :: s)
  = if p c then Some (drop_while p s, []) else None.
Proof.
  unfold match_at, plus. cbn [run]. rewrite rep_match_turn.
  cbn [may_take option_map Nat.pred]. destruct (p c); cbn [andb]; [|reflexivity].
  apply (greedy_run p (fun s' => (s', []))).
Qed.

(** A continuation that asks for the unit [c0] and goes on with [k]. *)
Definition expects {R} (c0 : char) (k : jsstring -> option R)
           (K : jsstring -> option R) : Prop :=
  K [] = None
  /\ forall c r, K (c :: r) = if char_eqb c c0 then k r else None.

Lemma expects_literal {R} (c0 : char) (k : jsstring -> list jsstring -> option R)
      caps :
  expects c0 (fun rest => k rest caps)
          (fun s' => run (Lit [c0]) s' caps k).
Proof.
  split; [reflexivity|]. intros c r. cbn [run starts_with List.length skipn].
  now rewrite (char_eqb_sym c0 c), andb_true_r.
Qed.

(** A greedy run of the units other than [c0], then [c0]. *)
Lemma greedy_until {R} (c0 : char) (k K : jsstring -> option R) s :
  expects c0 k K ->
  rep_match (fun x => negb (char_eqb x c0)) true 0 None s K
  = match afterFirst c0 s with
    | Some rest => k rest
    | None => None
    end.
Proof.
  intros [Hnil Hcons]. induction s as [|c s IH].
  - cbn. now rewrite Hnil.
  - rewrite rep_match_turn. cbn [may_take option_map Nat.pred afterFirst].
    rewrite Hcons, andb_true_r.
    destruct (char_eqb c c0); cbn [negb]; [reflexivity|].
    rewrite IH. now destruct (afterFirst c0 s) as [rest|]; [destruct (k rest)|].
Qed.

Lemma match_at_tag c s :
  match_at tagRegex (c :: s)
  = if char_eqb c (ch "<")
    then match afterFirst (ch ">") s with
         | Some rest => Some (rest, [])
         | None => None
         end
    else None.
Proof.
  unfold match_at, tagRegex. cbn [seq]. cbn [run].
  change (js "<") with [ch "<"]. change (js ">") with [ch ">"].
  cbn [starts_with List.length skipn].
  rewrite (char_eqb_sym (ch "<") c), andb_true_r.
  destruct (char_eqb c (ch "<")); [|reflexivity].
  unfold star.
  apply (@greedy_until _ (ch ">") (fun rest => Some (rest, []))).
  apply (expects_literal (ch ">") (fun s' caps => Some (s', caps)) []).
Qed.

(** A lazy run of units that are no line terminator, then [\]], when
    whatever follows is accepted. *)
Lemma lazy_until {R} (k : jsstring -> R) (K : jsstring -> option R) s :
  expects (ch "]") (fun rest => Some (k rest)) K ->
  rep_match dot false 0 None s K
  = match afterBracket s with
    | Some rest => Some (k rest)
    | None => None
    end.
Proof.
  intros [Hnil Hcons]. induction s as [|c s IH].
  - cbn. now rewrite Hnil.
  - rewrite rep_match_turn. cbn [may_take option_map Nat.pred afterBracket].
    rewrite Hcons, andb_true_r.
    destruct (char_eqb c (ch "]")); [reflexivity|].
    cbn [or_else]. unfold dot at 1.
    destruct (is_line_terminator c); cbn [negb]; [reflexivity | exact IH].
Qed.

Lemma match_at_bracket c s :
  match_at bracketRegex (c :: s)
  = if char_eqb c (ch "[")
    then match afterBracket s with
         | Some rest => Some (rest, [])
         | None => None
         end
    else None.
Proof.
  unfold match_at, bracketRegex. cbn [seq]. cbn [run].
  change (js "[") with [ch "["]. change (js "]") with [ch "]"].
  cbn [starts_with List.length skipn].
  rewrite (char_eqb_sym (ch "[") c), andb_true_r.
  destruct (char_eqb c (ch "[")); [|reflexivity].
  unfold lazy_star.
  apply (@lazy_until _ (fun rest => (rest, []))).
  apply (expects_literal (ch "]") (fun s' caps => Some (s', caps)) []).
Qed.

(** *** The scans are what the matcher computes *)

Lemma collapse_from_run s :
  collapse_from true s = collapse_from false (drop_while is_space s).
Proof.
  induction s as [|c s IH]; [reflexivity|].
  cbn [collapse_from drop_while]. destruct (is_space c) eqn:E; [exact IH|].
  cbn [collapse_from]. now rewrite E.
Qed.

Lemma by_length (P : jsstring -> Prop) :
  (forall s, (forall s', (List.length s' < List.length s)%nat -> P s') -> P s) ->
  forall s, P s.
Proof.
  intros H s. remember (List.length s) as n eqn:E. revert s E.
  induction n as [n IH] using lt_wf_ind. intros s ->.
  apply H. intros s' Hlt. now apply (IH (List.length s')).
Qed.

Lemma suffix_shorter (c : char) (pre rest : jsstring) :
  (List.length rest < List.length (c :: pre ++ rest))%nat.
Proof. cbn [List.length]. rewrite length_app. lia. Qed.

Theorem collapse_spaces_scan s : collapse_spaces s = collapse_from false s.
Proof.
  unfold collapse_spaces.
  induction s as [s IH] using by_length.
  destruct s as [|c s]; [reflexivity|].
  cbn [collapse_from]. destruct (is_space c) eqn:E.
  - destruct (drop_while_suffix is_space s) as (pre & Hpre).
    rewrite (@replace_all_match (plus is_space) [SP] c s pre
               (drop_while is_space s) []);
      [|rewrite match_at_plus, E; reflexivity | exact Hpre].
    rewrite IH by (rewrite Hpre at 2; apply suffix_shorter).
    now rewrite collapse_from_run.
  - rewrite replace_all_no_match by (now rewrite match_at_plus, E).
    rewrite IH by (cbn; lia). reflexivity.
Qed.

Lemma has_afterFirst c0 s :
  existsb (char_eqb c0) s
  = match afterFirst c0 s with Some _ => true | None => false end.
Proof.
  induction s as [|c s IH]; [reflexivity|].
  cbn [existsb afterFirst]. rewrite (char_eqb_sym c0 c).
  now destruct (char_eqb c c0).
Qed.

Lemma stripTagsFrom_tag s rest :
  afterFirst (ch ">") s = Some rest ->
  stripTagsFrom true s = stripTagsFrom false rest.
Proof.
  revert rest. induction s as [|c s IH]; intros rest; [discriminate|].
  cbn [afterFirst stripTagsFrom]. destruct (char_eqb c (ch ">")).
  - intros H. now injection H as <-.
  - apply IH.
Qed.

Theorem stripTags_scan s : stripTags s = stripTagsFrom false s.
Proof.
  unfold stripTags.
  induction s as [s IH] using by_length.
  destruct s as [|c s]; [reflexivity|].
  cbn [stripTagsFrom]. rewrite has_afterFirst.
  pose proof (match_at_tag c s) as Hm.
  destruct (char_eqb c (ch "<")); cbn [andb].
  - destruct (afterFirst (ch ">") s) as [rest|] eqn:E.
    + destruct (@afterFirst_suffix (ch ">") s rest E) as (pre & Hpre).
      rewrite (@replace_all_match tagRegex [] c s pre rest [] Hm Hpre).
      rewrite IH by (rewrite Hpre; apply suffix_shorter).
      cbn [app]. symmetry. now apply stripTagsFrom_tag.
    + rewrite (@replace_all_no_match tagRegex [] c s Hm).
      rewrite IH by (cbn; lia). reflexivity.
  - rewrite (@replace_all_no_match tagRegex [] c s Hm).
    rewrite IH by (cbn; lia). reflexivity.
Qed.

Lemma closesBracket_afterBracket s :
  closesBracket s
  = match afterBracket s with Some _ => true | None => false end.
Proof.
  induction s as [|c s IH]; [reflexivity|].
  cbn [closesBracket afterBracket].
  destruct (char_eqb c (ch "]")); [reflexivity|].
  now destruct (is_line_terminator c).
Qed.

Lemma stripBracketsFrom_bracket s rest :
  afterBracket s = Some rest ->
  stripBracketsFrom true s = stripBracketsFrom false rest.
Proof.
  revert rest. induction s as [|c s IH]; intros rest; [discriminate|].
  cbn [afterBracket stripBracketsFrom]. destruct (char_eqb c (ch "]")).
  - intros H. now injection H as <-.
  - destruct (is_line_terminator c); [discriminate | apply IH].
Qed.

Theorem stripBrackets_scan s : stripBrackets s = stripBracketsFrom false s.
Proof.
  unfold stripBrackets.
  induction s as [s IH] using by_length.
  destruct s as [|c s]; [reflexivity|].
  cbn [stripBracketsFrom]. rewrite closesBracket_afterBracket.
  pose proof (match_at_bracket c s) as Hm.
  destruct (char_eqb c (ch "[")); cbn [andb].
  - destruct (afterBracket s) as [rest|] eqn:E.
    + destruct (@afterBracket_suffix s rest E) as (pre & Hpre).
      rewrite (@replace_all_match bracketRegex [] c s pre rest [] Hm Hpre).
      rewrite IH by (rewrite Hpre; apply suffix_shorter).
      cbn [app]. symmetry. now apply stripBracketsFrom_bracket.
    + rewrite (@replace_all_no_match bracketRegex [] c s Hm).
      rewrite IH by (cbn; lia). reflexivity.
  - rewrite (@replace_all_no_match bracketRegex [] c s Hm).
    rewrite IH by (cbn; lia). reflexivity.
Qed.

Lemma splitScan_not_nil p in_run s : splitScan p in_run s <> [].
Proof.
  revert in_run. induction s as [|c s IH]; intros in_run; cbn.
  - discriminate.
  - destruct (p c).
    + destruct in_run; [apply IH | discriminate].
    + destruct (splitScan p false s); discriminate.
Qed.

Lemma splitScan_run p s :
  splitScan p true s = splitScan p false (drop_while p s).
Proof.
  induction s as [|c s IH]; [reflexivity|].
  cbn [splitScan drop_while]. destruct (p c) eqn:E; [exact IH|].
  cbn [splitScan]. now rewrite E.
Qed.

Lemma split_scan_pieces p s : forall cur,
  Regex.split_from (plus p) 0 cur s
  = match splitScan p false s with
    | piece :: pieces => (rev cur ++ piece) :: pieces
    | [] => [rev cur]
    end.
Proof.
  induction s as [s IH] using by_length. intros cur.
  destruct s as [|c s]; [cbn; now rewrite app_nil_r|].
  cbn [splitScan]. destruct (p c) eqn:E.
  - destruct (drop_while_suffix p s) as (pre & Hpre).
    rewrite (@split_match (plus p) c s pre (drop_while p s) [] cur);
      [|rewrite match_at_plus, E; reflexivity | exact Hpre].
    rewrite app_nil_r. f_equal.
    rewrite IH by (rewrite Hpre at 2; apply suffix_shorter).
    rewrite splitScan_run.
    destruct (splitScan p false (drop_while p s)) eqn:E'; [|reflexivity].
    now apply splitScan_not_nil in E'.
  - rewrite split_no_match by (now rewrite match_at_plus, E).
    rewrite IH by (cbn; lia).
    destruct (splitScan p false s) as [|piece pieces] eqn:E';
      [now apply splitScan_not_nil in E'|].
    cbn [rev]. now rewrite <- app_assoc.
Qed.

Theorem split_on_scan p s : split_on p s = splitScan p false s.
Proof.
  unfold split_on, Regex.split. rewrite split_scan_pieces.
  destruct (splitScan p false s) eqn:E; [|reflexivity].
  now apply splitScan_not_nil in E.
Qed.
End Scanning.


(** ** Repair keeps identity and time bounds *)

Lemma optimizeSegment_frame (s : VideoSegment) :
  let s' := VideoUtils.optimizeSegment s in
  id s' = id s /\ startTime s' = startTime s /\ endTime s' = endTime s
  /\ audioUrl s' = audioUrl s /\ videoUrl s' = videoUrl s.
Proof.
  unfold VideoUtils.optimizeSegment.
  destruct (geb _ _); [now repeat split|].
  destruct (VideoUtils.hasIssue "Contains formatting characters" _);
    destruct (VideoUtils.hasIssue "Missing translation" _);
    cbn; now repeat split.
Qed.

(** C10: [optimizeSegments] returns a list of the length of its input,
    and position by position the output segments have the ids, the
    start and end times and the two URLs of the input segments; only
    [text] and [translation] may differ. *)
Theorem C10_optimizeSegments_frame (segments : list VideoSegment) :
  let out := VideoUtils.optimizeSegments segments in
  List.length out = List.length segments
  /\ List.map id out = List.map id segments
  /\ List.map startTime out = List.map startTime segments
  /\ List.map endTime out = List.map endTime segments
  /\ List.map audioUrl out = List.map audioUrl segments
  /\ List.map videoUrl out = List.map videoUrl segments.
Proof.
  cbv zeta. unfold VideoUtils.optimizeSegments.
  split; [apply length_map|].
  rewrite !map_map.
  repeat split; apply map_ext; intros s; apply optimizeSegment_frame.
Qed.

(** ** Merging adjacent segments *)

Section Merge.
Import CaptionProcessor.

(** Two segments in a row that the loop keeps apart. *)
Definition apart (a b : VideoSegment) : Prop :=
  leb (startTime b - endTime a) 2 = false.

(** No two neighbours of the list are within the merging distance. *)
Fixpoint separated (l : list VideoSegment) : Prop :=
  match l with
  | a :: ((b :: _) as rest) => apart a b /\ separated rest
  | _ => True
  end.

Lemma mergeLoop_pushed rest : forall current merged,
  mergeLoop rest current merged = merged ++ mergeLoop rest current [].
Proof.
  induction rest as [|next rest IH]; intros current merged; cbn.
  - reflexivity.
  - destruct (leb _ 2).
    + apply IH.
    + rewrite IH, (IH next [current]), app_assoc. reflexivity.
Qed.

(** The first segment out of the loop starts where the accumulator
    starts. *)
Lemma mergeLoop_head rest : forall current,
  exists h t, mergeLoop rest current [] = h :: t
              /\ startTime h = startTime current.
Proof.
  induction rest as [|next rest IH]; intros current; cbn.
  - now exists current, [].
  - destruct (leb _ 2).
    + destruct (IH (mkSegment (id current) (startTime current) (endTime next)
                      (trim (collapse_spaces (text current ++ [SP] ++ text next)))
                      (translation current) (audioUrl current) (videoUrl current)))
        as (h & t & E & Hs).
      now exists h, t.
    + rewrite mergeLoop_pushed. now exists current, (mergeLoop rest next []).
Qed.

Lemma mergeLoop_separated rest : forall current,
  separated (mergeLoop rest current []).
Proof.
  induction rest as [|next rest IH]; intros current; cbn.
  - exact I.
  - destruct (leb (startTime next - endTime current) 2) eqn:E.
    + apply IH.
    + rewrite mergeLoop_pushed.
      destruct (mergeLoop_head rest next) as (h & t & Eh & Hs).
      specialize (IH next). rewrite Eh in *. cbn.
      split; [|exact IH]. unfold apart. now rewrite Hs.
Qed.

Lemma mergeLoop_fixed rest : forall current,
  separated (current :: rest) -> mergeLoop rest current [] = current :: rest.
Proof.
  induction rest as [|next rest IH]; intros current H.
  - reflexivity.
  - destruct H as [Ha Hr]. cbn. unfold apart in Ha. rewrite Ha.
    rewrite mergeLoop_pushed, (IH next Hr). reflexivity.
Qed.

Lemma merge_fixed l : separated l -> mergeAdjacentSegments l = l.
Proof.
  destruct l as [|a [|b l]]; intros H; try reflexivity.
  now apply (mergeLoop_fixed (b :: l) a).
Qed.

Lemma merge_separated l : separated (mergeAdjacentSegments l).
Proof.
  destruct l as [|a [|b l]]; try exact I.
  apply (mergeLoop_separated (b :: l) a).
Qed.
End Merge.

(** The utilities module has the same function, word for word. *)
Lemma mergeAdjacentSegments_same (l : list VideoSegment) :
  VideoUtils.mergeAdjacentSegments l = CaptionProcessor.mergeAdjacentSegments l.
Proof. reflexivity. Qed.

(** C5: [mergeAdjacentSegments] is idempotent, in the backend and in the
    utilities module: merging the result of a merge changes nothing. *)
Theorem C5_mergeAdjacentSegments_idempotent (segments : list VideoSegment) :
  CaptionProcessor.mergeAdjacentSegments
    (CaptionProcessor.mergeAdjacentSegments segments)
  = CaptionProcessor.mergeAdjacentSegments segments
  /\ VideoUtils.mergeAdjacentSegments
       (VideoUtils.mergeAdjacentSegments segments)
     = VideoUtils.mergeAdjacentSegments segments.
Proof.
  assert (H : CaptionProcessor.mergeAdjacentSegments
                (CaptionProcessor.mergeAdjacentSegments segments)
              = CaptionProcessor.mergeAdjacentSegments segments)
    by apply merge_fixed, merge_separated.
  split; [exact H|]. now rewrite !mergeAdjacentSegments_same.
Qed.

(** ** Segment building *)

Lemma ltb_lt (a b : number) : ltb a b = true <-> a < b.
Proof.
  unfold ltb. rewrite negb_true_iff.
  split; intros H.
  - apply Qnot_le_lt. intros Hle. apply Qle_bool_iff in Hle. congruence.
  - destruct (Qle_bool b a) eqn:E; [|reflexivity].
    apply Qle_bool_iff in E. exfalso. now apply (Qlt_not_le a b).
Qed.

Lemma ltb_ge (a b : number) : ltb a b = false <-> b <= a.
Proof.
  unfold ltb. rewrite negb_false_iff. apply Qle_bool_iff.
Qed.

Lemma leb_le (a b : number) : leb a b = true <-> a <= b.
Proof. apply Qle_bool_iff. Qed.

Section LoopFacts.
Import SegmentBuilder.
Variable opts : SegmentationOptions.
Variables audio video : url_maker.
Variables (c0 : CaptionData) (rest : list CaptionData).

Let loop := segmentLoop opts audio video c0 rest.

Lemma segmentLoop_turn fuel t n segs :
  loop (S fuel) t n segs
  = if ltb t (maxEnd c0 rest) then
      match windowCaptions c0 rest t (windowEnd opts c0 rest t) with
      | first :: others =>
          match windowSegment opts audio video c0 rest t n first others with
          | Some seg =>
              loop fuel (t + (segmentDuration opts - overlap opts))
                   (S n) (segs ++ [seg])
          | None =>
              loop fuel (t + (segmentDuration opts - overlap opts)) n segs
          end
      | [] => loop fuel (t + segmentDuration opts) n segs
      end
    else Some segs.
Proof. reflexivity. Qed.

(** The duration floor of a segment. *)
Definition reachesFloor (s : VideoSegment) : Prop :=
  minSegmentDuration opts <= endTime s - startTime s.

(** A window pushes a segment exactly when its clipped bounds reach
    the floor. *)
Lemma windowSegment_floor t n first others seg :
  windowSegment opts audio video c0 rest t n first others = Some seg ->
  reachesFloor seg.
Proof.
  unfold windowSegment, reachesFloor.
  destruct (geb _ _) eqn:E; [|discriminate].
  intros H. injection H as <-. cbn. now apply leb_le.
Qed.

End LoopFacts.

(** The two captions of the overlap example of the specification. *)
Definition ciao_captions : list CaptionData :=
  [ mkCaption 0 5 (js "Ciao, come stai?");
    mkCaption 5 10 (js "Sono molto felice di vederti oggi.") ].

Definition ciao_both : jsstring :=
  js "Ciao, come stai? Sono molto felice di vederti oggi.".

Definition ciao_second : jsstring :=
  js "Sono molto felice di vederti oggi.".

(** C1, as stated, does not hold: on the two captions and the default
    options [createSegments] never returns a list of exactly one
    segment. *)
Lemma C1_not_one_segment :
  ~ exists (fuel : nat) (seg : VideoSegment),
      CaptionProcessor.createSegments fuel ciao_captions noOptions = Some [seg].
Proof.
  intros (fuel & seg & H).
  destruct fuel as [|[|[|fuel]]]; vm_compute in H; discriminate H.
Qed.

(** C1, amended: on the two captions and the default options segment
    building returns exactly two segments.  The window [0, 8) yields
    the segment from 0 to 8 with both texts, the next window starts at
    7 and yields the segment from 7 to 10 with the second text.  This
    holds for [createSegments] and for [createVideoSegments], whatever
    the fuel beyond the three turns the loop takes. *)
Theorem C1_two_overlapping_segments
        (numberToString : number -> jsstring) (extra : nat) :
  CaptionProcessor.createSegments (3 + extra) ciao_captions noOptions
  = Some [ mkSegment (js "1") 0 8 ciao_both (Some []) (Some []) (Some []);
           mkSegment (js "2") 7 10 ciao_second (Some []) (Some []) (Some []) ]
  /\ VideoUtils.createVideoSegments numberToString (3 + extra)
       ciao_captions noOptions
     = Some [ mkSegment (js "1") 0 8 ciao_both (Some [])
                (VideoUtils.generateAudioUrl numberToString 1%nat 0 8)
                (VideoUtils.generateVideoUrl numberToString 1%nat 0 8);
              mkSegment (js "2") 7 10 ciao_second (Some [])
                (VideoUtils.generateAudioUrl numberToString 2%nat 7 10)
                (VideoUtils.generateVideoUrl numberToString 2%nat 7 10) ].
Proof.
  split; vm_compute; reflexivity.
Qed.

(** ** Rounding *)

Lemma round_compat (q q' : Q) : q == q' -> Double.round q = Double.round q'.
Proof.
  intros E. unfold Double.round. now rewrite (Qred_complete _ _ E).
Qed.

Lemma Qred_whole (z : Z) : Qred (inject_Z z) = inject_Z z.
Proof. apply Qcanon.Qred_identity. cbn. apply Z.gcd_1_r. Qed.

Lemma nearest_even_whole (x : Q) (n : Z) :
  x == inject_Z n -> Double.nearest_even x = n.
Proof.
  intros E. unfold Double.nearest_even.
  rewrite (Qfloor_comp _ _ E), Qfloor_Z.
  assert (H : Qcompare (x - inject_Z n) (1 # 2) = Lt).
  { rewrite <- Qlt_alt. rewrite E. unfold Qminus. rewrite Qplus_opp_r.
    reflexivity. }
  now rewrite H.
Qed.

Lemma two_power_positive (k : Z) : 0 < 2 ^ k.
Proof. apply Qpower_0_lt. reflexivity. Qed.

(** A whole number below 2^53 is a double: rounding keeps it. *)
Lemma round_whole (z : Z) :
  (Z.abs z < 2 ^ 53)%Z -> Double.round (inject_Z z) = Some (inject_Z z).
Proof.
  intros Hz. unfold Double.round. rewrite Qred_whole. cbv zeta.
  destruct (Z.eq_dec z 0) as [->|Hnz]; [reflexivity|].
  assert (E0 : Qeq_bool (inject_Z z) 0 = false).
  { apply not_true_iff_false. intros H. apply Qeq_bool_iff in H.
    apply Hnz. unfold Qeq, inject_Z in H. cbn in H. lia. }
  rewrite E0.
  set (k := Z.log2 (Z.abs z)).
  assert (Hk : (0 <= k < 53)%Z).
  { unfold k. split; [apply Z.log2_nonneg|].
    apply Z.log2_lt_pow2; lia. }
  assert (Hpow : (2 ^ k <= Z.abs z)%Z).
  { unfold k. apply Z.log2_spec. lia. }
  assert (Habs : Qabs (inject_Z z) = inject_Z (Z.abs z)) by reflexivity.
  assert (Hlog : Double.ilog2 (Qabs (inject_Z z)) = k).
  { rewrite Habs. unfold Double.ilog2. cbn [Qnum Qden inject_Z].
    change (Z.log2 1) with 0%Z. rewrite Z.sub_0_r. fold k.
    assert (H : Qle_bool (2 ^ k) (inject_Z (Z.abs z)) = true).
    { apply Qle_bool_iff.
      change 2 with (inject_Z 2). rewrite <- Zpower_Qpower by lia.
      now rewrite <- Zle_Qle. }
    now rewrite H. }
  assert (He : Double.exponent (inject_Z z) = (k - 52)%Z).
  { unfold Double.exponent. rewrite Hlog.
    unfold Double.least_exponent, Double.precision. lia. }
  rewrite He.
  assert (Hscaled : inject_Z z / 2 ^ (k - 52)
                    == inject_Z (z * 2 ^ (52 - k))).
  { rewrite inject_Z_mult.
    replace (k - 52)%Z with (- (52 - k))%Z by lia.
    rewrite Qpower_opp.
    rewrite Zpower_Qpower by lia.
    change (inject_Z 2) with 2.
    pose proof (two_power_positive (52 - k)).
    field. lra. }
  rewrite (nearest_even_whole Hscaled).
  assert (Hback : inject_Z (z * 2 ^ (52 - k)) * 2 ^ (k - 52) == inject_Z z).
  { rewrite inject_Z_mult.
    replace (k - 52)%Z with (- (52 - k))%Z by lia.
    rewrite Qpower_opp.
    rewrite Zpower_Qpower by lia.
    change (inject_Z 2) with 2.
    pose proof (two_power_positive (52 - k)).
    field. lra. }
  rewrite (Qred_complete _ _ Hback), Qred_whole, Habs.
  assert (Hsmall : Qle_bool (2 ^ 1024) (inject_Z (Z.abs z)) = false).
  { apply not_true_iff_false. intros H. apply Qle_bool_iff in H.
    assert (H53 : inject_Z (Z.abs z) < inject_Z (2 ^ 53))
      by now rewrite <- Zlt_Qlt.
    assert (Hbig : inject_Z (2 ^ 53) < 2 ^ 1024) by reflexivity.
    lra. }
  now rewrite Hsmall.
Qed.

(** ** The duration floor *)

Section RoundedLoop.
Import SegmentBuilder.
Variable opts : SegmentationOptions.
Variables audio video : url_maker.
Variables (c0 : CaptionData) (rest : list CaptionData).

Let loop := Rounded.segmentLoop opts audio video c0 rest.

Lemma rounded_loop_turn fuel t n segs :
  loop (S fuel) t n segs
  = if ltb t (maxEnd c0 rest) then
      match Double.add t (segmentDuration opts) with
      | Some sum =>
          let segmentEnd := Math_min sum (maxEnd c0 rest) in
          match windowCaptions c0 rest t segmentEnd with
          | first :: others =>
              match Double.sub (Rounded.actualEnd segmentEnd first others)
                               (Rounded.actualStart t first),
                    Double.sub (segmentDuration opts) (overlap opts) with
              | Some span, Some step =>
                  match Double.add t step with
                  | Some next =>
                      match Rounded.windowSegment opts audio video t
                              segmentEnd span n first others with
                      | Some seg => loop fuel next (S n) (segs ++ [seg])
                      | None => loop fuel next n segs
                      end
                  | None => Rounded.Overflow
                  end
              | _, _ => Rounded.Overflow
              end
          | [] => loop fuel sum n segs
          end
      | None => Rounded.Overflow
      end
    else Rounded.Returned segs.
Proof. reflexivity. Qed.

(** What holds of every push of a window holds of every segment of a
    run, returned or not. *)
Lemma rounded_loop_invariant (P : VideoSegment -> Prop) :
  (forall t sum span n first others seg,
      Double.sub (Rounded.actualEnd (Math_min sum (maxEnd c0 rest))
                                    first others)
                 (Rounded.actualStart t first) = Some span ->
      Rounded.windowSegment opts audio video t
        (Math_min sum (maxEnd c0 rest)) span n first others = Some seg ->
      P seg) ->
  forall fuel t n segs,
    Forall P segs -> Forall P (Rounded.emitted (loop fuel t n segs)).
Proof.
  intros Hpush fuel.
  induction fuel as [|fuel IH]; intros t n segs Hsegs; [exact Hsegs|].
  rewrite rounded_loop_turn.
  destruct (ltb t _); [|exact Hsegs].
  destruct (Double.add t _) as [sum|]; [|constructor]. cbv zeta.
  destruct (windowCaptions _ _ _ _) as [|first others]; [now apply IH|].
  destruct (Double.sub (Rounded.actualEnd _ _ _) _) as [span|] eqn:Espan;
    [|constructor].
  destruct (Double.sub (segmentDuration opts) _) as [step|]; [|constructor].
  destruct (Double.add t step) as [next|]; [|constructor].
  destruct (Rounded.windowSegment _ _ _ _ _ _ _ _ _) as [seg|] eqn:E;
    [|now apply IH].
  apply IH. apply Forall_app. split; [exact Hsegs|].
  constructor; [|constructor]. exact (Hpush _ _ _ _ _ _ _ Espan E).
Qed.

(** The floor as the code tests it: on the difference of the two
    bounds, rounded. *)
Definition floorKept (s : VideoSegment) : Prop :=
  exists span,
    Double.sub (endTime s) (startTime s) = Some span
    /\ minSegmentDuration opts <= span.

Lemma rounded_window_floor t segmentEnd span n first others seg :
  Double.sub (Rounded.actualEnd segmentEnd first others)
             (Rounded.actualStart t first) = Some span ->
  Rounded.windowSegment opts audio video t segmentEnd span n first others
  = Some seg ->
  floorKept seg.
Proof.
  intros Hspan. unfold Rounded.windowSegment.
  destruct (geb _ _) eqn:E; [|discriminate].
  intros H. injection H as <-. exists span. cbn [startTime endTime].
  split; [exact Hspan | now apply leb_le].
Qed.

Lemma rounded_window_below_floor t segmentEnd span n first others :
  span < minSegmentDuration opts ->
  Rounded.windowSegment opts audio video t segmentEnd span n first others
  = None.
Proof.
  intros H. unfold Rounded.windowSegment.
  destruct (geb _ _) eqn:E; [|reflexivity].
  apply leb_le in E. exfalso. exact (Qlt_not_le _ _ H E).
Qed.

Lemma rounded_loop_floor fuel t n segs :
  Forall floorKept segs ->
  Forall floorKept (Rounded.emitted (loop fuel t n segs)).
Proof.
  apply rounded_loop_invariant.
  intros t' sum span n' first others seg. apply rounded_window_floor.
Qed.

(** A turn of the loop whose window is below the floor pushes nothing
    and keeps the identifier for the next window. *)
Lemma rounded_turn_below_floor fuel t n segs sum first others span step next :
  ltb t (maxEnd c0 rest) = true ->
  Double.add t (segmentDuration opts) = Some sum ->
  windowCaptions c0 rest t (Math_min sum (maxEnd c0 rest)) = first :: others ->
  Double.sub (Rounded.actualEnd (Math_min sum (maxEnd c0 rest)) first others)
             (Rounded.actualStart t first) = Some span ->
  span < minSegmentDuration opts ->
  Double.sub (segmentDuration opts) (overlap opts) = Some step ->
  Double.add t step = Some next ->
  loop (S fuel) t n segs = loop fuel next n segs.
Proof.
  intros Ht Hsum Hwindow Hspan Hbelow Hstep Hnext.
  rewrite rounded_loop_turn, Ht, Hsum. cbv zeta.
  rewrite Hwindow, Hspan, Hstep, Hnext.
  now rewrite rounded_window_below_floor.
Qed.

(** A turn of the loop whose window reaches the floor pushes the
    segment of the window and takes the next identifier. *)
Lemma rounded_turn_at_floor fuel t n segs sum first others span step next :
  ltb t (maxEnd c0 rest) = true ->
  Double.add t (segmentDuration opts) = Some sum ->
  windowCaptions c0 rest t (Math_min sum (maxEnd c0 rest)) = first :: others ->
  Double.sub (Rounded.actualEnd (Math_min sum (maxEnd c0 rest)) first others)
             (Rounded.actualStart t first) = Some span ->
  minSegmentDuration opts <= span ->
  Double.sub (segmentDuration opts) (overlap opts) = Some step ->
  Double.add t step = Some next ->
  loop (S fuel) t n segs
  = loop fuel next (S n)
      (segs ++
       [mkSegment (nat_to_string n) (Rounded.actualStart t first)
          (Rounded.actualEnd (Math_min sum (maxEnd c0 rest)) first others)
          (limitWords opts (combineText (first :: others))) (Some [])
          (audio n (Rounded.actualStart t first)
             (Rounded.actualEnd (Math_min sum (maxEnd c0 rest)) first others))
          (video n (Rounded.actualStart t first)
             (Rounded.actualEnd (Math_min sum (maxEnd c0 rest)) first
                others))]).
Proof.
  intros Ht Hsum Hwindow Hspan Hfloor Hstep Hnext.
  rewrite rounded_loop_turn, Ht, Hsum. cbv zeta.
  rewrite Hwindow, Hspan, Hstep, Hnext.
  unfold Rounded.windowSegment.
  assert (E : geb span (minSegmentDuration opts) = true) by now apply leb_le.
  now rewrite E.
Qed.
End RoundedLoop.

(** A caption from 0.3 s to 3.3 s: the two doubles are 3 s apart once
    their difference is rounded, and less than 3 s apart exactly. *)
Definition short_caption : CaptionData :=
  mkCaption (Double.literal 3 10) (Double.literal 33 10) (js "Ciao a tutti").

(** The floor is kept by the difference that the code computes, not
    by the exact one: on [short_caption] and the default options both
    builders return one segment, from 0.3 to 3.3, whose bounds are the
    two doubles, less than 3 seconds apart. *)
Lemma floor_is_on_the_rounded_difference
      (numberToString : number -> jsstring) :
  let seg audio video :=
    mkSegment (js "1") (Double.literal 3 10) (Double.literal 33 10)
              (js "Ciao a tutti") (Some []) audio video in
  Rounded.createSegments 2 [short_caption] noOptions
  = Rounded.Returned [seg (Some []) (Some [])]
  /\ Rounded.createVideoSegments numberToString 2 [short_caption] noOptions
     = Rounded.Returned
         [seg (VideoUtils.generateAudioUrl numberToString 1%nat
                 (Double.literal 3 10) (Double.literal 33 10))
              (VideoUtils.generateVideoUrl numberToString 1%nat
                 (Double.literal 3 10) (Double.literal 33 10))]
  /\ Double.sub (Double.literal 33 10) (Double.literal 3 10) = Some 3
  /\ Double.literal 33 10 - Double.literal 3 10 < 3.
Proof.
  cbv zeta. repeat split; vm_compute; reflexivity.
Qed.

(** Between bounds that are whole numbers the rounded difference is
    the exact one. *)
Lemma whole_difference (x y : number) (a b : Z) (span : number) :
  x == inject_Z a -> y == inject_Z b -> (Z.abs (b - a) < 2 ^ 53)%Z ->
  Double.sub y x = Some span -> span == y - x.
Proof.
  intros Hx Hy Hab. unfold Double.sub.
  assert (E : y - x == inject_Z (b - a)).
  { rewrite Hx, Hy. unfold Z.sub.
    rewrite inject_Z_plus, inject_Z_opp. reflexivity. }
  rewrite (@round_compat _ _ E), (@round_whole _ Hab).
  intros H. injection H as <-. now rewrite E.
Qed.

(** C4: every segment that segment building emits reaches the
    duration floor, for [createSegments] and for [createVideoSegments]
    and whatever the captions and the options: the difference
    [endTime - startTime], computed as the code computes it (rounded
    to the nearest double), is at least [minSegmentDuration].  This
    holds of the segments of a run that returns and of the segments
    pushed so far in a run that has not returned.  Where the two
    bounds are whole numbers less than 2^53 apart, the difference is
    exact and the floor holds of the exact difference.  A turn of the
    loop whose window has a difference below the floor pushes no
    segment: the loop goes on from the next time of the clock with the
    same list and the same identifier; a turn whose window reaches the
    floor pushes one segment, with the bounds of the window. *)
Theorem C4_duration_floor
        (numberToString : number -> jsstring)
        (captions : list CaptionData) (options : PartialOptions)
        (fuel : nat) :
  let opts := resolveOptions options in
  let reachesFloor (s : VideoSegment) :=
    exists span,
      Double.sub (endTime s) (startTime s) = Some span
      /\ minSegmentDuration opts <= span in
  let wholeBounds (s : VideoSegment) :=
    exists a b : Z,
      startTime s == inject_Z a /\ endTime s == inject_Z b
      /\ (Z.abs (b - a) < 2 ^ 53)%Z in
  Forall reachesFloor
         (Rounded.emitted (Rounded.createSegments fuel captions options))
  /\ Forall reachesFloor
            (Rounded.emitted
               (Rounded.createVideoSegments numberToString fuel captions
                                            options))
  /\ (forall s, reachesFloor s -> wholeBounds s ->
                minSegmentDuration opts <= endTime s - startTime s)
  /\ (forall audio video c0 rest turns t n segs sum first others
             span step next,
         let segmentEnd := Math_min sum (SegmentBuilder.maxEnd c0 rest) in
         ltb t (SegmentBuilder.maxEnd c0 rest) = true ->
         Double.add t (segmentDuration opts) = Some sum ->
         SegmentBuilder.windowCaptions c0 rest t segmentEnd
         = first :: others ->
         Double.sub (Rounded.actualEnd segmentEnd first others)
                    (Rounded.actualStart t first) = Some span ->
         Double.sub (segmentDuration opts) (overlap opts) = Some step ->
         Double.add t step = Some next ->
         (span < minSegmentDuration opts ->
          Rounded.segmentLoop opts audio video c0 rest (S turns) t n segs
          = Rounded.segmentLoop opts audio video c0 rest turns next n segs)
         /\ (minSegmentDuration opts <= span ->
             exists seg,
               Rounded.segmentLoop opts audio video c0 rest (S turns) t n
                                   segs
               = Rounded.segmentLoop opts audio video c0 rest turns next
                                     (S n) (segs ++ [seg])
               /\ startTime seg = Rounded.actualStart t first
               /\ endTime seg = Rounded.actualEnd segmentEnd first others)).
Proof.
  cbv zeta.
  unfold Rounded.createSegments, Rounded.createVideoSegments, Rounded.build.
  split; [|split; [|split]].
  - destruct captions as [|c0 rest]; [constructor|].
    apply rounded_loop_floor. constructor.
  - destruct captions as [|c0 rest]; [constructor|].
    apply rounded_loop_floor. constructor.
  - intros s (span & Hspan & Hle) (a & b & Ha & Hb & Hab).
    now rewrite <- (whole_difference Ha Hb Hab Hspan).
  - intros audio video c0 rest turns t n segs sum first others span step
           next Ht Hsum Hwindow Hspan Hstep Hnext.
    split; intros Hfloor.
    + eapply rounded_turn_below_floor; eassumption.
    + eexists. split; [|split].
      * eapply rounded_turn_at_floor; eassumption.
      * reflexivity.
      * reflexivity.
Qed.

Lemma C4_duration_floor_witness :
  let segs :=
    [mkSegment (js "1") (Double.literal 3 10) (Double.literal 33 10)
               (js "Ciao a tutti") (Some []) (Some []) (Some [])] in
  Rounded.createSegments 2 [short_caption] noOptions = Rounded.Returned segs
  /\ Forall (fun s => exists span,
                Double.sub (endTime s) (startTime s) = Some span
                /\ 3 <= span) segs.
Proof.
  cbv zeta. split; [vm_compute; reflexivity|].
  exact (proj1 (C4_duration_floor (fun _ => []) [short_caption] noOptions 2)).
Defined.

(** ** The extraction orchestrator *)

Section Orchestrator.
Import Effects VideoProcessingService.

Lemma str_eqb_refl (s : jsstring) : str_eqb s s = true.
Proof.
  induction s as [|c s IH]; [reflexivity|].
  cbn. unfold char_eqb. now rewrite N.eqb_refl.
Qed.

Lemma map_get_set key value m :
  map_get key (map_set key value m) = Some value.
Proof.
  induction m as [|[k v] m IH]; cbn.
  - now rewrite str_eqb_refl.
  - destruct (str_eqb key k) eqn:E; cbn; now rewrite E.
Qed.

(** The record of job [progressId] in a world. *)
Definition jobRecord (progressId : jsstring) (w : World)
  : option ProcessingProgress :=
  map_get progressId (progressMap w).

Lemma updateProgress_spec progressId updates w current :
  jobRecord progressId w = Some current ->
  exists w',
    updateProgress progressId updates w = (Ret tt, w')
    /\ jobRecord progressId w' = Some (applyUpdate current updates)
    /\ clock w' = clock w /\ events w' = events w.
Proof.
  unfold jobRecord, updateProgress, modify. intros H. rewrite H.
  eexists. split; [reflexivity|]. cbn. now rewrite map_get_set.
Qed.

Variable tools : Tools.
Variable video : jsstring.

(** What a segment that is never extracted leaves in the log: four
    attempts, with waits of 2, 4 and 6 seconds between them. *)
Definition givingUp (segment : VideoSegment) : list Event :=
  [ Attempt video segment 0; Wait 2000;
    Attempt video segment 1; Wait 4000;
    Attempt video segment 2; Wait 6000;
    Attempt video segment 3 ].

Lemma extractOnce_fails segment retryCount w :
  (forall n, extraction tools n video segment <> Extracted) ->
  exists m,
    extractOnce tools video segment retryCount w
    = (Throw (Error m), record (Attempt video segment retryCount) w).
Proof.
  intros H. unfold extractOnce.
  destruct (extraction tools _ video segment) eqn:E.
  - now apply H in E.
  - eauto.
  - eauto.
Qed.

(** The log of a segment that fails from try [retryCount] on, with
    [more] retries still allowed, and the time it waits. *)
Fixpoint retryTrace (segment : VideoSegment) (retryCount more : nat)
  : list Event :=
  Attempt video segment retryCount
  :: match more with
     | O => []
     | S more' => Wait (2000 * (Z.of_nat retryCount + 1))
                  :: retryTrace segment (S retryCount) more'
     end.

Fixpoint retryWait (retryCount more : nat) : Z :=
  match more with
  | O => 0
  | S more' => 2000 * (Z.of_nat retryCount + 1)
               + retryWait (S retryCount) more'
  end.

Lemma processSegmentFrom_turn fuel segment retryCount :
  processSegmentFrom (S fuel) tools video segment retryCount
  = try_catch
      (extractOnce tools video segment retryCount)
      (fun e =>
         if (retryCount <? maxRetries)%nat then
           bind (sleep (2000 * (Z.of_nat retryCount + 1)))
                (fun _ => processSegmentFrom fuel tools video segment
                                             (S retryCount))
         else throw e).
Proof. reflexivity. Qed.

Lemma processSegmentFrom_gives_up segment
      (H : forall n, extraction tools n video segment <> Extracted)
      (more : nat) : forall retryCount fuel w,
  (retryCount + more = maxRetries)%nat ->
  exists m,
    processSegmentFrom (S more + fuel) tools video segment retryCount w
    = (Throw (Error m),
       mkWorld (progressMap w) (clock w + retryWait retryCount more)
               (events w ++ retryTrace segment retryCount more)).
Proof.
  induction more as [|more IH]; intros retryCount fuel w Hcount;
    cbn [Nat.add]; rewrite processSegmentFrom_turn; unfold try_catch at 1;
    destruct (@extractOnce_fails segment retryCount w H) as [m ->].
  - assert (E : (retryCount <? maxRetries)%nat = false)
      by (apply Nat.ltb_ge; lia).
    rewrite E. exists m. unfold throw, record. cbn.
    now rewrite Z.add_0_r.
  - assert (E : (retryCount <? maxRetries)%nat = true)
      by (apply Nat.ltb_lt; lia).
    rewrite E. unfold bind, sleep, modify.
    destruct (IH (S retryCount) fuel
                 (mkWorld (progressMap (record (Attempt video segment retryCount) w))
                    (clock (record (Attempt video segment retryCount) w)
                     + 2000 * (Z.of_nat retryCount + 1))
                    (events (record (Attempt video segment retryCount) w)
                     ++ [Wait (2000 * (Z.of_nat retryCount + 1))])))
      as [m' Hm']; [lia|].
    cbn [Nat.add] in Hm'. rewrite Hm'. exists m'.
    unfold record. cbn. f_equal. f_equal; [lia|].
    now rewrite <- !app_assoc.
Qed.

Lemma processSegment_gives_up segment w :
  (forall n, extraction tools n video segment <> Extracted) ->
  exists m,
    processSegment tools video segment w
    = (Throw (Error m),
       mkWorld (progressMap w) (clock w + 12000)
               (events w ++ givingUp segment)).
Proof.
  intros H.
  destruct (@processSegmentFrom_gives_up segment H 3%nat 0%nat 0%nat w eq_refl)
    as [m Hm].
  exists m. exact Hm.
Qed.

Lemma processSegment_extracted segment w :
  extraction tools (attemptsSoFar w) video segment = Extracted ->
  processSegment tools video segment w
  = (Ret tt, record (Attempt video segment 0) w).
Proof.
  intros H. unfold processSegment, maxRetries.
  cbn [processSegmentFrom]. unfold try_catch, extractOnce. now rewrite H.
Qed.

Variable progressId : jsstring.
Variable total : nat.

(** The loop over the segments, when those of [pre] are extracted at
    once and [s] never is: it stops at [s] with an exception, and the
    job record then names the position of [s]. *)
Lemma segmentsLoop_stops_at s post pre : forall i w current,
  jobRecord progressId w = Some current ->
  (forall n x, In x pre -> extraction tools n video x = Extracted) ->
  (forall n, extraction tools n video s <> Extracted) ->
  exists w' p m,
    segmentsLoop tools video progressId total (pre ++ s :: post) i w
    = (Throw (Error m), w')
    /\ jobRecord progressId w' = Some p
    /\ status p = status current
    /\ currentSegment p = Some (i + List.length pre + 1)%nat
    /\ events w'
       = events w ++ List.map (fun x => Attempt video x 0) pre ++ givingUp s.
Proof.
  induction pre as [|x pre IH]; intros i w current Hjob Hpre Hs.
  - cbn [app segmentsLoop]. unfold bind at 1.
    destruct (@updateProgress_spec progressId
                (mkUpdate None None
                   (Some (Math_round (of_nat i / of_nat total * 100)))
                   (Some (i + 1)%nat) None None None None) w current Hjob)
      as (w1 & -> & Hjob1 & Hclock1 & Hevents1).
    unfold bind at 1.
    destruct (@processSegment_gives_up s w1 Hs) as [m ->].
    eexists _, _, m. split; [reflexivity|].
    unfold jobRecord in *. cbn. rewrite Hjob1, Hevents1.
    repeat split. cbn. f_equal. lia.
  - cbn [app segmentsLoop]. unfold bind at 1.
    destruct (@updateProgress_spec progressId
                (mkUpdate None None
                   (Some (Math_round (of_nat i / of_nat total * 100)))
                   (Some (i + 1)%nat) None None None None) w current Hjob)
      as (w1 & -> & Hjob1 & Hclock1 & Hevents1).
    unfold bind at 1.
    rewrite processSegment_extracted by (apply Hpre; now left).
    destruct (IH (S i) (record (Attempt video x 0) w1)
                 (applyUpdate current
                    (mkUpdate None None
                       (Some (Math_round (of_nat i / of_nat total * 100)))
                       (Some (i + 1)%nat) None None None None)))
      as (w' & p & m & -> & Hjob' & Hstatus & Hcurrent & Hevents').
    + exact Hjob1.
    + intros n y Hy. apply Hpre. now right.
    + exact Hs.
    + exists w', p, m. split; [reflexivity|].
      split; [exact Hjob'|]. split; [exact Hstatus|].
      split.
      * rewrite Hcurrent. cbn. f_equal. lia.
      * rewrite Hevents'. cbn. rewrite Hevents1, <- app_assoc. reflexivity.
Qed.
(** The fuel of [processSegment] is enough: it returns or throws. *)
Lemma processSegmentFrom_has_result segment (fuel : nat) :
  forall retryCount w,
    (maxRetries < fuel + retryCount)%nat -> (retryCount <= maxRetries)%nat ->
    fst (processSegmentFrom fuel tools video segment retryCount w) <> NoResult.
Proof.
  induction fuel as [|fuel IH]; intros retryCount w Hfuel Hcount; [lia|].
  rewrite processSegmentFrom_turn. unfold try_catch, extractOnce.
  destruct (extraction tools _ video segment); cbn [fst]; try discriminate;
    (destruct (retryCount <? maxRetries)%nat eqn:E;
     [ apply Nat.ltb_lt in E; unfold bind, sleep, modify; apply IH; lia
     | unfold throw; cbn; discriminate ]).
Qed.

Lemma segmentsLoop_has_result remaining : forall i w,
  fst (segmentsLoop tools video progressId total remaining i w) <> NoResult.
Proof.
  induction remaining as [|segment remaining IH]; intros i w;
    cbn [segmentsLoop]; [discriminate|].
  unfold bind at 1, updateProgress at 1, modify at 1. unfold bind at 1.
  match goal with
  | |- context [processSegment tools video segment ?w1] =>
      pose proof (@processSegmentFrom_has_result segment (S maxRetries)
                    0%nat w1 ltac:(lia) ltac:(lia)) as H;
      fold (processSegment tools video segment) in H;
      destruct (processSegment tools video segment w1) as [[[]|e|] w2]
  end; cbn [fst] in *; try discriminate; [apply IH | congruence].
Qed.

End Orchestrator.

(** A tool that rejects every call, a segment, and a fresh service. *)
Definition failingTools : VideoProcessingService.Tools :=
  VideoProcessingService.mkTools
    (fun _ _ _ => VideoProcessingService.Rejected (Error (js "boom")))
    (fun _ => None).

Definition one_segment : VideoSegment :=
  mkSegment (js "1") 0 6 (js "Ciao, come stai") (Some []) (Some []) (Some []).

Definition freshWorld (time : Z) : VideoProcessingService.World :=
  VideoProcessingService.mkWorld [] time [].

(** C2, as stated, does not hold: with a tool that always fails the
    orchestrator attempts the extraction of the segment four times, not
    three. *)
Lemma C2_not_three_attempts :
  let w' := snd (VideoProcessingService.processSegments
                   failingTools (js "abc") [one_segment] (freshWorld 1000)) in
  VideoProcessingService.attemptsSoFar w' = 4%nat
  /\ VideoProcessingService.attemptsSoFar w' <> 3%nat.
Proof.
  split; vm_compute; [reflexivity | discriminate].
Qed.

Section RetryBound.
Import Effects VideoProcessingService.

(** C2, amended: when the directories exist, the segments before [s]
    are extracted at the first try and the extraction of [s] fails on
    every invocation, the orchestrator attempts [s] exactly four times
    (the first try and [maxRetries] = 3 retries), waiting 2, 4 and 6
    seconds (retry number times 2 seconds) between the attempts; it
    then gives up, no later segment is attempted, and the record of
    the job has status [failed] and [currentSegment] equal to the
    1-based position of [s]. *)
Theorem C2_four_attempts_then_failed
        (tools : Tools) (video : jsstring)
        (pre : list VideoSegment) (s : VideoSegment)
        (post : list VideoSegment) (w : World) :
  mkdir tools AudioDir = None ->
  mkdir tools VideoDir = None ->
  (forall n x, In x pre -> extraction tools n video x = Extracted) ->
  (forall n, extraction tools n video s <> Extracted) ->
  exists (w' : World) (p : ProcessingProgress),
    processSegments tools video (pre ++ s :: post) w = (Ret tt, w')
    /\ events w'
       = events w ++ List.map (fun x => Attempt video x 0) pre
         ++ [ Attempt video s 0; Wait 2000;
              Attempt video s 1; Wait 4000;
              Attempt video s 2; Wait 6000;
              Attempt video s 3 ]
    /\ map_get (video ++ js "_" ++ int_to_string (clock w)) (progressMap w')
       = Some p
    /\ status p = failed
    /\ currentSegment p = Some (List.length pre + 1)%nat.
Proof.
  intros Haudio Hvideo Hpre Hs.
  set (progressId := video ++ js "_" ++ int_to_string (clock w)).
  unfold processSegments. unfold bind at 1, now at 1.
  fold progressId. unfold bind at 1, modify at 1.
  set (w0 := mkWorld _ (clock w) (events w)).
  assert (Hjob0 : jobRecord progressId w0 = Some
                    (mkProgress video pending 0 None
                       (Some (List.length (pre ++ s :: post))) None
                       (Some (clock w)) None))
    by apply map_get_set.
  unfold try_catch. unfold bind at 1, ensureDirectories.
  rewrite Haudio, Hvideo. unfold bind at 1.
  destruct (@updateProgress_spec progressId
              (mkUpdate None (Some processing) None None None None None None)
              w0 _ Hjob0)
    as (w1 & -> & Hjob1 & Hclock1 & Hevents1).
  unfold bind at 1.
  destruct (@segmentsLoop_stops_at tools video progressId
              (List.length (pre ++ s :: post)) s post pre 0%nat w1 _
              Hjob1 Hpre Hs)
    as (w2 & p2 & m & -> & Hjob2 & Hstatus2 & Hcurrent2 & Hevents2).
  destruct (@updateProgress_spec progressId
              (mkUpdate None (Some failed) None None None
                 (Some (messageOr "Unknown error" (Error m))) None None)
              w2 p2 Hjob2)
    as (w3 & -> & Hjob3 & Hclock3 & Hevents3).
  exists w3, (applyUpdate p2
                (mkUpdate None (Some failed) None None None
                   (Some (messageOr "Unknown error" (Error m))) None None)).
  split; [reflexivity|]. split.
  - rewrite Hevents3, Hevents2, Hevents1. reflexivity.
  - split; [exact Hjob3|]. split; [reflexivity|]. exact Hcurrent2.
Qed.

Lemma C2_four_attempts_then_failed_witness :
  exists (w' : World) (p : ProcessingProgress),
    processSegments failingTools (js "abc") [one_segment] (freshWorld 1000)
    = (Ret tt, w')
    /\ events w'
       = [ Attempt (js "abc") one_segment 0; Wait 2000;
           Attempt (js "abc") one_segment 1; Wait 4000;
           Attempt (js "abc") one_segment 2; Wait 6000;
           Attempt (js "abc") one_segment 3 ]
    /\ map_get (js "abc_1000") (progressMap w') = Some p
    /\ status p = failed
    /\ currentSegment p = Some 1%nat.
Proof.
  apply (@C2_four_attempts_then_failed failingTools (js "abc") []
           one_segment [] (freshWorld 1000)).
  - reflexivity.
  - reflexivity.
  - intros n x [].
  - intros n. discriminate.
Defined.
End RetryBound.

(** ** The progress query *)

Section ProgressQuery.
Import Effects VideoProcessingService.

(** [getProgress] answers with the first entry, in insertion order,
    whose [videoId] is the one asked for. *)
Lemma findProgress_first (video : jsstring) (m : ProgressMap)
      (p : ProcessingProgress) :
  findProgress video m = Some p <->
  exists before key after,
    m = before ++ (key, p) :: after
    /\ str_eqb (videoId p) video = true
    /\ Forall (fun kv => str_eqb (videoId (snd kv)) video = false) before.
Proof.
  induction m as [|[k v] m IH]; cbn.
  - split; [discriminate|].
    intros (before & key & after & E & _). now destruct before.
  - destruct (str_eqb (videoId v) video) eqn:E.
    + split.
      * intros H. injection H as <-. exists [], k, m. now repeat split.
      * intros ([|[k' v'] before] & key & after & Em & Ep & Hb).
        -- now injection Em as -> <- ->.
        -- injection Em as -> -> ->. inversion Hb as [|? ? Hv _]; subst.
           cbn in Hv. congruence.
    + rewrite IH. split.
      * intros (before & key & after & -> & Ep & Hb).
        exists ((k, v) :: before), key, after. repeat split; auto.
      * intros ([|[k' v'] before] & key & after & Em & Ep & Hb).
        -- injection Em as -> -> ->. congruence.
        -- injection Em as -> -> ->. inversion Hb; subst.
           now exists before, key, after.
Qed.

(** It answers [null] exactly when no entry is for that video. *)
Lemma findProgress_none (video : jsstring) (m : ProgressMap) :
  findProgress video m = None <->
  Forall (fun kv => str_eqb (videoId (snd kv)) video = false) m.
Proof.
  induction m as [|[k v] m IH]; cbn.
  - split; [constructor | reflexivity].
  - destruct (str_eqb (videoId v) video) eqn:E.
    + split; [discriminate|]. intros H. inversion H; subst. cbn in *. congruence.
    + rewrite IH. split.
      * intros H. now constructor.
      * intros H. now inversion H.
Qed.

(** A tool that extracts at its first call and rejects every later
    one. *)
Definition flakyTools : Tools :=
  mkTools (fun n _ _ => match n with
                        | O => Extracted
                        | S _ => Rejected (Error (js "boom"))
                        end)
          (fun _ => None).

(** Two jobs for the video [abc]: the first starts at time 1000 and
    completes, the second starts at time 2000 and fails. *)
Definition afterFirstJob : World :=
  snd (processSegments flakyTools (js "abc") [one_segment] (freshWorld 1000)).

Definition afterSecondJob : World :=
  snd (processSegments flakyTools (js "abc") [one_segment]
         (mkWorld (progressMap afterFirstJob) 2000 (events afterFirstJob))).

(** C7, where the code departs from it: after the two jobs the store
    holds the record of each, that of the second job written last;
    [getProgress] answers with the record of the first job. *)
Theorem C7_getProgress_answers_first_job :
  exists (first second : ProcessingProgress),
    progressMap afterSecondJob
    = [ (js "abc_1000", first); (js "abc_2000", second) ]
    /\ status first = completed /\ jobStartTime first = Some 1000%Z
    /\ status second = failed /\ jobStartTime second = Some 2000%Z
    /\ fst (getProgress (js "abc") afterSecondJob) = Ret (Some first)
    /\ fst (getProgress (js "xyz") afterSecondJob) = Ret None.
Proof.
  eexists _, _. split; [vm_compute; reflexivity|].
  repeat split.
Qed.
End ProgressQuery.

(** ** The pipeline facade *)

Section Facade.
Import Effects VideoProcessingService VideoService.

(** Collaborators that all answer, around a tool that always fails. *)
Definition mockCollaborators : Collaborators :=
  mkCollaborators
    (fun _ => inl (mkMetadata (js "Italian Conversation Practice")
                              [] 300 (js "thumbnail.jpg") [] []))
    (fun _ _ =>
       inl (js "Ciao, come stai? Sono molto felice di vederti oggi."))
    (fun _ _ _ => inl (js "Hello"))
    failingTools
    None
    (fun _ => js "n").

Definition ciao_request : VideoProcessingRequest :=
  mkRequest (js "https://youtu.be/abc") None (Some true).

Definition ciao_run : Res VideoProcessingResponse * World :=
  processVideo mockCollaborators 5 ciao_request (freshWorld 1000).

(** C3, where the code departs from it: the extraction of the only
    segment fails after its retries are exhausted and the job is
    marked [failed], yet [processVideo] returns a success result that
    carries the segment. *)
Theorem C3_extraction_failure_is_swallowed :
  exists (response : VideoProcessingResponse) (d : ResponseData)
         (job : ProcessingProgress),
    fst ciao_run = Ret response
    /\ success response = true
    /\ data response = Some d
    /\ List.map text (data_segments d)
       = [js "Ciao, come stai Sono molto felice di vederti oggi"]
    /\ attemptsSoFar (snd ciao_run) = 4%nat
    /\ map_get (js "abc_1000") (progressMap (snd ciao_run)) = Some job
    /\ status job = failed.
Proof.
  eexists _, _, _.
  split; [vm_compute; reflexivity|].
  split; [reflexivity|].
  split; [reflexivity|].
  split; [vm_compute; reflexivity|].
  split; [vm_compute; reflexivity|].
  split; [vm_compute; reflexivity|].
  reflexivity.
Qed.

(** Whatever the tools do, [processSegments] returns normally: its
    own [catch] keeps every exception from its caller. *)
Lemma processSegments_returns (t : Tools) (video : jsstring)
      (segments : list VideoSegment) (w : World) :
  exists w', processSegments t video segments w = (Ret tt, w').
Proof.
  unfold processSegments, bind at 1, now, bind at 1, modify at 1.
  unfold try_catch. unfold bind at 1, ensureDirectories.
  destruct (mkdir t AudioDir); [eexists; reflexivity|].
  destruct (mkdir t VideoDir); [eexists; reflexivity|].
  unfold bind at 1, updateProgress at 1, modify at 1. unfold bind at 1.
  match goal with
  | |- context [segmentsLoop t video ?pid ?n segments 0 ?w1] =>
      pose proof (@segmentsLoop_has_result t video pid n segments 0%nat w1) as H;
      destruct (segmentsLoop t video pid n segments 0 w1) as [[[]|e|] w2]
  end; cbn [fst] in H; try congruence; eexists; reflexivity.
Qed.

(** A segment with the translation the service gave, or with the
    failure marker when the service rejected the call. *)
Definition translated (c : Collaborators) (s : VideoSegment) : VideoSegment :=
  mkSegment (id s) (startTime s) (endTime s) (text s)
            (Some (match translate c (text s) (js "it") (js "en") with
                   | inl t => t
                   | inr _ => js "[Translation failed]"
                   end))
            (audioUrl s) (videoUrl s).

(** A failed translation is absorbed: the loop never throws, and puts
    the marker where the service failed. *)
Lemma translateAll_absorbs_failures (c : Collaborators)
      (segments : list VideoSegment) (w : World) :
  translateAll c segments w = (Ret (List.map (translated c) segments), w).
Proof.
  induction segments as [|s segments IH]; cbn [translateAll List.map].
  - reflexivity.
  - unfold bind at 1, try_catch, await, translated.
    destruct (translate c (text s) (js "it") (js "en")) as [t|e];
      unfold ret at 1, throw; unfold bind at 1; rewrite IH; reflexivity.
Qed.

Lemma translateAll_never_throws (c : Collaborators)
      (segments : list VideoSegment) (w : World) :
  exists out, translateAll c segments w = (Ret out, w)
              /\ List.length out = List.length segments.
Proof.
  exists (List.map (translated c) segments).
  split; [apply translateAll_absorbs_failures | apply length_map].
Qed.

(** Once the source is resolved, the provider has answered and the
    segments are built, [processVideo] returns a success result: what
    the extraction tools do has no part in it. *)
Lemma processVideo_succeeds_whatever_the_tools
      (c : Collaborators) (fuel : nat) (request : VideoProcessingRequest)
      (w : World) (video : jsstring) (metadata : VideoMetadata)
      (captions : jsstring) (captionData : list CaptionData)
      (segments : list VideoSegment) :
  extractVideoId (req_videoUrl request) = Some video ->
  getVideoMetadata c video = inl metadata ->
  extractCaptions c video (js "it") = inl captions ->
  CaptionProcessor.parseCaptions captions = Some captionData ->
  CaptionProcessor.createSegments fuel captionData
    (mkPartial (Some (segmentDurationOr8 (req_segmentDuration request)))
               (Some 1) None None None None) = Some segments ->
  exists response w',
    processVideo c fuel request w = (Ret response, w')
    /\ success response = true.
Proof.
  intros Hid Hmeta Hcaptions Hparse Hsegments.
  unfold processVideo, try_catch.
  rewrite Hid. unfold bind at 1, ret at 1.
  rewrite Hmeta. unfold bind at 1, await at 1, ret at 1.
  rewrite Hcaptions. unfold bind at 1, await at 1, ret at 1.
  rewrite Hparse. unfold bind at 1, lift_option at 1, ret at 1.
  rewrite Hsegments. unfold bind at 1, lift_option at 1, ret at 1.
  unfold bind at 1.
  assert (Htr : exists out,
             (if or_default false (req_includeTranslation request)
              then translateAll c segments else ret segments) w
             = (Ret out, w)).
  { destruct (or_default false (req_includeTranslation request)).
    - destruct (translateAll_never_throws c segments w) as (out & E & _).
      now exists out.
    - now exists segments. }
  destruct Htr as (out & ->).
  unfold bind at 1.
  destruct (processSegments_returns (tools c) video out w) as (w' & ->).
  unfold ret. eexists _, w'. split; reflexivity.
Qed.

End Facade.

(** ** The caption parsers *)

Section Parsers.
Import CaptionProcessor NumberParsing.

Definition LF : jsstring := [NEWLINE].

(** Three blocks: a non-speech annotation, a block whose end is
    before its start, and a spoken line. *)
Definition music_srt : jsstring :=
  js "1" ++ LF ++ js "00:00:01,000 --> 00:00:04,000" ++ LF
     ++ js "[Music]" ++ LF ++ LF
  ++ js "2" ++ LF ++ js "00:00:05,000 --> 00:00:04,500" ++ LF
     ++ js "Ciao" ++ LF ++ LF
  ++ js "3" ++ LF ++ js "00:00:06,000 --> 00:00:08,250" ++ LF
     ++ js "Come" ++ LF ++ js "stai?" ++ LF.

(** The same three captions as paragraphs. *)
Definition music_ttml : jsstring :=
  js "<tt><p begin=" ++ [QUOTE] ++ js "00:00:01.000" ++ [QUOTE]
     ++ js " end=" ++ [QUOTE] ++ js "00:00:04.000" ++ [QUOTE]
     ++ js ">[Music]</p>"
  ++ js "<p begin=" ++ [QUOTE] ++ js "00:00:05.000" ++ [QUOTE]
     ++ js " end=" ++ [QUOTE] ++ js "00:00:04.500" ++ [QUOTE]
     ++ js ">Ciao</p>"
  ++ js "<p begin=" ++ [QUOTE] ++ js "00:00:06.000" ++ [QUOTE]
     ++ js " end=" ++ [QUOTE] ++ js "00:00:08.250" ++ [QUOTE]
     ++ js ">Come <i>stai?</i></p></tt>".

(** C8, where the code departs from it: in the arrow-style format the
    block whose text is only the annotation [[Music]], text that
    [cleanText] empties, is emitted as a caption.  The block with the
    invalid time range is omitted and the spoken block is emitted. *)
Theorem C8_parseSRT_emits_annotation_block :
  exists (c1 c3 : CaptionData),
    parseCaptions music_srt = Some [c1; c3]
    /\ caption_text c1 = js "[Music]"
    /\ cleanText (caption_text c1) = []
    /\ start c1 == 1 /\ end_ c1 == 4
    /\ caption_text c3 = js "Come stai?"
    /\ start c3 == 6 /\ end_ c3 == 8.25.
Proof.
  eexists _, _. split; [vm_compute; reflexivity|].
  repeat split.
Qed.

(** The paragraph-tag parser does drop the annotation block. *)
Lemma parseTTML_drops_annotation_block :
  exists (c3 : CaptionData),
    parseCaptions music_ttml = Some [c3]
    /\ caption_text c3 = js "Come stai?"
    /\ start c3 == 6 /\ end_ c3 == 8.25.
Proof.
  eexists. split; [vm_compute; reflexivity|]. repeat split.
Qed.
(** What both timed parsers guarantee of every caption they emit: a
    text that is not empty, a start that is not negative, and an end
    after the start. *)
Definition validCaption (c : CaptionData) : Prop :=
  caption_text c <> [] /\ 0 <= start c /\ start c < end_ c.

Lemma pushCaption_valid (P : jsstring -> Prop) start_ end' text_ captions out :
  Forall (fun c => validCaption c /\ P (caption_text c)) captions ->
  P text_ ->
  pushCaption start_ end' text_ captions = Some out ->
  Forall (fun c => validCaption c /\ P (caption_text c)) out.
Proof.
  intros Hcaptions HP. unfold pushCaption.
  destruct (truthy text_ && xgeb start_ (Finite 0) && xgtb end' start_) eqn:E.
  - destruct start_ as [s| |]; try discriminate.
    destruct end' as [e| |]; try discriminate.
    intros H. injection H as <-.
    apply andb_true_iff in E. destruct E as [E Hgt].
    apply andb_true_iff in E. destruct E as [Htext Hge].
    apply Forall_app. split; [exact Hcaptions|].
    constructor; [|constructor]. split; [|exact HP].
    repeat split; cbn.
    + intros ->. discriminate.
    + now apply leb_le.
    + now apply ltb_lt.
  - intros H. now injection H as <-.
Qed.

Lemma foldCaptions_invariant {A} (Q : list CaptionData -> Prop)
      (step : A -> list CaptionData -> option (list CaptionData)) :
  (forall x captions out, Q captions -> step x captions = Some out -> Q out) ->
  forall items captions out,
    Q captions -> foldCaptions step items captions = Some out -> Q out.
Proof.
  intros Hstep. induction items as [|x items IH]; intros captions out HQ; cbn.
  - intros H. now injection H as <-.
  - destruct (step x captions) as [captions'|] eqn:E; [|discriminate].
    apply IH. eapply Hstep; eauto.
Qed.

(** The arrow-style parser emits valid captions only; their text is
    the raw text of the block. *)
Lemma parseSRT_valid (srtContent : jsstring) (out : list CaptionData) :
  parseSRT srtContent = Some out -> Forall validCaption out.
Proof.
  intros H.
  assert (Hout : Forall (fun c => validCaption c /\ True) out).
  { revert H. unfold parseSRT.
    apply (foldCaptions_invariant
             (Forall (fun c => validCaption c /\ True))); [|constructor].
    intros block captions out' Hcaptions. unfold srtCaption.
    destruct (3 <=? _)%nat; [|intros E; now injection E as <-].
    destruct (Regex.match_first _ _) as [[|m1 [|m2 [|m3 ms]]]|];
      try (intros E; now injection E as <-).
    intros E.
    eapply (@pushCaption_valid (fun _ => True));
      [exact Hcaptions | exact I | exact E]. }
  eapply Forall_impl; [|exact Hout]. now intros c [Hc _].
Qed.

(** The paragraph-tag parser emits valid captions only, and their text
    is a result of [cleanText]: a paragraph whose text is empty after
    cleaning is never emitted. *)
Lemma parseTTML_valid (ttmlContent : jsstring) (out : list CaptionData) :
  parseTTML ttmlContent = Some out ->
  Forall (fun c => validCaption c
                   /\ exists raw, caption_text c = cleanText raw) out.
Proof.
  unfold parseTTML.
  apply (foldCaptions_invariant
           (Forall (fun c => validCaption c
                             /\ exists raw, caption_text c = cleanText raw)));
    [|constructor].
  intros groups captions out' Hcaptions. unfold ttmlCaption.
  destruct groups as [|m1 [|m2 [|m3 [|m4 ms]]]];
    try (intros E; now injection E as <-).
  intros E.
  eapply (@pushCaption_valid (fun t => exists raw, t = cleanText raw));
    [exact Hcaptions | now exists m3 | exact E].
Qed.

End Parsers.

(** ** Splitting and trimming *)

Section SplitFacts.
Variable p : char -> bool.

(** A string whose first, resp. last, unit is outside the class. *)
Definition starts_outside (s : jsstring) : Prop :=
  exists c r, s = c :: r /\ p c = false.

Definition ends_outside (s : jsstring) : Prop :=
  exists r c, s = r ++ [c] /\ p c = false.

Definition all_outside (s : jsstring) : Prop :=
  Forall (fun c => p c = false) s.

Definition all_inside (s : jsstring) : Prop :=
  Forall (fun c => p c = true) s.

Lemma split_from_flag s :
  s = [] \/ starts_outside s ->
  splitScan p true s = splitScan p false s.
Proof.
  intros [-> | (c & r & -> & Hc)]; cbn; [reflexivity|]. now rewrite Hc.
Qed.

(** A run of the class separates what precedes from what follows. *)
Lemma split_from_run run rest :
  all_inside run -> run <> [] -> rest = [] \/ starts_outside rest ->
  splitScan p false (run ++ rest) = [] :: splitScan p false rest
  /\ splitScan p true (run ++ rest) = splitScan p false rest.
Proof.
  intros Hrun Hne Hrest.
  assert (Htrue : forall run', all_inside run' ->
             splitScan p true (run' ++ rest) = splitScan p false rest).
  { induction run' as [|c run' IH]; intros H; cbn.
    - now apply split_from_flag.
    - inversion H as [|? ? Hc H']; subst. rewrite Hc. now apply IH. }
  split; [|now apply Htrue].
  destruct run as [|c run]; [congruence|].
  inversion Hrun as [|? ? Hc H']; subst. cbn. rewrite Hc.
  f_equal. now apply Htrue.
Qed.

(** The piece before the first run is what stands before it. *)
Lemma split_from_piece body run rest in_run :
  all_outside body -> body <> [] ->
  all_inside run -> run <> [] -> rest = [] \/ starts_outside rest ->
  splitScan p in_run (body ++ run ++ rest)
  = body :: splitScan p false rest.
Proof.
  intros Hbody Hne Hrun Hrne Hrest. revert in_run.
  induction body as [|c body IH]; [congruence|]; intros in_run.
  inversion Hbody as [|? ? Hc Hbody']; subst.
  cbn. rewrite Hc.
  destruct body as [|c' body'].
  - cbn [app]. destruct (split_from_run Hrun Hrne Hrest) as [-> _].
    reflexivity.
  - rewrite (IH Hbody') by discriminate. reflexivity.
Qed.

(** A string of units outside the class is one piece. *)
Lemma split_from_one_piece body in_run :
  all_outside body -> body <> [] ->
  splitScan p in_run body = [body].
Proof.
  intros Hbody Hne. revert in_run.
  induction body as [|c body IH]; [congruence|]; intros in_run.
  inversion Hbody as [|? ? Hc Hbody']; subst. cbn. rewrite Hc.
  destruct body as [|c' body']; [reflexivity|].
  rewrite (IH Hbody') by discriminate. reflexivity.
Qed.

(** Pieces on both sides of a run add up. *)
Lemma split_from_app x run y : forall in_run,
  ends_outside x -> all_inside run -> run <> [] -> starts_outside y ->
  splitScan p in_run (x ++ run ++ y)
  = splitScan p in_run x ++ splitScan p false y.
Proof.
  intros in_run (r & c & -> & Hc) Hrun Hrne Hy. revert in_run.
  induction r as [|d r IH]; intros in_run.
  - cbn. rewrite Hc.
    destruct (split_from_run Hrun Hrne (or_intror Hy)) as [-> _].
    reflexivity.
  - cbn [app]. cbn [splitScan]. destruct (p d).
    + destruct in_run; rewrite IH; reflexivity.
    + rewrite IH.
      destruct (splitScan p false (r ++ [c])) eqn:E.
      * now apply splitScan_not_nil in E.
      * reflexivity.
Qed.

(** Units outside the class after a unit outside the class stay in
    the last piece. *)
Lemma split_from_tail_length x tail : forall in_run,
  ends_outside x -> all_outside tail ->
  List.length (splitScan p in_run (x ++ tail))
  = List.length (splitScan p in_run x).
Proof.
  intros in_run (r & c & -> & Hc) Htail. revert in_run.
  induction r as [|d r IH]; intros in_run.
  - cbn. rewrite Hc.
    destruct tail as [|t tail]; [reflexivity|].
    rewrite (@split_from_one_piece (t :: tail) false Htail) by discriminate.
    reflexivity.
  - cbn [app]. cbn [splitScan]. destruct (p d).
    + destruct in_run; cbn; now rewrite IH.
    + specialize (IH false).
      destruct (splitScan p false ((r ++ [c]) ++ tail)) eqn:E1;
        [now apply splitScan_not_nil in E1|].
      destruct (splitScan p false (r ++ [c])) eqn:E2;
        [now apply splitScan_not_nil in E2|].
      cbn in *. exact IH.
Qed.
End SplitFacts.

(** ** Words and sentences *)

Section Sentences.
Import SegmentBuilder.

(** A word: a non-empty string without white space and without
    sentence punctuation. *)
Definition plainWord (w : jsstring) : Prop :=
  w <> [] /\ Forall (fun c => is_space c = false
                              /\ is_sentence_end c = false) w.

(** Sentence punctuation: a non-empty run of [.], [!] and [?]. *)
Definition stopRun (t : jsstring) : Prop :=
  t <> [] /\ all_inside is_sentence_end t.

(** A sentence of [n] words, without its punctuation. *)
Definition sentenceOf (n : nat) (words : list jsstring) : Prop :=
  List.length words = n /\ Forall plainWord words.

Lemma stop_not_space c : is_sentence_end c = true -> is_space c = false.
Proof.
  unfold is_sentence_end. rewrite !orb_true_iff, !N.eqb_eq.
  intros [[-> | ->] | ->]; reflexivity.
Qed.

Lemma trim_tight s :
  starts_outside is_space s -> ends_outside is_space s -> trim s = s.
Proof.
  intros (c & r & E & Hc) (r' & c' & E' & Hc'). unfold trim.
  assert (H : drop_while is_space s = s)
    by (rewrite E; cbn; now rewrite Hc).
  rewrite H, E', rev_app_distr. cbn. rewrite Hc'. cbn.
  now rewrite rev_involutive.
Qed.

Lemma trim_leading_space s : trim (SP :: s) = trim s.
Proof. reflexivity. Qed.

Lemma plainWord_outside w :
  plainWord w ->
  all_outside is_space w /\ all_outside is_sentence_end w
  /\ starts_outside is_space w /\ ends_outside is_space w.
Proof.
  intros [Hne H].
  assert (Hs : all_outside is_space w)
    by (eapply Forall_impl; [|exact H]; now intros c [? ?]).
  assert (Ht : all_outside is_sentence_end w)
    by (eapply Forall_impl; [|exact H]; now intros c [? ?]).
  repeat split; auto.
  - destruct w as [|c r]; [congruence|]. exists c, r. split; [reflexivity|].
    now inversion Hs.
  - destruct (exists_last Hne) as (r & c & ->). exists r, c.
    split; [reflexivity|].
    apply Forall_app in Hs. destruct Hs as [_ Hs]. now inversion Hs.
Qed.

(** The words of a sentence, joined by single spaces. *)
Lemma join_words words :
  words <> [] -> Forall plainWord words ->
  let body := join [SP] words in
  starts_outside is_space body /\ ends_outside is_space body
  /\ all_outside is_sentence_end body
  /\ wordCount body = List.length words.
Proof.
  induction words as [|w words IH]; [congruence|].
  intros _ Hall. inversion Hall as [|? ? Hw Hwords]; subst.
  destruct (plainWord_outside Hw) as (Hsp & Hst & Hstart & Hend).
  destruct words as [|w' words'].
  - cbv zeta. cbn [join List.length]. repeat split; auto.
    unfold wordCount, split_spaces. rewrite ?split_on_scan.
    rewrite split_from_one_piece; auto. apply Hw.
  - destruct (IH ltac:(discriminate) Hwords) as (Hs' & He' & Ht' & Hc').
    change (join [SP] (w :: w' :: words'))
      with (w ++ [SP] ++ join [SP] (w' :: words')).
    cbv zeta. repeat split.
    + destruct Hstart as (c & r & -> & Hc). now exists c, (r ++ [SP] ++ join [SP] (w' :: words')).
    + destruct He' as (r & c & E & Hc). exists (w ++ [SP] ++ r), c.
      split; [|exact Hc]. rewrite E, <- !app_assoc. reflexivity.
    + apply Forall_app. split; [exact Hst|].
      apply Forall_app. split; [|exact Ht']. now constructor.
    + unfold wordCount, split_spaces in *. rewrite ?split_on_scan in *.
      rewrite split_from_app; auto.
      * rewrite length_app, Hc'.
        rewrite split_from_one_piece; auto. apply Hw.
      * now constructor.
      * discriminate.
Qed.
End Sentences.

Section SentenceBoundary.
Import SegmentBuilder.

Lemma wordCount_app x y :
  ends_outside is_space x -> starts_outside is_space y ->
  wordCount (x ++ [SP] ++ y) = (wordCount x + wordCount y)%nat.
Proof.
  intros Hx Hy. unfold wordCount, split_spaces. rewrite ?split_on_scan.
  rewrite split_from_app; auto.
  - apply length_app.
  - now constructor.
  - discriminate.
Qed.

(** A sentence with its punctuation: as many words as it has, and no
    white space at either end. *)
Lemma sentence_with_stop n words t :
  sentenceOf (S n) words -> stopRun t ->
  let s := join [SP] words ++ t in
  wordCount s = S n
  /\ starts_outside is_space s /\ ends_outside is_space s.
Proof.
  intros [Hlen Hwords] [Hne Ht].
  assert (Hnil : words <> []) by (destruct words; [discriminate|discriminate]).
  destruct (join_words Hnil Hwords) as (Hs & He & _ & Hc).
  cbv zeta. repeat split.
  - unfold wordCount, split_spaces in *. rewrite ?split_on_scan in *.
    rewrite split_from_tail_length; [congruence | exact He |].
    eapply Forall_impl; [|exact Ht]. apply stop_not_space.
  - destruct Hs as (c & r & -> & Hc0). now exists c, (r ++ t).
  - destruct (exists_last Hne) as (r & c & ->).
    exists (join [SP] words ++ r), c. split; [now rewrite app_assoc|].
    apply Forall_app in Ht. destruct Ht as [_ Ht].
    inversion Ht; subst. now apply stop_not_space.
Qed.

Lemma truthy_starts p s : starts_outside p s -> truthy s = true.
Proof. now intros (c & r & -> & _). Qed.

Variable opts : SegmentationOptions.
Variables ws1 ws2 ws3 ws4 : list jsstring.
Variables t1 t2 t3 t4 : jsstring.

Let s1 := join [SP] ws1.
Let s2 := join [SP] ws2.
Let s3 := join [SP] ws3.
Let s4 := join [SP] ws4.

(** The four sentences, separated by single spaces. *)
Definition fourSentences : jsstring :=
  s1 ++ t1 ++ [SP] ++ s2 ++ t2 ++ [SP] ++ s3 ++ t3 ++ [SP] ++ s4 ++ t4.

(** The first two sentences, as the loop joins them. *)
Definition firstTwo : jsstring := s1 ++ js ". " ++ s2.

Hypothesis limit20 : maxWordsPerSegment opts = 20.
Hypothesis prefer : preferSentenceBoundaries opts = true.
Hypothesis H1 : sentenceOf 10 ws1.
Hypothesis H2 : sentenceOf 10 ws2.
Hypothesis H3 : sentenceOf 10 ws3.
Hypothesis H4 : sentenceOf 10 ws4.
Hypothesis T1 : stopRun t1.
Hypothesis T2 : stopRun t2.
Hypothesis T3 : stopRun t3.
Hypothesis T4 : stopRun t4.

Lemma sentence_facts words :
  sentenceOf 10 words ->
  let s := join [SP] words in
  starts_outside is_space s /\ ends_outside is_space s
  /\ all_outside is_sentence_end s /\ wordCount s = 10%nat
  /\ trim s = s /\ trim (SP :: s) = s /\ truthy s = true.
Proof.
  intros [Hlen Hwords].
  assert (Hnil : words <> []) by (destruct words; discriminate).
  destruct (join_words Hnil Hwords) as (Hs & He & Ht & Hc).
  cbv zeta. repeat split; auto.
  - congruence.
  - now apply trim_tight.
  - rewrite trim_leading_space. now apply trim_tight.
  - exact (truthy_starts Hs).
Qed.

Lemma fourSentences_words : wordCount fourSentences = 40%nat.
Proof.
  destruct (sentence_with_stop H1 T1) as (C1 & S1 & E1).
  destruct (sentence_with_stop H2 T2) as (C2 & S2 & E2).
  destruct (sentence_with_stop H3 T3) as (C3 & S3 & E3).
  destruct (sentence_with_stop H4 T4) as (C4 & S4 & E4).
  unfold fourSentences.
  replace (s1 ++ t1 ++ [SP] ++ s2 ++ t2 ++ [SP] ++ s3 ++ t3 ++ [SP] ++ s4 ++ t4)
    with ((s1 ++ t1) ++ [SP] ++ (s2 ++ t2) ++ [SP] ++ (s3 ++ t3) ++ [SP]
          ++ (s4 ++ t4))
    by (now rewrite <- !app_assoc).
  assert (S34 : starts_outside is_space ((s3 ++ t3) ++ [SP] ++ s4 ++ t4)).
  { destruct S3 as (c & r & E & Hc). unfold s3. rewrite E.
    now exists c, (r ++ [SP] ++ s4 ++ t4). }
  assert (S234 : starts_outside is_space
                   ((s2 ++ t2) ++ [SP] ++ (s3 ++ t3) ++ [SP] ++ s4 ++ t4)).
  { destruct S2 as (c & r & E & Hc). unfold s2. rewrite E.
    now exists c, (r ++ [SP] ++ (s3 ++ t3) ++ [SP] ++ s4 ++ t4). }
  rewrite !wordCount_app; auto.
  unfold s1, s2, s3, s4. rewrite C1, C2, C3, C4. reflexivity.
Qed.

Lemma fourSentences_split :
  split_sentences fourSentences = [s1; SP :: s2; SP :: s3; SP :: s4; []].
Proof.
  destruct (sentence_facts H1) as (_ & _ & O1 & _ & _ & _ & N1).
  destruct (sentence_facts H2) as (_ & _ & O2 & _).
  destruct (sentence_facts H3) as (_ & _ & O3 & _).
  destruct (sentence_facts H4) as (_ & _ & O4 & _).
  destruct T1 as [N1' I1], T2 as [N2' I2], T3 as [N3' I3], T4 as [N4' I4].
  assert (Hsp : forall s, all_outside is_sentence_end s ->
                          all_outside is_sentence_end (SP :: s))
    by (intros s Hs; now constructor).
  assert (Hst : forall s r, starts_outside is_sentence_end ((SP :: s) ++ r))
    by (intros s r; now exists SP, (s ++ r)).
  assert (E : fourSentences
              = s1 ++ t1 ++ (SP :: s2) ++ t2 ++ (SP :: s3) ++ t3
                ++ (SP :: s4) ++ t4 ++ [])
    by (rewrite app_nil_r; reflexivity).
  assert (N : s1 <> [])
    by (intros E1; unfold s1 in E1; rewrite E1 in N1; discriminate).
  unfold split_sentences. rewrite split_on_scan. rewrite E.
  rewrite (@split_from_piece is_sentence_end s1 t1); auto.
  rewrite (@split_from_piece is_sentence_end (SP :: s2) t2);
    auto; try discriminate.
  rewrite (@split_from_piece is_sentence_end (SP :: s3) t3);
    auto; try discriminate.
  rewrite (@split_from_piece is_sentence_end (SP :: s4) t4 []);
    auto; try discriminate.
Qed.

Lemma firstTwo_words : wordCount firstTwo = 20%nat.
Proof.
  assert (Tdot : stopRun (js ".")).
  { split; [discriminate|]. constructor; [reflexivity|constructor]. }
  destruct (sentence_with_stop H1 Tdot) as (C1 & _ & E1).
  destruct (sentence_facts H2) as (S2 & _ & _ & C2 & _).
  unfold firstTwo.
  change (s1 ++ js ". " ++ s2) with (s1 ++ js "." ++ [SP] ++ s2).
  rewrite app_assoc, wordCount_app; auto.
  unfold s1, s2. now rewrite C1, C2.
Qed.

Lemma limitWords_fourSentences : limitWords opts fourSentences = firstTwo.
Proof.
  destruct (sentence_facts H1) as (_ & _ & _ & C1 & R1 & _ & N1).
  destruct (sentence_facts H2) as (_ & _ & _ & C2 & _ & R2 & N2).
  destruct (sentence_facts H3) as (_ & _ & _ & C3 & _ & R3 & N3).
  unfold limitWords.
  rewrite limit20, prefer, fourSentences_words, fourSentences_split.
  change (ltb 20 (of_nat 40) && true) with true. cbv iota.
  change (1 <? List.length [s1; SP :: s2; SP :: s3; SP :: s4; []])%nat
    with true.
  cbv iota. cbn [takeSentences].
  fold s1 in C1, R1, N1. fold s2 in C2, R2, N2. fold s3 in C3, R3, N3.
  rewrite R1, C1, N1.
  change (leb (of_nat (0 + 10)) 20 && true) with true. cbv iota.
  rewrite R2, C2, N2. cbn [truthy app].
  rewrite N1.
  change (leb (of_nat (0 + 10 + 10)) 20 && true) with true. cbv iota.
  rewrite R3, C3.
  change (leb (of_nat (0 + 10 + 10 + 10)) 20) with false.
  cbn [andb]. fold firstTwo.
  assert (N : truthy firstTwo = true).
  { unfold firstTwo. destruct s1; [discriminate|reflexivity]. }
  now rewrite N.
Qed.

(** The segment of a window whose combined text is the four sentences
    has the first two as its text. *)
Lemma window_keeps_firstTwo audio video c0 rest t n first others seg :
  combineText (first :: others) = fourSentences ->
  windowSegment opts audio video c0 rest t n first others = Some seg ->
  text seg = firstTwo.
Proof.
  intros Hcombined.
  unfold windowSegment. rewrite Hcombined, limitWords_fourSentences.
  destruct (geb _ _); [|discriminate].
  intros H. now injection H as <-.
Qed.
End SentenceBoundary.

(** Ten words, and a caption of four ten-word sentences. *)
Definition dieci : list jsstring :=
  List.map js ["uno"; "due"; "tre"; "quattro"; "cinque";
               "sei"; "sette"; "otto"; "nove"; "dieci"]%string.

Definition quaranta : jsstring :=
  fourSentences dieci dieci dieci dieci (js ".") (js "!") (js "?") (js "...").

Ltac word_facts :=
  repeat match goal with
         | |- sentenceOf _ _ => split; [reflexivity|]
         | |- stopRun _ => split; [discriminate|]
         | |- plainWord _ => split; [discriminate|]
         | |- Forall _ _ => constructor
         | |- all_inside _ _ => constructor
         | |- _ /\ _ => split
         | |- _ = _ => reflexivity
         end.

(** ** Cleaning text twice *)

Section Subsequences.

(** [l1] is [l2] with some units left out. *)
Inductive subseq : jsstring -> jsstring -> Prop :=
| subseq_nil : subseq [] []
| subseq_skip x l1 l2 : subseq l1 l2 -> subseq l1 (x :: l2)
| subseq_keep x l1 l2 : subseq l1 l2 -> subseq (x :: l1) (x :: l2).

Lemma subseq_refl l : subseq l l.
Proof. induction l; now constructor. Qed.

Lemma subseq_trans l1 l2 l3 : subseq l1 l2 -> subseq l2 l3 -> subseq l1 l3.
Proof.
  intros H12 H23. revert l1 H12.
  induction H23 as [|x l2 l3 H23 IH|x l2 l3 H23 IH]; intros l1 H12.
  - exact H12.
  - constructor. now apply IH.
  - inversion H12; subst.
    + constructor. now apply IH.
    + apply subseq_keep. now apply IH.
Qed.

Lemma subseq_nil_l l : subseq [] l.
Proof. induction l; now constructor. Qed.

Lemma subseq_app a b c d : subseq a b -> subseq c d -> subseq (a ++ c) (b ++ d).
Proof.
  intros Hab Hcd. induction Hab; cbn; try now constructor.
  exact Hcd.
Qed.

Lemma subseq_rev a b : subseq a b -> subseq (rev a) (rev b).
Proof.
  intros H. induction H as [|x l1 l2 H IH|x l1 l2 H IH]; cbn.
  - constructor.
  - rewrite <- (app_nil_r (rev l1)). apply subseq_app; [exact IH|].
    apply subseq_nil_l.
  - apply subseq_app; [exact IH|apply subseq_refl].
Qed.

Lemma subseq_In a b x : subseq a b -> In x a -> In x b.
Proof.
  intros H. induction H; cbn; intuition.
Qed.

Lemma subseq_Forall (P : char -> Prop) a b :
  subseq a b -> Forall P b -> Forall P a.
Proof.
  intros H Hb. rewrite Forall_forall in *. intros x Hx.
  apply Hb. eapply subseq_In; eauto.
Qed.

Lemma subseq_drop_while p s : subseq (drop_while p s) s.
Proof.
  induction s as [|c s IH]; cbn; [constructor|].
  destruct (p c); [now constructor | apply subseq_refl].
Qed.

Lemma subseq_trim s : subseq (trim s) s.
Proof.
  unfold trim. rewrite <- (rev_involutive s) at 2.
  apply subseq_rev.
  eapply subseq_trans; [apply subseq_drop_while|].
  apply subseq_rev, subseq_drop_while.
Qed.

Lemma subseq_stripBrackets b s : subseq (stripBracketsFrom b s) s.
Proof.
  revert b. induction s as [|c s IH]; intros b; cbn; [constructor|].
  destruct b; [now constructor|].
  destruct (_ && _); now constructor.
Qed.

Lemma subseq_stripTags b s : subseq (stripTagsFrom b s) s.
Proof.
  revert b. induction s as [|c s IH]; intros b; cbn; [constructor|].
  destruct b; [now constructor|].
  destruct (_ && _); now constructor.
Qed.

(** Whether the unit [c] occurs in [s]. *)
Definition has (c : char) (s : jsstring) : bool := existsb (char_eqb c) s.

Lemma has_In c s : has c s = true <-> In c s.
Proof.
  unfold has. rewrite existsb_exists. unfold char_eqb. split.
  - intros (x & Hx & E). apply N.eqb_eq in E. now subst.
  - intros H. exists c. split; [exact H | apply N.eqb_refl].
Qed.

Lemma has_subseq c a b : subseq a b -> has c b = false -> has c a = false.
Proof.
  intros H Hb. destruct (has c a) eqn:E; [|reflexivity].
  apply has_In in E. apply (@subseq_In a b c H), has_In in E. congruence.
Qed.

(** No [opening] unit of [s] has a [closing] unit after it. *)
Fixpoint pairFree (opening closing : char) (s : jsstring) : bool :=
  match s with
  | [] => true
  | x :: r => negb (char_eqb x opening && has closing r)
              && pairFree opening closing r
  end.

Lemma pairFree_subseq o c a b :
  subseq a b -> pairFree o c b = true -> pairFree o c a = true.
Proof.
  intros H. induction H as [|x l1 l2 H IH|x l1 l2 H IH]; cbn.
  - trivial.
  - rewrite andb_true_iff. intros [_ Hb]. now apply IH.
  - rewrite !andb_true_iff, !negb_true_iff, !andb_false_iff.
    intros [[Hx|Hh] Hb]; (split; [|now apply IH]).
    + now left.
    + right. eapply has_subseq; eauto.
Qed.
End Subsequences.

Section CleanTwice.

Definition noLineTerminator (s : jsstring) : Prop :=
  Forall (fun c => is_line_terminator c = false) s.

Lemma stripTags_fixed s :
  pairFree (ch "<") (ch ">") s = true -> stripTagsFrom false s = s.
Proof.
  induction s as [|c s IH]; cbn; [reflexivity|].
  rewrite andb_true_iff, negb_true_iff. intros [Hc Hs].
  unfold has in Hc. cbn in Hc. rewrite Hc. now rewrite IH.
Qed.

Lemma stripTags_pairFree s : forall b,
  pairFree (ch "<") (ch ">") (stripTagsFrom b s) = true.
Proof.
  induction s as [|c s IH]; intros b; cbn [stripTagsFrom]; [reflexivity|].
  destruct b; [apply IH|].
  destruct (char_eqb c (ch "<") && existsb (char_eqb (ch ">")) s) eqn:E;
    [apply IH|].
  cbn [pairFree]. rewrite IH, andb_true_r, negb_true_iff.
  apply andb_false_iff in E. apply andb_false_iff.
  destruct E as [E|E]; [now left|right].
  eapply has_subseq; [apply subseq_stripTags | exact E].
Qed.

Lemma closesBracket_has s : closesBracket s = true -> has (ch "]") s = true.
Proof.
  induction s as [|c s IH]; [discriminate|].
  cbn [closesBracket]. unfold has. cbn [existsb].
  rewrite (char_eqb_sym (ch "]") c).
  destruct (char_eqb c (ch "]")); [reflexivity|]. cbn [orb].
  destruct (is_line_terminator c); [discriminate | exact IH].
Qed.

Lemma closesBracket_no_break s :
  noLineTerminator s -> closesBracket s = has (ch "]") s.
Proof.
  induction s as [|c s IH]; intros H; [reflexivity|].
  inversion H as [|? ? Hc Hs]; subst.
  cbn [closesBracket]. unfold has. cbn [existsb].
  rewrite (char_eqb_sym (ch "]") c).
  destruct (char_eqb c (ch "]")); [reflexivity|]. cbn [orb].
  rewrite Hc. now apply IH.
Qed.

Lemma stripBrackets_fixed s :
  pairFree (ch "[") (ch "]") s = true -> stripBracketsFrom false s = s.
Proof.
  induction s as [|c s IH]; [reflexivity|].
  cbn [pairFree stripBracketsFrom].
  rewrite andb_true_iff, negb_true_iff. intros [Hc Hs].
  rewrite (IH Hs).
  destruct (char_eqb c (ch "[") && closesBracket s) eqn:E; [|reflexivity].
  apply andb_true_iff in E. destruct E as [E1 E2].
  apply closesBracket_has in E2. rewrite E1, E2 in Hc. discriminate.
Qed.

Lemma stripBrackets_pairFree s :
  noLineTerminator s ->
  forall b, pairFree (ch "[") (ch "]") (stripBracketsFrom b s) = true.
Proof.
  induction s as [|c s IH]; intros H b; cbn [stripBracketsFrom];
    [reflexivity|].
  inversion H as [|? ? Hc Hs]; subst.
  destruct b; [now apply IH|].
  destruct (char_eqb c (ch "[") && closesBracket s) eqn:E;
    [now apply IH|].
  cbn [pairFree]. rewrite (IH Hs), andb_true_r, negb_true_iff.
  apply andb_false_iff in E. apply andb_false_iff.
  destruct E as [E|E]; [now left|right].
  rewrite (closesBracket_no_break Hs) in E.
  eapply has_subseq; [apply subseq_stripBrackets | exact E].
Qed.

Lemma has_collapse c s :
  is_space c = false -> forall b, has c (collapse_from b s) = has c s.
Proof.
  intros Hc. unfold has.
  assert (Hsp : forall x, is_space x = true -> char_eqb c x = false).
  { intros x Hx. unfold char_eqb. destruct (c =? x)%N eqn:E; [|reflexivity].
    apply N.eqb_eq in E. congruence. }
  induction s as [|x s IH]; intros b; cbn; [reflexivity|].
  destruct (is_space x) eqn:Ex.
  - rewrite (Hsp x Ex). cbn.
    destruct b; cbn; [apply IH|].
    rewrite (Hsp SP eq_refl). cbn. apply IH.
  - cbn. now rewrite IH.
Qed.

Lemma pairFree_collapse o c s :
  is_space o = false -> is_space c = false ->
  forall b, pairFree o c s = true ->
            pairFree o c (collapse_from b s) = true.
Proof.
  intros Ho Hc.
  assert (Hsp : forall x, is_space x = true -> char_eqb x o = false).
  { intros x Hx. unfold char_eqb. destruct (x =? o)%N eqn:E; [|reflexivity].
    apply N.eqb_eq in E. congruence. }
  induction s as [|x s IH]; intros b; [reflexivity|].
  cbn [pairFree collapse_from].
  rewrite andb_true_iff. intros [Hx Hs].
  destruct (is_space x) eqn:Ex.
  - destruct b; [now apply IH|].
    cbn [pairFree]. rewrite (Hsp SP eq_refl). cbn [andb negb].
    now apply IH.
  - cbn [pairFree]. rewrite (@has_collapse c s Hc), Hx. cbn [andb].
    now apply IH.
Qed.

(** White space is single spaces only; [in_run] forbids one at the
    start. *)
Fixpoint singleSpaced (in_run : bool) (s : jsstring) : bool :=
  match s with
  | [] => true
  | c :: r =>
      if is_space c
      then negb in_run && char_eqb c SP && singleSpaced true r
      else singleSpaced false r
  end.

Lemma collapse_singleSpaced s : forall b,
  singleSpaced b (collapse_from b s) = true.
Proof.
  induction s as [|c s IH]; intros b; cbn; [reflexivity|].
  destruct (is_space c) eqn:Ec.
  - destruct b; [apply IH|]. cbn. apply IH.
  - cbn. rewrite Ec. apply IH.
Qed.

Lemma collapse_fixed s : forall b,
  singleSpaced b s = true -> collapse_from b s = s.
Proof.
  induction s as [|c s IH]; intros b; cbn; [reflexivity|].
  destruct (is_space c) eqn:Ec.
  - rewrite !andb_true_iff, negb_true_iff. intros [[-> Hc] Hs].
    apply N.eqb_eq in Hc. subst c. now rewrite (IH true Hs).
  - intros Hs. now rewrite (IH false Hs).
Qed.

Lemma singleSpaced_weaken s : singleSpaced true s = true ->
                              singleSpaced false s = true.
Proof.
  destruct s as [|c s]; cbn; [trivial|].
  destruct (is_space c); [discriminate | trivial].
Qed.

Lemma singleSpaced_suffix a s : forall b,
  singleSpaced b (a ++ s) = true -> singleSpaced false s = true.
Proof.
  induction a as [|c a IH]; intros b; cbn.
  - destruct b; [apply singleSpaced_weaken | trivial].
  - destruct (is_space c).
    + rewrite !andb_true_iff. intros [_ H]. now apply (IH true).
    + apply IH.
Qed.

Lemma singleSpaced_prefix s a : forall b,
  singleSpaced b (s ++ a) = true -> singleSpaced b s = true.
Proof.
  induction s as [|c s IH]; intros b; cbn; [reflexivity|].
  destruct (is_space c).
  - rewrite !andb_true_iff. intros [H1 H2]. split; [exact H1|].
    now apply IH.
  - apply IH.
Qed.

Lemma trim_infix s : exists a b, s = a ++ trim s ++ b.
Proof.
  unfold trim.
  destruct (drop_while_suffix is_space s) as (a & Ea).
  destruct (drop_while_suffix is_space (rev (drop_while is_space s)))
    as (b & Eb).
  exists a, (rev b).
  rewrite <- rev_app_distr, <- Eb, rev_involutive. exact Ea.
Qed.

Lemma drop_while_last p s d :
  p d = false -> drop_while p (s ++ [d]) = drop_while p s ++ [d].
Proof.
  intros Hd. induction s as [|c s IH]; cbn.
  - now rewrite Hd.
  - destruct (p c); [exact IH | reflexivity].
Qed.

Lemma drop_while_start p s :
  drop_while p s = [] \/ starts_outside p (drop_while p s).
Proof.
  induction s as [|c s IH]; cbn; [now left|].
  destruct (p c) eqn:E; [exact IH|].
  right. now exists c, s.
Qed.

(** A trimmed string is empty or has no white space at its ends. *)
Lemma trim_ends s :
  trim s = []
  \/ (starts_outside is_space (trim s) /\ ends_outside is_space (trim s)).
Proof.
  unfold trim.
  destruct (drop_while_start is_space s) as [-> | (d & r & -> & Hd)];
    [now left|].
  right. cbn [rev]. rewrite (@drop_while_last is_space (rev r) d Hd), rev_app_distr.
  cbn [rev app]. split.
  - now exists d, (rev (drop_while is_space (rev r))).
  - destruct (drop_while_start is_space (rev r)) as [-> | (e & r' & -> & He)].
    + now exists [], d.
    + exists (d :: rev r'), e. split; [reflexivity | exact He].
Qed.

Lemma trim_twice s : trim (trim s) = trim s.
Proof.
  destruct (trim_ends s) as [-> | [Hs He]]; [reflexivity|].
  now apply trim_tight.
Qed.

(** [cleanText] of the utilities module changes nothing when applied
    to its own result, provided the text has no line terminator. *)
Lemma cleanText_twice t :
  noLineTerminator t ->
  VideoUtils.cleanText (VideoUtils.cleanText t) = VideoUtils.cleanText t.
Proof.
  intros Ht. unfold VideoUtils.cleanText.
  rewrite !stripTags_scan, !stripBrackets_scan, !collapse_spaces_scan.
  set (u := stripBracketsFrom false (stripTagsFrom false t)).
  set (x := trim (collapse_from false u)).
  assert (Htags : pairFree (ch "<") (ch ">") x = true).
  { unfold x. eapply pairFree_subseq; [apply subseq_trim|].
    apply pairFree_collapse; try reflexivity.
    unfold u. eapply pairFree_subseq; [apply subseq_stripBrackets|].
    apply stripTags_pairFree. }
  assert (Hbrackets : pairFree (ch "[") (ch "]") x = true).
  { unfold x. eapply pairFree_subseq; [apply subseq_trim|].
    apply pairFree_collapse; try reflexivity.
    unfold u. apply stripBrackets_pairFree.
    eapply subseq_Forall; [apply subseq_stripTags | exact Ht]. }
  assert (Hspaces : singleSpaced false x = true).
  { unfold x. destruct (trim_infix (collapse_from false u)) as (a & b & E).
    pose proof (collapse_singleSpaced u false) as H.
    rewrite E in H.
    apply singleSpaced_suffix in H.
    now apply singleSpaced_prefix in H. }
  rewrite (@stripTags_fixed x Htags), (@stripBrackets_fixed x Hbrackets).
  rewrite (@collapse_fixed x false Hspaces).
  apply trim_twice.
Qed.
End CleanTwice.

(** ** Sentence-boundary truncation, end to end *)

Section SpacedSentences.
Import SegmentBuilder.

Lemma singleSpaced_outside x tail :
  Forall (fun c => is_space c = false) x ->
  singleSpaced false (x ++ tail) = singleSpaced false tail.
Proof.
  induction x as [|c x IH]; intros H; [reflexivity|].
  inversion H as [|? ? Hc Hx]; subst. cbn [app singleSpaced].
  rewrite Hc. now apply IH.
Qed.

Lemma singleSpaced_word w tail b :
  plainWord w -> singleSpaced b (w ++ tail) = singleSpaced false tail.
Proof.
  intros [Hne H]. destruct w as [|c w]; [congruence|].
  inversion H as [|? ? [Hc _] Hw]; subst. cbn [app singleSpaced].
  rewrite Hc. apply singleSpaced_outside.
  eapply Forall_impl; [|exact Hw]. now intros d [? ?].
Qed.

Lemma singleSpaced_words words : forall tail b,
  words <> [] -> Forall plainWord words ->
  singleSpaced b (join [SP] words ++ tail) = singleSpaced false tail.
Proof.
  induction words as [|w words IH]; intros tail b Hne H; [congruence|].
  inversion H as [|? ? Hw Hwords]; subst.
  destruct words as [|w' words'].
  - cbn [join]. now apply singleSpaced_word.
  - change (join [SP] (w :: w' :: words'))
      with (w ++ [SP] ++ join [SP] (w' :: words')).
    rewrite <- !app_assoc, (singleSpaced_word _ _ Hw).
    cbn [app singleSpaced]. change (is_space SP) with true. cbv iota.
    change (negb false && char_eqb SP SP) with true. cbn [andb].
    apply IH; [discriminate | exact Hwords].
Qed.

(** A sentence with its punctuation, and what follows it. *)
Lemma singleSpaced_sentence n words t tail b :
  sentenceOf (S n) words -> stopRun t ->
  singleSpaced b ((join [SP] words ++ t) ++ tail) = singleSpaced false tail.
Proof.
  intros [Hlen Hwords] [_ Ht].
  assert (Hne : words <> []) by (destruct words; discriminate).
  rewrite <- app_assoc, (singleSpaced_words _ _ Hne Hwords).
  apply singleSpaced_outside.
  eapply Forall_impl; [|exact Ht]. apply stop_not_space.
Qed.

Variables ws1 ws2 ws3 ws4 : list jsstring.
Variables t1 t2 t3 t4 : jsstring.
Hypothesis H1 : sentenceOf 10 ws1.
Hypothesis H2 : sentenceOf 10 ws2.
Hypothesis H3 : sentenceOf 10 ws3.
Hypothesis H4 : sentenceOf 10 ws4.
Hypothesis T1 : stopRun t1.
Hypothesis T2 : stopRun t2.
Hypothesis T3 : stopRun t3.
Hypothesis T4 : stopRun t4.

Let words := fourSentences ws1 ws2 ws3 ws4 t1 t2 t3 t4.

Lemma fourSentences_form :
  words
  = (join [SP] ws1 ++ t1) ++ [SP] ++ (join [SP] ws2 ++ t2) ++ [SP]
    ++ (join [SP] ws3 ++ t3) ++ [SP] ++ (join [SP] ws4 ++ t4) ++ [].
Proof.
  unfold words, fourSentences. now rewrite app_nil_r, <- !app_assoc.
Qed.

Lemma fourSentences_spaced : singleSpaced false words = true.
Proof.
  rewrite fourSentences_form.
  rewrite (singleSpaced_sentence _ _ H1 T1). cbn [app singleSpaced].
  change (is_space SP) with true. cbv iota.
  change (negb false && char_eqb SP SP) with true. cbn [andb].
  rewrite (singleSpaced_sentence _ _ H2 T2). cbn [app singleSpaced].
  change (is_space SP) with true. cbv iota.
  change (negb false && char_eqb SP SP) with true. cbn [andb].
  rewrite (singleSpaced_sentence _ _ H3 T3). cbn [app singleSpaced].
  change (is_space SP) with true. cbv iota.
  change (negb false && char_eqb SP SP) with true. cbn [andb].
  now rewrite (singleSpaced_sentence _ _ H4 T4).
Qed.

Lemma fourSentences_tight :
  starts_outside is_space words /\ ends_outside is_space words.
Proof.
  destruct (sentence_with_stop H1 T1) as (_ & (c & r & E1 & Hc) & _).
  destruct (sentence_with_stop H4 T4) as (_ & _ & (r' & c' & E4 & Hc')).
  split.
  - exists c, (r ++ [SP] ++ (join [SP] ws2 ++ t2) ++ [SP]
                 ++ (join [SP] ws3 ++ t3) ++ [SP] ++ (join [SP] ws4 ++ t4)
                 ++ []).
    split; [|exact Hc]. rewrite fourSentences_form, E1. reflexivity.
  - exists ((join [SP] ws1 ++ t1) ++ [SP] ++ (join [SP] ws2 ++ t2) ++ [SP]
            ++ (join [SP] ws3 ++ t3) ++ [SP] ++ r'), c'.
    split; [|exact Hc']. rewrite fourSentences_form, E4, app_nil_r.
    now rewrite <- !app_assoc.
Qed.

(** The combined text of a window that holds one caption whose text
    is the four sentences is that text. *)
Lemma combineText_fourSentences (from to : number) :
  combineText [mkCaption from to words] = words.
Proof.
  unfold combineText. cbn [List.map join caption_text].
  rewrite collapse_spaces_scan, (collapse_fixed _ _ fourSentences_spaced).
  destruct fourSentences_tight as [Hs He]. now apply trim_tight.
Qed.
End SpacedSentences.

(** The options of the claim: at most 20 words, whole sentences, the
    other options at their defaults. *)
Definition twentyWords : PartialOptions :=
  mkPartial None None None None (Some true) (Some 20).

(** One caption from 0 to 8 seconds under these options: the window
    from 0 pushes the segment from 0 to 8, the window from 7 is below
    the floor, and the loop ends at 14. *)
Lemma single_caption_run (audio video : SegmentBuilder.url_maker)
      (caption_words : jsstring) (extra : nat) :
  SegmentBuilder.build (3 + extra) (resolveOptions twentyWords) audio video
    [mkCaption 0 8 caption_words]
  = Some [mkSegment (js "1") 0 8
            (SegmentBuilder.limitWords (resolveOptions twentyWords)
               (SegmentBuilder.combineText [mkCaption 0 8 caption_words]))
            (Some []) (audio 1%nat 0 8) (video 1%nat 0 8)].
Proof.
  unfold SegmentBuilder.build.
  change (3 + extra)%nat with (S (S (S extra))).
  rewrite !segmentLoop_turn.
  reflexivity.
Qed.

(** The same run with the rounding of doubles: the times are whole
    numbers, which no operation rounds. *)
Lemma rounded_single_caption_run (audio video : SegmentBuilder.url_maker)
      (caption_words : jsstring) (extra : nat) :
  Rounded.build (3 + extra) (resolveOptions twentyWords) audio video
    [mkCaption 0 8 caption_words]
  = Rounded.Returned
      [mkSegment (js "1") 0 8
         (SegmentBuilder.limitWords (resolveOptions twentyWords)
            (SegmentBuilder.combineText [mkCaption 0 8 caption_words]))
         (Some []) (audio 1%nat 0 8) (video 1%nat 0 8)].
Proof.
  unfold Rounded.build.
  change (3 + extra)%nat with (S (S (S extra))).
  rewrite !rounded_loop_turn.
  reflexivity.
Qed.

(** C9: a caption from 0 to 8 seconds whose text is four sentences of
    ten words, each word free of white space and of [.], [!] and [?],
    each sentence closed by a run of these marks and the sentences
    separated by single spaces (forty words), under the options
    [maxWordsPerSegment] = 20 and [preferSentenceBoundaries] = true.
    [createSegments] and [createVideoSegments] return exactly one
    segment, whose text is the first two sentences, whole, without
    their closing marks and joined by a full stop and a space: twenty
    words, ending with the last word of the second sentence.  The
    times being whole numbers, the run is the same with the rounding
    of doubles.  The same text is the text of the segment of any
    window whose combined text is these four sentences. *)
Theorem C9_sentence_boundary_truncation
        (numberToString : number -> jsstring)
        (ws1 ws2 ws3 ws4 : list jsstring) (t1 t2 t3 t4 : jsstring)
        (extra : nat) :
  sentenceOf 10 ws1 -> sentenceOf 10 ws2 ->
  sentenceOf 10 ws3 -> sentenceOf 10 ws4 ->
  stopRun t1 -> stopRun t2 -> stopRun t3 -> stopRun t4 ->
  let words := fourSentences ws1 ws2 ws3 ws4 t1 t2 t3 t4 in
  let kept := firstTwo ws1 ws2 in
  let backend :=
    [mkSegment (js "1") 0 8 kept (Some []) (Some []) (Some [])] in
  let utilities :=
    [mkSegment (js "1") 0 8 kept (Some [])
       (VideoUtils.generateAudioUrl numberToString 1%nat 0 8)
       (VideoUtils.generateVideoUrl numberToString 1%nat 0 8)] in
  SegmentBuilder.wordCount words = 40%nat
  /\ SegmentBuilder.wordCount kept = 20%nat
  /\ CaptionProcessor.createSegments (3 + extra) [mkCaption 0 8 words]
       twentyWords
     = Some backend
  /\ VideoUtils.createVideoSegments numberToString (3 + extra)
       [mkCaption 0 8 words] twentyWords
     = Some utilities
  /\ Rounded.createSegments (3 + extra) [mkCaption 0 8 words] twentyWords
     = Rounded.Returned backend
  /\ Rounded.createVideoSegments numberToString (3 + extra)
       [mkCaption 0 8 words] twentyWords
     = Rounded.Returned utilities
  /\ (forall opts audio video c0 rest t n first others seg,
         maxWordsPerSegment opts = 20 ->
         preferSentenceBoundaries opts = true ->
         SegmentBuilder.combineText (first :: others) = words ->
         SegmentBuilder.windowSegment opts audio video c0 rest t n
                                      first others = Some seg ->
         text seg = kept).
Proof.
  intros H1 H2 H3 H4 T1 T2 T3 T4. cbv zeta.
  split; [now apply fourSentences_words|].
  split; [now apply firstTwo_words|].
  unfold CaptionProcessor.createSegments, VideoUtils.createVideoSegments,
    Rounded.createSegments, Rounded.createVideoSegments.
  rewrite !single_caption_run, !rounded_single_caption_run.
  rewrite (combineText_fourSentences H1 H2 H3 H4 T1 T2 T3 T4).
  rewrite (@limitWords_fourSentences (resolveOptions twentyWords)
             ws1 ws2 ws3 ws4 t1 t2 t3 t4 eq_refl eq_refl H1 H2 H3 H4
             T1 T2 T3 T4).
  repeat split.
  intros opts audio video c0 rest t n first others seg Hlimit Hprefer.
  now apply (@window_keeps_firstTwo opts ws1 ws2 ws3 ws4 t1 t2 t3 t4
               Hlimit Hprefer H1 H2 H3 H4 T1 T2 T3 T4).
Qed.

Lemma C9_sentence_boundary_truncation_witness :
  CaptionProcessor.createSegments 3 [mkCaption 0 8 quaranta] twentyWords
  = Some [mkSegment (js "1") 0 8
            (js "uno due tre quattro cinque sei sette otto nove dieci. uno due tre quattro cinque sei sette otto nove dieci")
            (Some []) (Some []) (Some [])].
Proof.
  destruct (@C9_sentence_boundary_truncation (fun _ => [])
              dieci dieci dieci dieci (js ".") (js "!") (js "?") (js "...")
              0%nat)
    as (_ & _ & H & _); [word_facts .. | exact H].
Defined.

(** Ten words of which the fifth holds a full stop. *)
Definition orario : list jsstring :=
  List.map js ["Il"; "treno"; "parte"; "alle"; "12.30";
               "da"; "Roma"; "per"; "Milano"; "oggi"]%string.

Definition quaranta_orario : jsstring :=
  fourSentences orario dieci dieci dieci (js ".") (js "!") (js "?") (js "...").

(** C9, as stated, does not hold: of four sentences of ten words of
    which the first holds the word [12.30], the split on sentence
    marks makes five words and six words, so that the second sentence
    no longer fits in the twenty; the segment that both builders emit
    has the first sentence alone as its text, cut in two at the stop
    inside its fifth word, and not the first two sentences. *)
Lemma C9_inner_stop_cuts_the_sentence :
  let kept := js "Il treno parte alle 12. 30 da Roma per Milano oggi" in
  List.map (@List.length jsstring) [orario; dieci; dieci; dieci]
  = [10; 10; 10; 10]%nat
  /\ SegmentBuilder.wordCount quaranta_orario = 40%nat
  /\ CaptionProcessor.createSegments 3 [mkCaption 0 8 quaranta_orario]
       twentyWords
     = Some [mkSegment (js "1") 0 8 kept (Some []) (Some []) (Some [])]
  /\ (forall numberToString : number -> jsstring,
         VideoUtils.createVideoSegments numberToString 3
           [mkCaption 0 8 quaranta_orario] twentyWords
         = Some [mkSegment (js "1") 0 8 kept (Some [])
                   (VideoUtils.generateAudioUrl numberToString 1%nat 0 8)
                   (VideoUtils.generateVideoUrl numberToString 1%nat 0 8)])
  /\ Rounded.createSegments 3 [mkCaption 0 8 quaranta_orario] twentyWords
     = Rounded.Returned
         [mkSegment (js "1") 0 8 kept (Some []) (Some []) (Some [])]
  /\ kept <> firstTwo orario dieci.
Proof.
  cbv zeta. repeat split; try (vm_compute; reflexivity).
  vm_compute. discriminate.
Qed.

(** ** Quality scoring and repair *)

Section Repair.
Import VideoUtils.

Definition hasFormatting (s : VideoSegment) : bool :=
  hasFormattingCharacter (text s).

Lemma hasIssue_formatting s :
  hasIssue "Contains formatting characters" (assessSegmentQuality s)
  = hasFormatting s.
Proof.
  unfold assessSegmentQuality, hasFormatting.
  repeat match goal with
         | |- context [if ?b then _ else _] => destruct b
         end; reflexivity.
Qed.

Lemma hasIssue_missing s :
  hasIssue "Missing translation" (assessSegmentQuality s)
  = missingTranslation s.
Proof.
  unfold assessSegmentQuality.
  repeat match goal with
         | |- context [if ?b then _ else _] => destruct b
         end; reflexivity.
Qed.

(** What [optimizeSegments] makes of a segment below the threshold. *)
Definition repaired (s : VideoSegment) : VideoSegment :=
  mkSegment (id s) (startTime s) (endTime s)
            (if hasFormatting s then cleanText (text s) else text s)
            (if missingTranslation s then Some (js "[Translation needed]")
             else translation s)
            (audioUrl s) (videoUrl s).

Lemma optimizeSegment_cases s :
  optimizeSegment s
  = if geb (score (assessSegmentQuality s)) (8 # 10) then s else repaired s.
Proof.
  unfold optimizeSegment, repaired.
  rewrite hasIssue_formatting, hasIssue_missing.
  destruct (geb _ _); [reflexivity|].
  destruct (hasFormatting s), (missingTranslation s); destruct s; reflexivity.
Qed.

(** Repairing a repaired segment changes nothing when the text has no
    line terminator. *)
Lemma repaired_twice s :
  noLineTerminator (text s) -> repaired (repaired s) = repaired s.
Proof.
  intros Hs. unfold repaired at 1.
  assert (Hm : missingTranslation (repaired s) = false).
  { unfold repaired, missingTranslation. cbn.
    destruct (translation s) as [t|]; [|reflexivity].
    destruct t; reflexivity. }
  rewrite Hm.
  assert (Ht : (if hasFormatting (repaired s)
                then cleanText (text (repaired s)) else text (repaired s))
               = text (repaired s)).
  { unfold hasFormatting at 1. unfold repaired. cbn [text].
    destruct (hasFormatting s) eqn:F.
    - destruct (hasFormattingCharacter (cleanText (text s)));
        [now apply cleanText_twice | reflexivity].
    - unfold hasFormatting in F. now rewrite F. }
  rewrite Ht. reflexivity.
Qed.

Lemma optimizeSegment_twice s :
  noLineTerminator (text s) ->
  optimizeSegment (optimizeSegment s) = optimizeSegment s.
Proof.
  intros Hs. rewrite (optimizeSegment_cases s).
  destruct (geb (score (assessSegmentQuality s)) (8 # 10)) eqn:E.
  - rewrite optimizeSegment_cases. now rewrite E.
  - rewrite optimizeSegment_cases.
    destruct (geb (score (assessSegmentQuality (repaired s))) (8 # 10));
      [reflexivity|].
    now apply repaired_twice.
Qed.
End Repair.

(** A short segment whose bracketed annotation runs over two lines. *)
Definition two_line_annotation : VideoSegment :=
  mkSegment (js "1") 0 2 (js "[uno" ++ [10%N] ++ js "due tre]")
            None None None.

(** C6: a second repair can lower the score.  [cleanText] removes
    bracketed groups with [/\[.*?\]/g], in which [.] stops at a line
    terminator, so that the group of this segment, which runs over two
    lines, survives the first repair, against the comment of that line
    of the code ("Remove [brackets] like [Music]"); the white space is
    collapsed afterwards, which joins the two lines.  The repaired
    segment still scores below the threshold of 0.8, so that a second
    repair cleans it again, removes the group, now on one line, and
    leaves an empty text: the score goes down. *)
Theorem C6_score_can_decrease :
  let s' := nth 0 (VideoUtils.optimizeSegments [two_line_annotation])
                two_line_annotation in
  let s'' := nth 0 (VideoUtils.optimizeSegments [s']) s' in
  VideoUtils.cleanText (text two_line_annotation) = js "[uno due tre]"
  /\ VideoUtils.cleanText (js "[uno due tre]") = []
  /\ text s' = js "[uno due tre]"
  /\ text s'' = []
  /\ VideoUtils.score (VideoUtils.assessSegmentQuality s'')
     < VideoUtils.score (VideoUtils.assessSegmentQuality s').
Proof.
  cbv zeta. repeat split; vm_compute; reflexivity.
Qed.

(** Where the text has no line terminator the bracket removal is
    complete: applying [optimizeSegments] to its own output returns
    the segment unchanged, and the score with it. *)
Lemma optimize_twice_without_line_terminators (s : VideoSegment) :
  Forall (fun c => is_line_terminator c = false) (text s) ->
  let s' := nth 0 (VideoUtils.optimizeSegments [s]) s in
  let s'' := nth 0 (VideoUtils.optimizeSegments [s']) s' in
  s'' = s'
  /\ VideoUtils.score (VideoUtils.assessSegmentQuality s'')
     >= VideoUtils.score (VideoUtils.assessSegmentQuality s').
Proof.
  intros Hs. cbn.
  rewrite (@optimizeSegment_twice s Hs). split; [reflexivity | apply Qle_refl].
Qed.

(** ** The texts of built segments

    Segment building collapses white space, so the segments it emits
    have no line terminator in their text: they are segments for which
    repairing twice is repairing once. *)

Section BuiltTexts.
Import SegmentBuilder.

Lemma line_terminator_is_space c :
  is_line_terminator c = true -> is_space c = true.
Proof.
  unfold is_line_terminator. rewrite !orb_true_iff, !N.eqb_eq.
  intros [[[-> | ->] | ->] | ->]; reflexivity.
Qed.

Lemma collapse_noLineTerminator s : forall b,
  noLineTerminator (collapse_from b s).
Proof.
  induction s as [|c s IH]; intros b; cbn; [constructor|].
  destruct (is_space c) eqn:E.
  - destruct b; [apply IH|]. constructor; [reflexivity | apply IH].
  - constructor; [|apply IH].
    destruct (is_line_terminator c) eqn:L; [|reflexivity].
    apply line_terminator_is_space in L. congruence.
Qed.

Lemma split_from_subseq p s : forall b,
  Forall (fun piece => subseq piece s) (splitScan p b s).
Proof.
  induction s as [|c s IH]; intros b; cbn.
  - repeat constructor.
  - assert (Hskip : forall b', Forall (fun piece => subseq piece (c :: s))
                                      (splitScan p b' s)).
    { intros b'. eapply Forall_impl; [|apply IH].
      intros piece H. now constructor. }
    destruct (p c).
    + destruct b; [apply Hskip|].
      constructor; [apply subseq_nil_l | apply Hskip].
    + specialize (IH false). specialize (Hskip false).
      destruct (splitScan p false s) as [|piece pieces].
      * constructor; [apply subseq_keep, subseq_nil_l | constructor].
      * inversion IH; subst. inversion Hskip; subst.
        constructor; [now apply subseq_keep | assumption].
Qed.

Lemma takeSentences_noLineTerminator maxWords sentences :
  Forall noLineTerminator sentences ->
  forall text_ words,
    noLineTerminator text_ ->
    noLineTerminator (takeSentences maxWords sentences text_ words).
Proof.
  induction 1 as [|sentence sentences Hs _ IH]; intros text_ words Ht;
    cbn [takeSentences]; [exact Ht|].
  destruct (_ && _); [|exact Ht].
  apply IH. apply Forall_app. split; [exact Ht|].
  apply Forall_app. split.
  - destruct (truthy text_); repeat constructor.
  - eapply subseq_Forall; [apply subseq_trim | exact Hs].
Qed.

Lemma limitWords_noLineTerminator opts combinedText :
  noLineTerminator combinedText ->
  noLineTerminator (limitWords opts combinedText).
Proof.
  intros H. unfold limitWords.
  destruct (_ && _); [|exact H].
  destruct (1 <? _)%nat; [|exact H].
  destruct (truthy _) eqn:E; [|exact H].
  apply takeSentences_noLineTerminator; [|constructor].
  unfold split_sentences. rewrite split_on_scan.
  eapply Forall_impl; [|apply split_from_subseq].
  intros piece Hp. eapply subseq_Forall; [exact Hp | exact H].
Qed.

Lemma combineText_noLineTerminator captions :
  noLineTerminator (combineText captions).
Proof.
  unfold combineText. rewrite collapse_spaces_scan.
  eapply subseq_Forall; [apply subseq_trim|].
  apply collapse_noLineTerminator.
Qed.

Lemma segmentLoop_noLineTerminator opts audio video c0 rest fuel :
  forall t n segs out,
    Forall (fun s => noLineTerminator (text s)) segs ->
    segmentLoop opts audio video c0 rest fuel t n segs = Some out ->
    Forall (fun s => noLineTerminator (text s)) out.
Proof.
  induction fuel as [|fuel IH]; intros t n segs out Hsegs; [discriminate|].
  rewrite segmentLoop_turn.
  destruct (ltb t _); [|intros H; now injection H as <-].
  destruct (windowCaptions _ _ _ _) as [|first others]; [now apply IH|].
  destruct (windowSegment _ _ _ _ _ _ _ _ _) as [seg|] eqn:E; [|now apply IH].
  apply IH. apply Forall_app. split; [exact Hsegs|].
  constructor; [|constructor].
  unfold windowSegment in E. destruct (geb _ _); [|discriminate].
  injection E as <-. cbn [text].
  apply limitWords_noLineTerminator, combineText_noLineTerminator.
Qed.

(** X5: every segment [createVideoSegments] returns is repaired once
    and for all: [optimizeSegments] leaves its own result unchanged,
    and so does not lower its score. *)
Lemma built_segments_repair_once (numberToString : number -> jsstring)
      (fuel : nat) (captions : list CaptionData) (options : PartialOptions)
      (segments : list VideoSegment) :
  VideoUtils.createVideoSegments numberToString fuel captions options
  = Some segments ->
  VideoUtils.optimizeSegments
    (VideoUtils.optimizeSegments segments)
  = VideoUtils.optimizeSegments segments.
Proof.
  intros H.
  assert (Htexts : Forall (fun s => noLineTerminator (text s)) segments).
  { unfold VideoUtils.createVideoSegments, build in H.
    destruct captions as [|c0 rest]; [injection H as <-; constructor|].
    eapply segmentLoop_noLineTerminator; [|exact H]. constructor. }
  unfold VideoUtils.optimizeSegments. rewrite map_map.
  apply map_ext_Forall.
  eapply Forall_impl; [|exact Htexts].
  intros s Hs. now apply optimizeSegment_twice.
Qed.
End BuiltTexts.

(** The segments the utilities build from the two captions of the
    overlap example. *)
Definition ciao_utility_segments : list VideoSegment :=
  Eval vm_compute in
    match VideoUtils.createVideoSegments (fun _ => []) 3 ciao_captions
                                         noOptions with
    | Some segments => segments
    | None => []
    end.

Lemma built_segments_repair_once_witness :
  VideoUtils.optimizeSegments (VideoUtils.optimizeSegments ciao_utility_segments)
  = VideoUtils.optimizeSegments ciao_utility_segments.
Proof.
  apply (@built_segments_repair_once (fun _ => []) 3 ciao_captions noOptions).
  vm_compute. reflexivity.
Defined.

(** * Further properties of the code *)

(** ** Segment building: identifiers, bounds and order *)

Lemma Math_min_le (a b : number) : Math_min a b <= a /\ Math_min a b <= b.
Proof.
  unfold Math_min. destruct (leb a b) eqn:E.
  - apply leb_le in E. split; [apply Qle_refl | exact E].
  - assert (b < a) by (apply ltb_lt; unfold ltb, leb in *; now rewrite E).
    split; [now apply Qlt_le_weak | apply Qle_refl].
Qed.

Lemma Math_max_ge (a b : number) : a <= Math_max a b /\ b <= Math_max a b.
Proof.
  unfold Math_max. destruct (leb a b) eqn:E.
  - apply leb_le in E. split; [exact E | apply Qle_refl].
  - assert (b < a) by (apply ltb_lt; unfold ltb, leb in *; now rewrite E).
    split; [apply Qle_refl | now apply Qlt_le_weak].
Qed.

Lemma Math_max_cases (a b : number) : Math_max a b = a \/ Math_max a b = b.
Proof. unfold Math_max. destruct (leb a b); auto. Qed.

Section BuilderFacts.
Import SegmentBuilder.
Variable opts : SegmentationOptions.
Variables audio video : url_maker.
Variables (c0 : CaptionData) (rest : list CaptionData).

Let loop := Rounded.segmentLoop opts audio video c0 rest.

(** The identifiers so far are the ordinals from 1, and the next
    identifier is the next ordinal. *)
Definition ordinalIds (segs : list VideoSegment) : Prop :=
  List.map id segs = List.map nat_to_string (List.seq 1 (List.length segs)).

Lemma rounded_loop_ids fuel : forall t n segs,
  ordinalIds segs -> n = S (List.length segs) ->
  ordinalIds (Rounded.emitted (loop fuel t n segs)).
Proof.
  induction fuel as [|fuel IH]; intros t n segs Hids Hn; [exact Hids|].
  unfold loop. rewrite rounded_loop_turn.
  destruct (ltb t _); [|exact Hids].
  destruct (Double.add t _) as [sum|]; [|reflexivity]. cbv zeta.
  destruct (windowCaptions _ _ _ _) as [|first others]; [now apply IH|].
  destruct (Double.sub (Rounded.actualEnd _ _ _) _) as [span|];
    [|reflexivity].
  destruct (Double.sub (segmentDuration opts) _) as [step|]; [|reflexivity].
  destruct (Double.add t step) as [next|]; [|reflexivity].
  destruct (Rounded.windowSegment _ _ _ _ _ _ _ _ _) as [seg|] eqn:E;
    [|now apply IH].
  apply IH.
  - unfold Rounded.windowSegment in E. destruct (geb _ _); [|discriminate].
    injection E as <-. unfold ordinalIds in *.
    rewrite length_app, map_app, Hids. cbn [List.length List.map id].
    rewrite Nat.add_1_r, seq_S, map_app. cbn [List.map]. now rewrite Hn.
  - rewrite length_app. cbn. lia.
Qed.

(** A pushed segment ends inside the span of the captions. *)
Lemma rounded_window_end t sum span n first others seg :
  Rounded.windowSegment opts audio video t
    (Math_min sum (maxEnd c0 rest)) span n first others = Some seg ->
  endTime seg <= maxEnd c0 rest.
Proof.
  unfold Rounded.windowSegment. destruct (geb _ _); [|discriminate].
  intros H. injection H as <-. cbn [endTime]. unfold Rounded.actualEnd.
  destruct (Math_min_le (Math_min sum (maxEnd c0 rest))
                        (end_ (last (first :: others) first))) as [H1 _].
  destruct (Math_min_le sum (maxEnd c0 rest)) as [_ H2].
  eapply Qle_trans; [exact H1 | exact H2].
Qed.

Lemma rounded_loop_ends_inside fuel t n segs :
  Forall (fun s => endTime s <= maxEnd c0 rest) segs ->
  Forall (fun s => endTime s <= maxEnd c0 rest)
         (Rounded.emitted (loop fuel t n segs)).
Proof.
  apply rounded_loop_invariant.
  intros t' sum span n' first others seg _. apply rounded_window_end.
Qed.
End BuilderFacts.

(** X1: the segments that segment building emits carry the
    identifiers "1", "2", ... in the order of emission, and none ends
    after the last caption end; this holds of [createSegments] and of
    [createVideoSegments], of a run that returns and of the segments
    pushed so far in a run that has not returned. *)
Theorem segments_numbered_and_bounded
        (numberToString : number -> jsstring) (fuel : nat)
        (c0 : CaptionData) (rest : list CaptionData)
        (options : PartialOptions) :
  let numbered (segs : list VideoSegment) :=
    List.map id segs
    = List.map nat_to_string (List.seq 1 (List.length segs)) in
  let inside (s : VideoSegment) :=
    endTime s <= SegmentBuilder.maxEnd c0 rest in
  let backend :=
    Rounded.emitted (Rounded.createSegments fuel (c0 :: rest) options) in
  let utilities :=
    Rounded.emitted
      (Rounded.createVideoSegments numberToString fuel (c0 :: rest)
                                   options) in
  numbered backend /\ Forall inside backend
  /\ numbered utilities /\ Forall inside utilities.
Proof.
  cbv zeta.
  unfold Rounded.createSegments, Rounded.createVideoSegments, Rounded.build.
  repeat split;
    first [ apply rounded_loop_ids; reflexivity
          | apply rounded_loop_ends_inside; constructor ].
Qed.

Lemma segments_numbered_and_bounded_witness :
  let backend :=
    Rounded.emitted (Rounded.createSegments 3 ciao_captions noOptions) in
  List.map id backend = [js "1"; js "2"]
  /\ Forall (fun s => endTime s <= 10) backend.
Proof.
  destruct (segments_numbered_and_bounded (fun _ => []) 3
              (mkCaption 0 5 (js "Ciao, come stai?"))
              [mkCaption 5 10 (js "Sono molto felice di vederti oggi.")]
              noOptions) as (Hids & Hends & _).
  split; [exact Hids | exact Hends].
Defined.

(** ** Segment building: start times in order *)

Section SortedCaptions.
Import SegmentBuilder.

Definition byStart (a b : CaptionData) : Prop := start a <= start b.

Lemma leb_total (a b : number) : leb a b = false -> b <= a.
Proof.
  intros E. apply Qlt_le_weak, ltb_lt. unfold ltb, leb in *. now rewrite E.
Qed.

Lemma insertCaption_In c x l :
  In x (insertCaption c l) <-> x = c \/ In x l.
Proof.
  induction l as [|h t IH]; cbn.
  - intuition.
  - destruct (leb _ _); cbn; [intuition|]. rewrite IH. intuition.
Qed.

Lemma insertCaption_sorted c l :
  StronglySorted byStart l -> StronglySorted byStart (insertCaption c l).
Proof.
  induction 1 as [|h t Ht IH Hall]; cbn.
  - repeat constructor.
  - destruct (leb (start c) (start h)) eqn:E.
    + apply leb_le in E.
      constructor; [now constructor|].
      constructor; [exact E|].
      eapply Forall_impl; [|exact Hall].
      intros x Hx. unfold byStart in *. lra.
    + apply leb_total in E.
      constructor; [exact IH|].
      apply Forall_forall. intros x Hx.
      apply insertCaption_In in Hx. destruct Hx as [->|Hx]; [exact E|].
      rewrite Forall_forall in Hall. now apply Hall.
Qed.

Lemma sortCaptions_sorted l : StronglySorted byStart (sortCaptions l).
Proof.
  induction l as [|c l IH]; cbn; [constructor|].
  now apply insertCaption_sorted.
Qed.

Lemma sortCaptions_In x l : In x (sortCaptions l) <-> In x l.
Proof.
  induction l as [|c l IH]; cbn; [tauto|].
  rewrite insertCaption_In, IH. intuition.
Qed.

(** The head of what a filter keeps of a sorted list starts first
    among what is kept. *)
Lemma filter_head_least (f : CaptionData -> bool) l :
  StronglySorted byStart l -> forall first others,
  filter f l = first :: others ->
  f first = true /\ In first l
  /\ forall c, In c l -> f c = true -> start first <= start c.
Proof.
  induction 1 as [|h t Ht IH Hall]; intros first others; cbn; [discriminate|].
  destruct (f h) eqn:E.
  - intros H. injection H as <- _. repeat split; auto.
    intros c [<-|Hc] _; [apply Qle_refl|].
    rewrite Forall_forall in Hall. now apply Hall.
  - intros H. destruct (IH _ _ H) as (H1 & H2 & H3).
    repeat split; auto.
    intros c [<-|Hc] Hf; [congruence|]. now apply H3.
Qed.
End SortedCaptions.

Section BuilderOrder.
Import SegmentBuilder.
Variable opts : SegmentationOptions.
Variables audio video : url_maker.
Variables (c0 : CaptionData) (rest : list CaptionData).

Let loop := segmentLoop opts audio video c0 rest.

Hypothesis duration_not_negative : 0 <= segmentDuration opts.
Hypothesis overlap_within_duration : overlap opts <= segmentDuration opts.

(** A start time the later windows cannot undercut: it is not after
    the clock, or not after the start of any caption still ahead of
    the clock. *)
Definition behind (t x : number) : Prop :=
  x <= t
  \/ forall c, In c (c0 :: rest) -> t < end_ c -> x <= start c.

Lemma behind_later t t' x : t <= t' -> behind t x -> behind t' x.
Proof.
  intros Ht [H|H]; [left; lra|right].
  intros c Hc He. apply H; [exact Hc | lra].
Qed.

Definition inOrder (a b : VideoSegment) : Prop := startTime a <= startTime b.

Lemma window_first t first others :
  windowCaptions c0 rest t (windowEnd opts c0 rest t) = first :: others ->
  t < end_ first /\ In first (c0 :: rest)
  /\ forall c, In c (c0 :: rest) -> t < end_ c ->
       start first <= start c.
Proof.
  unfold windowCaptions. intros H.
  destruct (@filter_head_least _ _ (sortCaptions_sorted (c0 :: rest)) _ _ H)
    as (Hf & Hin & Hleast).
  apply andb_prop in Hf. destruct Hf as [Hs He].
  apply ltb_lt in Hs. apply ltb_lt in He.
  repeat split; [exact He | now apply sortCaptions_In |].
  intros c Hc Hce.
  destruct (ltb (start c) (windowEnd opts c0 rest t)) eqn:E.
  - apply Hleast; [now apply sortCaptions_In|].
    rewrite E. cbn. now apply ltb_lt.
  - apply ltb_ge in E. lra.
Qed.

Lemma windowSegment_start t n first others seg :
  windowSegment opts audio video c0 rest t n first others = Some seg ->
  t <= startTime seg /\ start first <= startTime seg
  /\ (startTime seg = t \/ startTime seg = start first).
Proof.
  unfold windowSegment. destruct (geb _ _); [|discriminate].
  intros H. injection H as <-. cbn [startTime].
  destruct (Math_max_ge t (start first)) as [H1 H2].
  repeat split; [exact H1 | exact H2 | apply Math_max_cases].
Qed.

Lemma segmentLoop_order fuel : forall t n segs out,
  0 <= t ->
  StronglySorted inOrder segs ->
  Forall (fun s => 0 <= startTime s /\ behind t (startTime s)) segs ->
  loop fuel t n segs = Some out ->
  StronglySorted inOrder out /\ Forall (fun s => 0 <= startTime s) out.
Proof.
  induction fuel as [|fuel IH]; intros t n segs out Ht Hs Hb; [discriminate|].
  unfold loop. rewrite segmentLoop_turn.
  assert (Hlater : forall t', t <= t' ->
            Forall (fun s => 0 <= startTime s /\ behind t' (startTime s)) segs).
  { intros t' Ht'. eapply Forall_impl; [|exact Hb].
    intros s [H0 H]. split; [exact H0|]. now apply (behind_later Ht'). }
  destruct (ltb t _).
  2:{ intros H. injection H as <-. split; [exact Hs|].
      eapply Forall_impl; [|exact Hb]. now intros s [H0 _]. }
  destruct (windowCaptions _ _ _ _) as [|first others] eqn:Ew.
  { apply IH; [|exact Hs|apply Hlater]; lra. }
  destruct (window_first _ Ew) as (Hend & Hin & Hleast).
  destruct (windowSegment _ _ _ _ _ _ _ _ _) as [seg|] eqn:E.
  2:{ apply IH; [|exact Hs|apply Hlater]; lra. }
  destruct (windowSegment_start _ _ _ _ E) as (H1 & H2 & H4).
  apply IH; [lra| |].
  - clear IH Hlater. induction Hs as [|a l Hl IHl Hall]; cbn.
    + repeat constructor.
    + apply Forall_cons_iff in Hb. destruct Hb as [[_ Ha] Hb].
      constructor; [now apply IHl|].
      apply Forall_app. split; [exact Hall|].
      constructor; [|constructor]. unfold inOrder.
      destruct Ha as [Ha|Ha]; [lra|].
      specialize (Ha first Hin Hend). lra.
  - apply Forall_app. split; [apply Hlater; lra|].
    constructor; [|constructor]. split; [lra|].
    destruct H4 as [H4|H4]; rewrite H4.
    + left. lra.
    + right. intros c Hc Hce. apply Hleast; [exact Hc | lra].
Qed.
End BuilderOrder.

(** X2: when the segment duration is not negative and the overlap is
    not larger than it, the segments that segment building returns are
    in the order of their start times, and no segment starts before
    time 0. *)
Theorem segments_start_in_order
        (numberToString : number -> jsstring) (fuel : nat)
        (c0 : CaptionData) (rest : list CaptionData)
        (options : PartialOptions) (segs : list VideoSegment) :
  0 <= segmentDuration (resolveOptions options) ->
  overlap (resolveOptions options) <= segmentDuration (resolveOptions options) ->
  CaptionProcessor.createSegments fuel (c0 :: rest) options = Some segs
  \/ VideoUtils.createVideoSegments numberToString fuel (c0 :: rest) options
     = Some segs ->
  StronglySorted (fun a b => startTime a <= startTime b) segs
  /\ Forall (fun s => 0 <= startTime s) segs.
Proof.
  unfold CaptionProcessor.createSegments, VideoUtils.createVideoSegments,
    SegmentBuilder.build.
  intros Hd Ho [H|H];
    (eapply segmentLoop_order;
     [exact Hd | exact Ho | apply Qle_refl | constructor | constructor
     | exact H]).
Qed.

Lemma segments_start_in_order_witness :
  StronglySorted (fun a b => startTime a <= startTime b)
    [ mkSegment (js "1") 0 8 ciao_both (Some []) (Some []) (Some []);
      mkSegment (js "2") 7 10 ciao_second (Some []) (Some []) (Some []) ].
Proof.
  assert (Hd : 0 <= segmentDuration (resolveOptions noOptions))
    by (vm_compute; discriminate).
  assert (Ho : overlap (resolveOptions noOptions)
               <= segmentDuration (resolveOptions noOptions))
    by (vm_compute; discriminate).
  destruct (@segments_start_in_order (fun _ => []) 3
              (mkCaption 0 5 (js "Ciao, come stai?"))
              [mkCaption 5 10 (js "Sono molto felice di vederti oggi.")]
              noOptions _ Hd Ho (or_introl eq_refl)) as [H _].
  exact H.
Defined.

(** ** Segment building: a clock that does not advance *)

Lemma ltb_compat (a a' b b' : number) :
  a == a' -> b == b' -> ltb a b = ltb a' b'.
Proof. intros Ha Hb. unfold ltb. now rewrite Ha, Hb. Qed.

Lemma Math_max_list_ge (xs : list number) : forall x,
  x <= Math_max_list x xs /\ Forall (fun y => y <= Math_max_list x xs) xs.
Proof.
  unfold Math_max_list.
  induction xs as [|y xs IH]; intros x; cbn.
  - split; [apply Qle_refl | constructor].
  - destruct (IH (Math_max x y)) as [H1 H2].
    destruct (Math_max_ge x y) as [Hx Hy].
    split; [lra|]. constructor; [lra | exact H2].
Qed.

Lemma maxEnd_ge (c0 : CaptionData) (rest : list CaptionData) (c : CaptionData) :
  In c (c0 :: rest) -> end_ c <= SegmentBuilder.maxEnd c0 rest.
Proof.
  unfold SegmentBuilder.maxEnd.
  destruct (Math_max_list_ge (List.map end_ rest) (end_ c0)) as [H0 Hrest].
  intros [<-|Hc]; [exact H0|].
  rewrite Forall_forall in Hrest. apply Hrest. now apply in_map.
Qed.

Section StuckLoop.
Import SegmentBuilder.
Variable opts : SegmentationOptions.
Variables audio video : url_maker.
Variables (c0 : CaptionData) (rest : list CaptionData).

Let loop := segmentLoop opts audio video c0 rest.

Hypothesis overlap_is_duration : overlap opts == segmentDuration opts.

Lemma windowCaptions_compat t t' :
  t == t' ->
  windowCaptions c0 rest t (windowEnd opts c0 rest t)
  = windowCaptions c0 rest t' (windowEnd opts c0 rest t').
Proof.
  intros Ht. unfold windowCaptions. apply filter_ext. intros c.
  assert (Hend : windowEnd opts c0 rest t == windowEnd opts c0 rest t').
  { unfold windowEnd, Math_min, leb. rewrite Ht.
    destruct (Qle_bool _ _); [now rewrite Ht | reflexivity]. }
  unfold gtb.
  rewrite (@ltb_compat (start c) (start c) _ _ (Qeq_refl _) Hend).
  rewrite (@ltb_compat t t' (end_ c) (end_ c) Ht (Qeq_refl _)).
  reflexivity.
Qed.

(** From a window that holds a caption, a clock that stands still
    never leaves the loop. *)
Lemma segmentLoop_stuck t0 :
  t0 < maxEnd c0 rest ->
  windowCaptions c0 rest t0 (windowEnd opts c0 rest t0) <> [] ->
  forall fuel t n segs, t == t0 -> loop fuel t n segs = None.
Proof.
  intros Hmax Hwin.
  induction fuel as [|fuel IH]; intros t n segs Ht; [reflexivity|].
  unfold loop. rewrite segmentLoop_turn.
  rewrite (@ltb_compat t t0 _ _ Ht (Qeq_refl _)).
  apply ltb_lt in Hmax. rewrite Hmax.
  rewrite (windowCaptions_compat Ht).
  destruct (windowCaptions _ _ _ _) as [|first others]; [congruence|].
  assert (Ht' : t + (segmentDuration opts - overlap opts) == t0)
    by (rewrite Ht, overlap_is_duration; ring).
  destruct (windowSegment _ _ _ _ _ _ _ _ _); now apply IH.
Qed.
End StuckLoop.

(** The loop from time 0, when the overlap is the segment duration
    and a caption meets the first window. *)
Lemma build_stuck (opts : SegmentationOptions)
      (audio video : SegmentBuilder.url_maker)
      (c0 : CaptionData) (rest : list CaptionData) (c : CaptionData) :
  overlap opts == segmentDuration opts ->
  In c (c0 :: rest) ->
  start c < SegmentBuilder.windowEnd opts c0 rest 0 ->
  0 < end_ c ->
  forall fuel : nat,
    SegmentBuilder.build fuel opts audio video (c0 :: rest) = None.
Proof.
  intros Heq Hin Hstart Hend fuel.
  assert (Hmax : 0 < SegmentBuilder.maxEnd c0 rest).
  { eapply Qlt_le_trans; [exact Hend | now apply maxEnd_ge]. }
  assert (Hwin : SegmentBuilder.windowCaptions c0 rest 0
                   (SegmentBuilder.windowEnd opts c0 rest 0) <> []).
  { unfold SegmentBuilder.windowCaptions. intros E.
    assert (H : In c (filter
                        (fun caption =>
                           ltb (start caption)
                               (SegmentBuilder.windowEnd opts c0 rest 0)
                           && gtb (end_ caption) 0)
                        (SegmentBuilder.sortCaptions (c0 :: rest)))).
    { apply filter_In. split; [now apply sortCaptions_In|].
      apply andb_true_iff. split; now apply ltb_lt. }
    rewrite E in H. exact H. }
  unfold SegmentBuilder.build.
  eapply segmentLoop_stuck; eauto; reflexivity.
Qed.

(** X3: when the overlap equals the segment duration and some caption
    meets the first window (it starts before the window ends and ends
    after time 0), the clock of segment building never advances: the
    loop has no result, whatever the number of turns it is given. *)
Theorem segments_never_built_when_overlap_is_duration
        (numberToString : number -> jsstring)
        (c0 : CaptionData) (rest : list CaptionData)
        (options : PartialOptions) (c : CaptionData) :
  let opts := resolveOptions options in
  overlap opts == segmentDuration opts ->
  In c (c0 :: rest) ->
  start c < SegmentBuilder.windowEnd opts c0 rest 0 ->
  0 < end_ c ->
  forall fuel : nat,
    CaptionProcessor.createSegments fuel (c0 :: rest) options = None
    /\ VideoUtils.createVideoSegments numberToString fuel (c0 :: rest) options
       = None.
Proof.
  intros opts Heq Hin Hstart Hend fuel.
  unfold CaptionProcessor.createSegments, VideoUtils.createVideoSegments.
  split; now apply (@build_stuck opts _ _ c0 rest c).
Qed.

Lemma segments_never_built_when_overlap_is_duration_witness :
  CaptionProcessor.createSegments 1000 ciao_captions
    (mkPartial (Some 1) (Some 1) None None None None) = None.
Proof.
  refine (proj1 (@segments_never_built_when_overlap_is_duration
                   (fun _ => []) (mkCaption 0 5 (js "Ciao, come stai?"))
                   [mkCaption 5 10 (js "Sono molto felice di vederti oggi.")]
                   (mkPartial (Some 1) (Some 1) None None None None)
                   (mkCaption 0 5 (js "Ciao, come stai?"))
                   _ _ _ _ 1000%nat)).
  - reflexivity.
  - now left.
  - vm_compute. reflexivity.
  - reflexivity.
Defined.

(** ** Segment building: the word limit *)

Section WordLimit.
Import SegmentBuilder.
Variable maxWords : number.

(** The text and the running word count of [takeSentences] agree, and
    the count is within the limit. *)
Definition counted (text_ : jsstring) (words : nat) : Prop :=
  (text_ = [] /\ words = 0%nat)
  \/ (ends_outside is_space text_ /\ wordCount text_ = words
      /\ of_nat words <= maxWords).

Lemma wordCount_stop x :
  ends_outside is_space x -> wordCount (x ++ [ch "."]) = wordCount x.
Proof.
  intros Hx. unfold wordCount, split_spaces. rewrite !split_on_scan.
  apply split_from_tail_length; [exact Hx|].
  constructor; [reflexivity | constructor].
Qed.

Lemma ends_outside_app p x y : ends_outside p y -> ends_outside p (x ++ y).
Proof.
  intros (r & c & -> & Hc). exists (x ++ r), c.
  now rewrite app_assoc.
Qed.

Lemma counted_step text_ words sentence :
  counted text_ words ->
  leb (of_nat (words + wordCount (trim sentence))) maxWords = true ->
  truthy (trim sentence) = true ->
  counted (text_ ++ (if truthy text_ then js ". " else []) ++ trim sentence)
          (words + wordCount (trim sentence)).
Proof.
  intros Hc Hle Ht. apply leb_le in Hle.
  destruct (trim_ends sentence) as [E | [Hs He]];
    [rewrite E in Ht; discriminate|].
  right. destruct Hc as [[-> ->] | (Hends & Hcount & _)].
  - cbn [truthy app Nat.add]. repeat split; [exact He | exact Hle].
  - rewrite (@truthy_starts (fun _ => false) text_).
    2:{ destruct Hends as (r & c & -> & _).
        destruct r; cbn; now eexists _, _. }
    change (js ". ") with ([ch "."] ++ [SP]).
    split; [now apply ends_outside_app, ends_outside_app|].
    split; [|exact Hle].
    rewrite <- app_assoc, app_assoc, wordCount_app.
    + now rewrite wordCount_stop, Hcount.
    + apply ends_outside_app. now exists [], (ch ".").
    + exact Hs.
Qed.

Lemma takeSentences_counted sentences : forall text_ words,
  counted text_ words ->
  takeSentences maxWords sentences text_ words = []
  \/ of_nat (wordCount (takeSentences maxWords sentences text_ words))
     <= maxWords.
Proof.
  induction sentences as [|sentence sentences IH]; intros text_ words Hc;
    cbn [takeSentences].
  - destruct Hc as [[-> _] | (_ & <- & H)]; [now left | now right].
  - destruct (leb _ maxWords && truthy (trim sentence)) eqn:E.
    + apply andb_true_iff in E. destruct E as [Hle Ht].
      apply IH. now apply counted_step.
    + destruct Hc as [[-> _] | (_ & <- & H)]; [now left | now right].
Qed.
End WordLimit.

(** X4: the word-limit policy of segment building either leaves the
    combined text of a window as it is, or returns a text of at most
    [maxWordsPerSegment] words (counted as the code counts them, by
    splitting at white space). *)
Theorem limitWords_within_limit (opts : SegmentationOptions)
        (combinedText : jsstring) :
  SegmentBuilder.limitWords opts combinedText = combinedText
  \/ of_nat (SegmentBuilder.wordCount
               (SegmentBuilder.limitWords opts combinedText))
     <= maxWordsPerSegment opts.
Proof.
  unfold SegmentBuilder.limitWords.
  destruct (ltb _ _ && preferSentenceBoundaries opts); [|now left].
  destruct (1 <? _)%nat; [|now left].
  destruct (@takeSentences_counted (maxWordsPerSegment opts)
              (split_sentences combinedText) [] 0%nat) as [E|H].
  - now left.
  - rewrite E. now left.
  - destruct (SegmentBuilder.takeSentences _ _ _ _) eqn:E;
      [now left | now right].
Qed.

(** ** Merging: the shape of the result *)

Section MergeShape.
Import CaptionProcessor.

Lemma mergeLoop_length rest : forall current merged,
  (List.length (mergeLoop rest current merged)
   <= List.length merged + 1 + List.length rest)%nat.
Proof.
  induction rest as [|next rest IH]; intros current merged; cbn [mergeLoop].
  - rewrite length_app. cbn. lia.
  - destruct (leb _ 2).
    + etransitivity; [apply IH|]. cbn. lia.
    + etransitivity; [apply IH|]. rewrite length_app. cbn. lia.
Qed.

Lemma last_cons_default {A} (l : list A) : forall a d1 d2,
  last (a :: l) d1 = last (a :: l) d2.
Proof.
  induction l as [|b l IH]; intros a d1 d2; [reflexivity|].
  change (last (b :: l) d1 = last (b :: l) d2). apply IH.
Qed.

Lemma mergeLoop_last rest : forall current merged d,
  endTime (last (mergeLoop rest current merged) d)
  = endTime (last rest current).
Proof.
  induction rest as [|next rest IH]; intros current merged d; cbn [mergeLoop].
  - now rewrite last_last.
  - destruct (leb _ 2); rewrite IH; (destruct rest as [|v rest]; [reflexivity|]);
      change (last (next :: v :: rest) current) with (last (v :: rest) current);
      f_equal; apply last_cons_default.
Qed.

Lemma separated_gaps l :
  separated l ->
  forall i a b, nth_error l i = Some a -> nth_error l (S i) = Some b ->
                2 < startTime b - endTime a.
Proof.
  induction l as [|x [|y l] IH]; intros H i a b Ha Hb.
  - destruct i; discriminate.
  - destruct i as [|[|i]]; discriminate.
  - destruct H as [Hxy H]. destruct i as [|i].
    + cbn in Ha, Hb. injection Ha as <-. injection Hb as <-.
      apply ltb_lt. unfold apart, ltb, leb in *. now rewrite Hxy.
    + apply (IH H i); assumption.
Qed.
End MergeShape.

(** X6: what [mergeAdjacentSegments] returns, in the backend and in
    the utilities module: never more segments than it was given and at
    least one when it was given any; the first segment starts where the
    first given segment starts and the last one ends where the last
    given segment ends; and any two neighbours of the result are more
    than 2 seconds apart. *)
Theorem mergeAdjacentSegments_shape (segments : list VideoSegment) :
  let out := CaptionProcessor.mergeAdjacentSegments segments in
  VideoUtils.mergeAdjacentSegments segments = out
  /\ (List.length out <= List.length segments)%nat
  /\ (out = [] <-> segments = [])
  /\ List.map startTime (firstn 1 out) = List.map startTime (firstn 1 segments)
  /\ (forall d, endTime (last out d) = endTime (last segments d))
  /\ (forall i a b,
         nth_error out i = Some a -> nth_error out (S i) = Some b ->
         2 < startTime b - endTime a).
Proof.
  cbv zeta. split; [reflexivity|].
  split; [|split; [|split; [|split]]].
  - destruct segments as [|a [|b l]]; cbn [CaptionProcessor.mergeAdjacentSegments];
      try apply Nat.le_refl.
    etransitivity; [apply mergeLoop_length|]. cbn. lia.
  - destruct segments as [|a [|b l]]; cbn [CaptionProcessor.mergeAdjacentSegments];
      try tauto.
    destruct (mergeLoop_head (b :: l) a) as (h & t & -> & _).
    split; discriminate.
  - destruct segments as [|a [|b l]]; cbn [CaptionProcessor.mergeAdjacentSegments];
      try reflexivity.
    destruct (mergeLoop_head (b :: l) a) as (h & t & -> & Hs).
    cbn. now rewrite Hs.
  - intros d.
    destruct segments as [|a [|b l]]; cbn [CaptionProcessor.mergeAdjacentSegments];
      try reflexivity.
    rewrite mergeLoop_last.
    change (last (a :: b :: l) d) with (last (b :: l) d).
    f_equal. apply last_cons_default.
  - apply separated_gaps, merge_separated.
Qed.

Lemma mergeAdjacentSegments_shape_witness :
  List.length (CaptionProcessor.mergeAdjacentSegments ciao_utility_segments)
  = 1%nat
  /\ forall d,
       endTime (last (CaptionProcessor.mergeAdjacentSegments
                        ciao_utility_segments) d) = 10.
Proof.
  destruct (mergeAdjacentSegments_shape ciao_utility_segments)
    as (_ & _ & _ & _ & Hlast & _).
  split; [reflexivity|]. intros d. now rewrite Hlast.
Defined.

(** ** Cleaning: the form of a cleaned text *)

Lemma trimmed_collapsed_form (u : jsstring) :
  let x := trim (collapse_spaces u) in
  trim x = x /\ collapse_spaces x = x
  /\ Forall (fun c => is_space c = true -> c = SP) x.
Proof.
  cbv zeta. rewrite !collapse_spaces_scan.
  set (x := trim (collapse_from false u)).
  assert (Hspaces : singleSpaced false x = true).
  { unfold x. destruct (trim_infix (collapse_from false u)) as (a & b & E).
    pose proof (collapse_singleSpaced u false) as H.
    rewrite E in H.
    apply singleSpaced_suffix in H.
    now apply singleSpaced_prefix in H. }
  split; [apply trim_twice|].
  split; [now apply collapse_fixed|].
  clearbody x. revert Hspaces. generalize false.
  induction x as [|c x IH]; intros b H; [constructor|].
  cbn [singleSpaced] in H. destruct (is_space c) eqn:E.
  - apply andb_true_iff in H. destruct H as [H Hx].
    apply andb_true_iff in H. destruct H as [_ Hc].
    constructor; [|now apply (IH true)].
    intros _. unfold char_eqb in Hc. now apply N.eqb_eq in Hc.
  - constructor; [intros Hc; congruence | now apply (IH false)].
Qed.

(** X7: a text cleaned by [cleanText], of the backend or of the
    utilities module, has no white space at its ends and no white
    space inside other than single spaces: trimming it or collapsing
    its white space again changes nothing.  The text cleaned by the
    utilities module holds no tag either. *)
Theorem cleanText_form (raw : jsstring) :
  let form x :=
    trim x = x /\ collapse_spaces x = x
    /\ Forall (fun c => is_space c = true -> c = SP) x in
  form (CaptionProcessor.cleanText raw)
  /\ form (VideoUtils.cleanText raw)
  /\ stripTags (VideoUtils.cleanText raw) = VideoUtils.cleanText raw.
Proof.
  cbv zeta. split; [apply trimmed_collapsed_form|].
  split; [apply trimmed_collapsed_form|].
  rewrite stripTags_scan. apply stripTags_fixed.
  unfold VideoUtils.cleanText.
  rewrite collapse_spaces_scan, stripBrackets_scan, stripTags_scan.
  eapply pairFree_subseq; [apply subseq_trim|].
  apply pairFree_collapse; try reflexivity.
  eapply pairFree_subseq; [apply subseq_stripBrackets|].
  apply stripTags_pairFree.
Qed.

(** ** Quality scoring: the range of the score, and what is repaired *)

Ltac score_cases :=
  repeat match goal with
         | |- context [if ?b then _ else _] => destruct b
         end.

(** X8: the score [assessSegmentQuality] gives is above 0 and at most
    1 (the deductions never add up to the whole score, so the floor of
    0 is never what is returned), it is 1 exactly when no issue is
    reported, and there are never more suggestions than issues. *)
Theorem assessSegmentQuality_score_range (segment : VideoSegment) :
  let q := VideoUtils.assessSegmentQuality segment in
  0 < VideoUtils.score q /\ VideoUtils.score q <= 1
  /\ (VideoUtils.score q == 1 <-> VideoUtils.issues q = [])
  /\ (List.length (VideoUtils.suggestions q)
      <= List.length (VideoUtils.issues q))%nat.
Proof.
  cbv zeta. unfold VideoUtils.assessSegmentQuality.
  score_cases; cbn -[Qlt Qle Qeq]; vm_compute;
    (split; [reflexivity|]); (split; [discriminate|]);
    (split; [split; intros H; (reflexivity || discriminate)|]);
    repeat constructor.
Qed.

(** X9: a segment with at most one issue is not repaired:
    [optimizeSegments] returns it as it is.  A segment whose only
    issue is its missing translation scores exactly 0.8 and so keeps
    its empty translation; a text that only has formatting characters
    is not cleaned. *)
Theorem optimizeSegment_needs_two_issues (segment : VideoSegment) :
  (List.length (VideoUtils.issues (VideoUtils.assessSegmentQuality segment))
   <= 1)%nat ->
  VideoUtils.optimizeSegments [segment] = [segment].
Proof.
  intros Hlen. cbn [VideoUtils.optimizeSegments List.map]. f_equal.
  rewrite optimizeSegment_cases.
  assert (Hrepaired :
            VideoUtils.missingTranslation segment = false ->
            hasFormatting segment = false ->
            repaired segment = segment).
  { intros Hm Hf. unfold repaired. rewrite Hm, Hf. now destruct segment. }
  unfold hasFormatting in Hrepaired.
  remember (VideoUtils.assessSegmentQuality segment) as q eqn:Eq.
  unfold VideoUtils.assessSegmentQuality in Eq.
  destruct (VideoUtils.missingTranslation segment);
    destruct (hasFormattingCharacter (text segment));
    repeat match type of Eq with
           | context [if ?b then _ else _] => destruct b
           end;
    subst q;
    cbn [VideoUtils.issues VideoUtils.issue VideoUtils.suggest
         VideoUtils.score List.length app] in *;
    try lia;
    match goal with
    | |- (if geb ?a ?b then _ else _) = _ =>
        let v := eval vm_compute in (geb a b) in
        change (geb a b) with v; cbv iota
    end; try reflexivity; now apply Hrepaired.
Qed.

(** A spoken line of five seconds that has no translation yet. *)
Definition untranslated_segment : VideoSegment :=
  mkSegment (js "1") 0 5 (js "Ciao, come stai?") None None None.

Lemma optimizeSegment_needs_two_issues_witness :
  VideoUtils.optimizeSegments [untranslated_segment] = [untranslated_segment]
  /\ translation untranslated_segment = None.
Proof.
  split; [|reflexivity].
  apply optimizeSegment_needs_two_issues. vm_compute. lia.
Defined.

(** ** The caption parsers: what every emitted caption satisfies *)

Section PlainText.
Import CaptionProcessor.

(** The [i]-th caption fills the [i]-th slot of three seconds. *)
Definition inSlots (captions : list CaptionData) : Prop :=
  forall i c, nth_error captions i = Some c ->
              start c == 3 * of_nat i /\ end_ c == 3 * of_nat i + 3
              /\ caption_text c <> [] /\ trim (caption_text c) = caption_text c.

Lemma of_nat_S n : of_nat (S n) == of_nat n + 1.
Proof.
  unfold of_nat. rewrite Nat2Z.inj_succ. unfold Z.succ.
  now rewrite inject_Z_plus.
Qed.

Lemma plainLoop_slots sentences : forall currentTime captions,
  currentTime == 3 * of_nat (List.length captions) ->
  inSlots captions ->
  inSlots (plainLoop sentences currentTime captions).
Proof.
  induction sentences as [|sentence sentences IH];
    intros currentTime captions Ht Hc; cbn [plainLoop]; [exact Hc|].
  destruct (truthy (trim sentence)) eqn:E; [|now apply IH].
  apply IH.
  - rewrite length_app, Nat.add_1_r, of_nat_S, Ht. ring.
  - intros i c Hi.
    destruct (Nat.lt_ge_cases i (List.length captions)) as [Hlt|Hge].
    + rewrite nth_error_app1 in Hi by exact Hlt. now apply Hc.
    + rewrite nth_error_app2 in Hi by exact Hge.
      destruct (i - List.length captions)%nat as [|[|k]] eqn:Ek;
        cbn in Hi; try discriminate.
      injection Hi as <-. cbn [start end_ caption_text].
      assert (i = List.length captions) by lia. subst i.
      repeat split.
      * exact Ht.
      * rewrite Ht. reflexivity.
      * intros H. rewrite H in E. discriminate.
      * apply trim_twice.
Qed.

Lemma inSlots_valid captions :
  inSlots captions -> Forall validCaption captions.
Proof.
  intros H. apply Forall_forall. intros c Hc.
  apply In_nth_error in Hc. destruct Hc as [i Hi].
  destruct (H i c Hi) as (Hs & He & Ht & _).
  assert (0 <= of_nat i).
  { unfold of_nat. change 0 with (inject_Z 0). rewrite <- Zle_Qle. lia. }
  repeat split; [exact Ht | lra | lra].
Qed.

Lemma parsePlainText_inSlots text_ : inSlots (parsePlainText text_).
Proof.
  unfold parsePlainText. apply plainLoop_slots.
  - cbn. reflexivity.
  - intros [|i] c H; discriminate.
Qed.
End PlainText.

(** X10: whatever the format [parseCaptions] takes the payload for
    (paragraph tags, arrow-style blocks or plain text), every caption
    it returns has a text that is not empty, a start that is not
    negative and an end after its start. *)
Theorem parseCaptions_valid (captionText : jsstring)
        (captions : list CaptionData) :
  CaptionProcessor.parseCaptions captionText = Some captions ->
  Forall (fun c => caption_text c <> [] /\ 0 <= start c /\ start c < end_ c)
         captions.
Proof.
  unfold CaptionProcessor.parseCaptions.
  destruct (_ || _).
  - intros H. apply parseTTML_valid in H.
    eapply Forall_impl; [|exact H]. now intros c [Hc _].
  - destruct (includes _ _).
    + apply parseSRT_valid.
    + intros H. injection H as <-.
      apply inSlots_valid, parsePlainText_inSlots.
Qed.

(** What the arrow-style parser returns for the three blocks of
    [music_srt]. *)
Definition music_srt_captions : list CaptionData :=
  Eval vm_compute in
    match CaptionProcessor.parseCaptions music_srt with
    | Some captions => captions
    | None => []
    end.

Lemma parseCaptions_valid_witness :
  Forall (fun c => caption_text c <> [] /\ 0 <= start c /\ start c < end_ c)
         music_srt_captions
  /\ List.length music_srt_captions = 2%nat.
Proof.
  split; [|reflexivity].
  apply (@parseCaptions_valid music_srt). vm_compute. reflexivity.
Defined.

(** X11: a payload without timing is cut into sentences that are
    given consecutive slots of three seconds from time 0: the caption
    at index [i] starts at [3 i] and ends at [3 i + 3], and its text
    is a trimmed sentence that is not empty. *)
Theorem parsePlainText_slots (text_ : jsstring) (i : nat) (c : CaptionData) :
  nth_error (CaptionProcessor.parsePlainText text_) i = Some c ->
  start c == 3 * of_nat i /\ end_ c == 3 * of_nat i + 3
  /\ caption_text c <> [] /\ trim (caption_text c) = caption_text c.
Proof. apply parsePlainText_inSlots. Qed.

(** The second sentence of a plain payload of three. *)
Definition sto_bene : CaptionData :=
  Eval vm_compute in
    nth 1 (CaptionProcessor.parsePlainText (js "Ciao. Sto bene! E tu?"))
        (mkCaption 0 0 []).

Lemma parsePlainText_slots_witness :
  start sto_bene == 3 * of_nat 1 /\ caption_text sto_bene = js "Sto bene".
Proof.
  split; [|reflexivity].
  refine (proj1 (@parsePlainText_slots (js "Ciao. Sto bene! E tu?") 1
                   sto_bene _)).
  vm_compute. reflexivity.
Defined.

(** ** The orchestrator: the paths of a job *)

Section JobPaths.
Import Effects VideoProcessingService.
Variable tools : Tools.
Variable video : jsstring.

Lemma attemptsSoFar_record segment retryCount w :
  attemptsSoFar (record (Attempt video segment retryCount) w)
  = S (attemptsSoFar w).
Proof.
  unfold attemptsSoFar, record. cbn [events].
  rewrite filter_app, length_app. cbn. lia.
Qed.

Lemma extractOnce_extracted segment retryCount w :
  extraction tools (attemptsSoFar w) video segment = Extracted ->
  extractOnce tools video segment retryCount w
  = (Ret tt, record (Attempt video segment retryCount) w).
Proof. intros H. unfold extractOnce. now rewrite H. Qed.

Lemma extractOnce_not_extracted segment retryCount w :
  extraction tools (attemptsSoFar w) video segment <> Extracted ->
  exists m,
    extractOnce tools video segment retryCount w
    = (Throw (Error m), record (Attempt video segment retryCount) w).
Proof.
  intros H. unfold extractOnce.
  destruct (extraction tools _ video segment); [congruence | eauto | eauto].
Qed.

(** A segment whose extraction fails [more] times and then succeeds,
    within the retries allowed. *)
Lemma processSegmentFrom_recovers segment (more : nat) :
  forall retryCount fuel w,
    (retryCount + more <= maxRetries)%nat ->
    (forall j, (j < more)%nat ->
               extraction tools (attemptsSoFar w + j) video segment
               <> Extracted) ->
    extraction tools (attemptsSoFar w + more) video segment = Extracted ->
    processSegmentFrom (S more + fuel) tools video segment retryCount w
    = (Ret tt,
       mkWorld (progressMap w) (clock w + retryWait retryCount more)
               (events w ++ retryTrace video segment retryCount more)).
Proof.
  induction more as [|more IH]; intros retryCount fuel w Hcount Hfail Hok;
    cbn [Nat.add]; rewrite processSegmentFrom_turn; unfold try_catch at 1.
  - rewrite Nat.add_0_r in Hok.
    rewrite (extractOnce_extracted _ _ _ Hok).
    unfold record. cbn. now rewrite Z.add_0_r.
  - destruct (@extractOnce_not_extracted segment retryCount w) as [m ->].
    { specialize (Hfail 0%nat). rewrite Nat.add_0_r in Hfail.
      apply Hfail. lia. }
    assert (E : (retryCount <? maxRetries)%nat = true)
      by (apply Nat.ltb_lt; lia).
    rewrite E. unfold bind, sleep, modify.
    set (w1 := mkWorld _ _ _).
    assert (Hw1 : attemptsSoFar w1 = S (attemptsSoFar w)).
    { unfold w1, attemptsSoFar, record. cbn [events].
      rewrite !filter_app, !length_app. cbn. lia. }
    pose proof (IH (S retryCount) fuel w1) as Hrest.
    cbn [Nat.add] in Hrest. rewrite Hrest.
    + unfold w1, record. cbn. f_equal. f_equal; [lia|].
      now rewrite <- !app_assoc.
    + lia.
    + intros j Hj. rewrite Hw1.
      replace (S (attemptsSoFar w) + j)%nat
        with (attemptsSoFar w + S j)%nat by lia.
      apply Hfail. lia.
    + rewrite Hw1.
      replace (S (attemptsSoFar w) + more)%nat
        with (attemptsSoFar w + S more)%nat by lia.
      exact Hok.
Qed.
End JobPaths.

(** X12: a segment whose extraction fails [k] times, [k] at most 3,
    and then succeeds is processed without an exception: [k + 1]
    attempts are made, with a wait of 2, 4, ... seconds (2 seconds
    times the number of the retry) after each failed one, and the
    progress map is not touched. *)
Theorem processSegment_recovers_within_retries
        (tools : VideoProcessingService.Tools) (video : jsstring)
        (segment : VideoSegment) (k : nat)
        (w : VideoProcessingService.World) :
  (k <= VideoProcessingService.maxRetries)%nat ->
  (forall j, (j < k)%nat ->
     VideoProcessingService.extraction tools
       (VideoProcessingService.attemptsSoFar w + j) video segment
     <> VideoProcessingService.Extracted) ->
  VideoProcessingService.extraction tools
    (VideoProcessingService.attemptsSoFar w + k) video segment
  = VideoProcessingService.Extracted ->
  VideoProcessingService.processSegment tools video segment w
  = (Ret tt,
     VideoProcessingService.mkWorld
       (VideoProcessingService.progressMap w)
       (VideoProcessingService.clock w + retryWait 0 k)
       (VideoProcessingService.events w ++ retryTrace video segment 0 k))
  /\ retryWait 0 k = (1000 * Z.of_nat k * (Z.of_nat k + 1))%Z
  /\ List.length (retryTrace video segment 0 k) = (2 * k + 1)%nat.
Proof.
  intros Hk Hfail Hok. split; [|split].
  - unfold VideoProcessingService.processSegment.
    replace (S VideoProcessingService.maxRetries)
      with (S k + (VideoProcessingService.maxRetries - k))%nat by lia.
    now apply processSegmentFrom_recovers.
  - unfold VideoProcessingService.maxRetries in Hk.
    destruct k as [|[|[|[|k]]]]; try reflexivity. lia.
  - unfold VideoProcessingService.maxRetries in Hk.
    destruct k as [|[|[|[|k]]]]; try reflexivity. lia.
Qed.

(** A tool that fails twice and then works. *)
Definition thirdTimeLucky : VideoProcessingService.Tools :=
  VideoProcessingService.mkTools
    (fun n _ _ => if (n <? 2)%nat
                  then VideoProcessingService.Rejected (Error (js "busy"))
                  else VideoProcessingService.Extracted)
    (fun _ => None).

Lemma processSegment_recovers_within_retries_witness :
  VideoProcessingService.processSegment thirdTimeLucky (js "abc") one_segment
    (freshWorld 1000)
  = (Ret tt,
     VideoProcessingService.mkWorld [] 7000
       [ VideoProcessingService.Attempt (js "abc") one_segment 0;
         VideoProcessingService.Wait 2000;
         VideoProcessingService.Attempt (js "abc") one_segment 1;
         VideoProcessingService.Wait 4000;
         VideoProcessingService.Attempt (js "abc") one_segment 2 ]).
Proof.
  refine (proj1 (@processSegment_recovers_within_retries
                   thirdTimeLucky (js "abc") one_segment 2
                   (freshWorld 1000) _ _ _)).
  - unfold VideoProcessingService.maxRetries. lia.
  - intros [|[|j]] Hj; cbn; try discriminate. lia.
  - reflexivity.
Defined.

(** ** The orchestrator: what a job leaves in the progress map *)

Lemma str_eqb_eq (a b : jsstring) : str_eqb a b = true <-> a = b.
Proof.
  revert b. induction a as [|x a IH]; intros [|y b]; cbn; try easy.
  rewrite andb_true_iff, IH. unfold char_eqb. rewrite N.eqb_eq.
  split; [intros [-> ->]; reflexivity | intros H; injection H; auto].
Qed.

Lemma str_eqb_neq (a b : jsstring) : a <> b -> str_eqb a b = false.
Proof.
  intros H. destruct (str_eqb a b) eqn:E; [|reflexivity].
  now apply str_eqb_eq in E.
Qed.

Section JobFrame.
Import Effects VideoProcessingService.
Variable tools : Tools.
Variable video : jsstring.
Variable progressId : jsstring.

Lemma map_get_set_other key value m :
  key <> progressId ->
  map_get key (map_set progressId value m) = map_get key m.
Proof.
  intros Hkey. induction m as [|[k v] m IH]; cbn.
  - now rewrite (str_eqb_neq Hkey).
  - destruct (str_eqb progressId k) eqn:E; cbn.
    + apply str_eqb_eq in E. subst k. now rewrite (str_eqb_neq Hkey).
    + now rewrite IH.
Qed.

(** What stays of a job record through the updates of the loop. *)
Definition sameJob (p p' : ProcessingProgress) : Prop :=
  videoId p' = videoId p /\ status p' = status p
  /\ totalSegments p' = totalSegments p
  /\ jobStartTime p' = jobStartTime p /\ error p' = error p
  /\ jobEndTime p' = jobEndTime p.

(** From [w] to [w']: the records under the other keys are the same,
    and the record of the job is still there. *)
Definition jobKept (w w' : World) : Prop :=
  (forall key, key <> progressId ->
               map_get key (progressMap w') = map_get key (progressMap w))
  /\ (forall p, jobRecord progressId w = Some p ->
                exists p', jobRecord progressId w' = Some p' /\ sameJob p p').

Lemma sameJob_refl p : sameJob p p.
Proof. now repeat split. Qed.

Lemma jobKept_refl w : jobKept w w.
Proof.
  split; [reflexivity|]. intros p H. exists p. split; [exact H|].
  apply sameJob_refl.
Qed.

Lemma jobKept_trans w1 w2 w3 : jobKept w1 w2 -> jobKept w2 w3 -> jobKept w1 w3.
Proof.
  intros [F12 J12] [F23 J23]. split.
  - intros key Hkey. now rewrite F23, F12.
  - intros p Hp. destruct (J12 p Hp) as (p2 & Hp2 & S2).
    destruct (J23 p2 Hp2) as (p3 & Hp3 & S3).
    exists p3. split; [exact Hp3|].
    destruct S2 as (a & b & c & d & e & f), S3 as (a' & b' & c' & d' & e' & f').
    repeat split; congruence.
Qed.

Lemma processSegmentFrom_map segment fuel : forall retryCount w,
  progressMap (snd (processSegmentFrom fuel tools video segment retryCount w))
  = progressMap w.
Proof.
  induction fuel as [|fuel IH]; intros retryCount w; [reflexivity|].
  rewrite processSegmentFrom_turn. unfold try_catch, extractOnce.
  destruct (extraction tools _ video segment); cbn [snd]; try reflexivity;
    (destruct (retryCount <? maxRetries)%nat;
     [ unfold bind, sleep, modify; rewrite IH; reflexivity | reflexivity ]).
Qed.

Lemma processSegment_jobKept segment w :
  jobKept w (snd (processSegment tools video segment w)).
Proof.
  unfold jobKept, jobRecord, processSegment.
  rewrite processSegmentFrom_map. split; [reflexivity|].
  intros p H. exists p. split; [exact H | apply sameJob_refl].
Qed.

(** An update of the progress and of the current segment. *)
Lemma loopUpdate_jobKept prog cur w :
  jobKept w (snd (updateProgress progressId
                    (mkUpdate None None (Some prog) (Some cur)
                              None None None None) w)).
Proof.
  unfold updateProgress, modify. cbn [snd].
  destruct (map_get progressId (progressMap w)) as [current|] eqn:E;
    [|apply jobKept_refl].
  split; cbn [progressMap].
  - intros key Hkey. now apply map_get_set_other.
  - intros p Hp. unfold jobRecord in *. cbn [progressMap].
    rewrite map_get_set. eexists. split; [reflexivity|].
    rewrite E in Hp. injection Hp as <-. now repeat split.
Qed.

Lemma segmentsLoop_jobKept total remaining : forall i w,
  jobKept w (snd (segmentsLoop tools video progressId total remaining i w)).
Proof.
  induction remaining as [|segment remaining IH]; intros i w;
    cbn [segmentsLoop]; [apply jobKept_refl|].
  unfold bind at 1.
  pose proof (loopUpdate_jobKept
                (Math_round (of_nat i / of_nat total * 100)) (i + 1)%nat w)
    as H1.
  destruct (updateProgress progressId _ w) as [[[]|e|] w1] eqn:E1;
    cbn [snd] in *; try exact H1.
  unfold bind at 1.
  pose proof (processSegment_jobKept segment w1) as H2.
  destruct (processSegment tools video segment w1) as [[[]|e|] w2];
    cbn [snd] in *;
    try exact (jobKept_trans H1 H2).
  exact (jobKept_trans H1 (jobKept_trans H2 (IH (S i) w2))).
Qed.
End JobFrame.

Section JobEnd.
Import Effects VideoProcessingService.
Variable tools : Tools.
Variable video : jsstring.
Variable segments : list VideoSegment.
Variable w : World.

(** The key of the job and its first record. *)
Definition jobKey : jsstring := video ++ js "_" ++ int_to_string (clock w).

Definition firstRecord : ProcessingProgress :=
  mkProgress video pending 0 None (Some (List.length segments)) None
             (Some (clock w)) None.

Definition started : World :=
  mkWorld (map_set jobKey firstRecord (progressMap w)) (clock w) (events w).

(** The [try] block and the [catch] block of [processSegments]. *)
Definition tryBlock : M World unit :=
  bind (ensureDirectories tools) (fun _ =>
  bind (updateProgress jobKey
          (mkUpdate None (Some processing) None None None None None None))
       (fun _ =>
  bind (segmentsLoop tools video jobKey (List.length segments) segments 0)
       (fun _ =>
  bind now (fun t1 =>
  updateProgress jobKey
    (mkUpdate None (Some completed) (Some 100) None None None None
              (Some t1)))))).

Definition catchBlock (e : Thrown) : M World unit :=
  updateProgress jobKey
    (mkUpdate None (Some failed) None None None
              (Some (messageOr "Unknown error" e)) None None).

Lemma processSegments_blocks :
  processSegments tools video segments w
  = try_catch tryBlock catchBlock started.
Proof. reflexivity. Qed.

Lemma started_jobKept : 
  (forall key, key <> jobKey ->
               map_get key (progressMap started) = map_get key (progressMap w))
  /\ jobRecord jobKey started = Some firstRecord.
Proof.
  split.
  - intros key Hkey. now apply map_get_set_other.
  - apply map_get_set.
Qed.

(** A closing update: it writes the status, and keeps the rest. *)
Lemma closing_update st prog err t1 w1 p :
  jobRecord jobKey w1 = Some p ->
  exists w' p',
    updateProgress jobKey
      (mkUpdate None (Some st) prog None None err None t1) w1 = (Ret tt, w')
    /\ jobRecord jobKey w' = Some p'
    /\ status p' = st /\ videoId p' = videoId p
    /\ totalSegments p' = totalSegments p
    /\ jobStartTime p' = jobStartTime p
    /\ error p' = or_keep (error p) err
    /\ progress p' = or_default (progress p) prog
    /\ jobEndTime p' = or_keep (jobEndTime p) t1
    /\ currentSegment p' = currentSegment p
    /\ clock w' = clock w1 /\ events w' = events w1
    /\ (forall key, key <> jobKey ->
          map_get key (progressMap w') = map_get key (progressMap w1)).
Proof.
  intros Hp. unfold updateProgress, modify. unfold jobRecord in Hp.
  rewrite Hp. eexists _, _. split; [reflexivity|].
  unfold jobRecord. cbn [progressMap clock events].
  rewrite map_get_set. split; [reflexivity|].
  repeat split. intros key Hkey. now apply map_get_set_other.
Qed.
End JobEnd.

(** The record of a job when [processSegments] returns. *)
Lemma processSegments_settles_job_record
        (tools : VideoProcessingService.Tools) (video : jsstring)
        (segments : list VideoSegment) (w : VideoProcessingService.World) :
  exists w' job,
    VideoProcessingService.processSegments tools video segments w
    = (Ret tt, w')
    /\ VideoProcessingService.map_get (jobKey video w)
         (VideoProcessingService.progressMap w') = Some job
    /\ VideoProcessingService.videoId job = video
    /\ VideoProcessingService.totalSegments job = Some (List.length segments)
    /\ VideoProcessingService.jobStartTime job
       = Some (VideoProcessingService.clock w)
    /\ ((VideoProcessingService.status job = VideoProcessingService.completed
         /\ VideoProcessingService.progress job = 100
         /\ VideoProcessingService.jobEndTime job
            = Some (VideoProcessingService.clock w')
         /\ VideoProcessingService.error job = None)
        \/ (VideoProcessingService.status job = VideoProcessingService.failed
            /\ VideoProcessingService.error job <> None
            /\ VideoProcessingService.jobEndTime job = None))
    /\ (forall key, key <> jobKey video w ->
          VideoProcessingService.map_get key
            (VideoProcessingService.progressMap w')
          = VideoProcessingService.map_get key
              (VideoProcessingService.progressMap w)).
Proof.
  destruct (started_jobKept video segments w) as [Hframe0 Hjob0].
  assert (Hfailed : forall e w1 p,
             jobRecord (jobKey video w) w1 = Some p ->
             VideoProcessingService.videoId p = video ->
             VideoProcessingService.totalSegments p
             = Some (List.length segments) ->
             VideoProcessingService.jobStartTime p
             = Some (VideoProcessingService.clock w) ->
             VideoProcessingService.jobEndTime p = None ->
             (forall key, key <> jobKey video w ->
                VideoProcessingService.map_get key
                  (VideoProcessingService.progressMap w1)
                = VideoProcessingService.map_get key
                    (VideoProcessingService.progressMap w)) ->
             exists w' job,
               catchBlock video w e w1 = (Ret tt, w')
               /\ VideoProcessingService.map_get (jobKey video w)
                    (VideoProcessingService.progressMap w') = Some job
               /\ VideoProcessingService.videoId job = video
               /\ VideoProcessingService.totalSegments job
                  = Some (List.length segments)
               /\ VideoProcessingService.jobStartTime job
                  = Some (VideoProcessingService.clock w)
               /\ (VideoProcessingService.status job
                   = VideoProcessingService.failed
                   /\ VideoProcessingService.error job <> None
                   /\ VideoProcessingService.jobEndTime job = None)
               /\ (forall key, key <> jobKey video w ->
                     VideoProcessingService.map_get key
                       (VideoProcessingService.progressMap w')
                     = VideoProcessingService.map_get key
                         (VideoProcessingService.progressMap w))).
  { intros e w1 p Hp Sv St Ss Se Hframe.
    destruct (@closing_update video w VideoProcessingService.failed None
                (Some (messageOr "Unknown error" e)) None w1 p Hp)
      as (w' & p' & E & Hp' & Hst & Hv & Ht & Hs & He & _ & Hend & _ & _ & _ & Hf).
    exists w', p'. split; [exact E|]. split; [exact Hp'|].
    split; [now rewrite Hv, Sv|]. split; [now rewrite Ht, St|].
    split; [now rewrite Hs, Ss|].
    split.
    - split; [exact Hst|]. split; [rewrite He; discriminate|].
      now rewrite Hend, Se.
    - intros key Hkey. now rewrite Hf, Hframe. }
  rewrite processSegments_blocks.
  unfold Effects.try_catch, tryBlock.
  unfold Effects.bind at 1.
  unfold VideoProcessingService.ensureDirectories.
  destruct (VideoProcessingService.mkdir tools VideoProcessingService.AudioDir)
    as [e|].
  { destruct (Hfailed e _ _ Hjob0 eq_refl eq_refl eq_refl eq_refl Hframe0)
      as (w' & job & E & H). exists w', job. split; [exact E|]. tauto. }
  destruct (VideoProcessingService.mkdir tools VideoProcessingService.VideoDir)
    as [e|].
  { destruct (Hfailed e _ _ Hjob0 eq_refl eq_refl eq_refl eq_refl Hframe0)
      as (w' & job & E & H). exists w', job. split; [exact E|]. tauto. }
  unfold Effects.bind at 1.
  destruct (@closing_update video w VideoProcessingService.processing None None
              None _ _ Hjob0)
    as (w1 & p1 & -> & Hp1 & _ & Hv1 & Ht1 & Hs1 & He1 & _ & Hend1 & _ & _ & _ & Hf1).
  unfold Effects.bind at 1.
  pose proof (@segmentsLoop_jobKept tools video (jobKey video w)
                (List.length segments) segments 0%nat w1) as [Hf2 Hj2].
  pose proof (@segmentsLoop_has_result tools video (jobKey video w)
                (List.length segments) segments 0%nat w1) as Hres.
  destruct (Hj2 p1 Hp1) as (p2 & Hp2 & Sv & _ & St & Ss & Se & Sd).
  destruct (VideoProcessingService.segmentsLoop tools video (jobKey video w)
              (List.length segments) segments 0 w1) as [[[]|e|] w2];
    cbn [fst snd] in *; [| |congruence].
  - unfold Effects.bind at 1,
      VideoProcessingService.now.
    destruct (@closing_update video w VideoProcessingService.completed
                (Some 100) None (Some (VideoProcessingService.clock w2))
                w2 p2 Hp2)
      as (w' & p' & E & Hp' & Hst & Hv & Ht & Hs & He & Hprog & Hend & _
          & Hclock & _ & Hf).
    exists w', p'. split; [exact E|]. split; [exact Hp'|].
    split; [now rewrite Hv, Sv, Hv1|]. split; [now rewrite Ht, St, Ht1|].
    split; [now rewrite Hs, Ss, Hs1|].
    split.
    + left. split; [exact Hst|]. split; [exact Hprog|].
      split; [now rewrite Hend, Hclock|].
      now rewrite He, Se, He1.
    + intros key Hkey. now rewrite Hf, Hf2, Hf1, Hframe0.
  - destruct (Hfailed e w2 p2 Hp2) as (w' & job & E & H).
    + now rewrite Sv, Hv1.
    + now rewrite St, Ht1.
    + now rewrite Ss, Hs1.
    + now rewrite Sd, Hend1.
    + intros key Hkey. now rewrite Hf2, Hf1, Hframe0.
    + exists w', job. split; [exact E|]. tauto.
Qed.

(** X13: whatever the tools do, [processSegments] returns normally
    and leaves the record of its job settled: its status is
    [completed], with progress 100, an end time and no error, or it is
    [failed], with an error message and no end time; the record keeps
    the video id, the number of segments and the start time it was
    created with; and the records under all other keys of the progress
    map are what they were. *)
Theorem processSegments_settles_its_job
        (tools : VideoProcessingService.Tools) (video : jsstring)
        (segments : list VideoSegment) (w : VideoProcessingService.World) :
  exists w' job,
    VideoProcessingService.processSegments tools video segments w
    = (Ret tt, w')
    /\ VideoProcessingService.map_get (jobKey video w)
         (VideoProcessingService.progressMap w') = Some job
    /\ VideoProcessingService.videoId job = video
    /\ VideoProcessingService.totalSegments job = Some (List.length segments)
    /\ VideoProcessingService.jobStartTime job
       = Some (VideoProcessingService.clock w)
    /\ ((VideoProcessingService.status job = VideoProcessingService.completed
         /\ VideoProcessingService.progress job = 100
         /\ VideoProcessingService.jobEndTime job
            = Some (VideoProcessingService.clock w')
         /\ VideoProcessingService.error job = None)
        \/ (VideoProcessingService.status job = VideoProcessingService.failed
            /\ VideoProcessingService.error job <> None
            /\ VideoProcessingService.jobEndTime job = None))
    /\ (forall key, key <> jobKey video w ->
          VideoProcessingService.map_get key
            (VideoProcessingService.progressMap w')
          = VideoProcessingService.map_get key
              (VideoProcessingService.progressMap w)).
Proof.
  destruct (processSegments_settles_job_record tools video segments w)
    as (w' & job & Hrun & Hjob & Hvideo & Htotal & Hstart & Hstatus & Hframe).
  exists w', job. split; [exact Hrun|]. split; [exact Hjob|].
  split; [exact Hvideo|]. split; [exact Htotal|]. split; [exact Hstart|].
  split; [|exact Hframe].
  destruct Hstatus as [Hcompleted | Hfailed]; [now left | now right].
Qed.

Lemma processSegments_settles_its_job_witness :
  exists job,
    VideoProcessingService.map_get (js "abc_1000")
      (VideoProcessingService.progressMap
         (snd (VideoProcessingService.processSegments failingTools (js "abc")
                 [one_segment] (freshWorld 1000)))) = Some job
    /\ VideoProcessingService.videoId job = js "abc"
    /\ VideoProcessingService.totalSegments job = Some 1%nat.
Proof.
  destruct (processSegments_settles_its_job failingTools (js "abc")
              [one_segment] (freshWorld 1000))
    as (w' & job & E & Hjob & Hvideo & Htotal & _).
  exists job. rewrite E. now repeat split.
Defined.

Section SmoothJob.
Import Effects VideoProcessingService.
Variable tools : Tools.
Variable video : jsstring.
Variable progressId : jsstring.
Variable total : nat.

(** The loop over segments that are all extracted at the first try. *)
Lemma segmentsLoop_all_extracted remaining : forall i w current,
  jobRecord progressId w = Some current ->
  (forall n x, In x remaining -> extraction tools n video x = Extracted) ->
  exists w' p,
    segmentsLoop tools video progressId total remaining i w = (Ret tt, w')
    /\ jobRecord progressId w' = Some p
    /\ currentSegment p
       = match remaining with
         | [] => currentSegment current
         | _ :: _ => Some (i + List.length remaining)%nat
         end
    /\ clock w' = clock w
    /\ events w'
       = events w ++ List.map (fun x => Attempt video x 0) remaining.
Proof.
  induction remaining as [|x remaining IH]; intros i w current Hjob Hall;
    cbn [segmentsLoop].
  - exists w, current. rewrite app_nil_r. now repeat split.
  - unfold bind at 1.
    destruct (@updateProgress_spec progressId
                (mkUpdate None None
                   (Some (Math_round (of_nat i / of_nat total * 100)))
                   (Some (i + 1)%nat) None None None None) w current Hjob)
      as (w1 & -> & Hjob1 & Hclock1 & Hevents1).
    unfold bind at 1.
    rewrite processSegment_extracted by (apply Hall; now left).
    destruct (IH (S i) (record (Attempt video x 0) w1) _ Hjob1)
      as (w' & p & -> & Hjob' & Hcur & Hclock & Hevents).
    { intros n y Hy. apply Hall. now right. }
    exists w', p. split; [reflexivity|]. split; [exact Hjob'|].
    split; [|split].
    + rewrite Hcur. destruct remaining; cbn; f_equal; lia.
    + rewrite Hclock. cbn. exact Hclock1.
    + rewrite Hevents. cbn. rewrite Hevents1, <- app_assoc. reflexivity.
Qed.
End SmoothJob.

(** X14: when the directories can be made and every segment is
    extracted at the first try, the job makes exactly one attempt per
    segment, in the order of the segments, and never waits; its record
    ends [completed] with the number of the last segment as current
    segment. *)
Theorem processSegments_all_extracted
        (tools : VideoProcessingService.Tools) (video : jsstring)
        (segments : list VideoSegment) (w : VideoProcessingService.World) :
  (forall d, VideoProcessingService.mkdir tools d = None) ->
  (forall n s, In s segments ->
     VideoProcessingService.extraction tools n video s
     = VideoProcessingService.Extracted) ->
  exists w' job,
    VideoProcessingService.processSegments tools video segments w
    = (Ret tt, w')
    /\ VideoProcessingService.map_get (jobKey video w)
         (VideoProcessingService.progressMap w') = Some job
    /\ VideoProcessingService.status job = VideoProcessingService.completed
    /\ VideoProcessingService.currentSegment job
       = match segments with
         | [] => None
         | _ :: _ => Some (List.length segments)
         end
    /\ VideoProcessingService.clock w' = VideoProcessingService.clock w
    /\ VideoProcessingService.events w'
       = VideoProcessingService.events w
         ++ List.map (fun s => VideoProcessingService.Attempt video s 0)
                     segments.
Proof.
  intros Hmkdir Hall.
  destruct (started_jobKept video segments w) as [_ Hjob0].
  rewrite processSegments_blocks.
  unfold Effects.try_catch, tryBlock.
  unfold Effects.bind at 1, VideoProcessingService.ensureDirectories.
  rewrite !Hmkdir.
  unfold Effects.bind at 1.
  destruct (@closing_update video w VideoProcessingService.processing None None
              None _ _ Hjob0)
    as (w1 & p1 & -> & Hp1 & _ & _ & _ & _ & _ & _ & _ & Hcur1 & Hclock1
        & Hevents1 & _).
  unfold Effects.bind at 1.
  destruct (@segmentsLoop_all_extracted tools video (jobKey video w)
              (List.length segments) segments 0%nat w1 p1 Hp1 Hall)
    as (w2 & p2 & -> & Hp2 & Hcur2 & Hclock2 & Hevents2).
  unfold Effects.bind at 1, VideoProcessingService.now.
  destruct (@closing_update video w VideoProcessingService.completed
              (Some 100) None (Some (VideoProcessingService.clock w2))
              w2 p2 Hp2)
    as (w' & p' & -> & Hp' & Hst & _ & _ & _ & _ & _ & _ & Hcur & Hclock
        & Hevents & _).
  exists w', p'. split; [reflexivity|]. split; [exact Hp'|].
  split; [exact Hst|]. split; [|split].
  - rewrite Hcur, Hcur2. destruct segments; [exact Hcur1 | reflexivity].
  - now rewrite Hclock, Hclock2, Hclock1.
  - now rewrite Hevents, Hevents2, Hevents1.
Qed.

(** A tool that works at once. *)
Definition workingTools : VideoProcessingService.Tools :=
  VideoProcessingService.mkTools
    (fun _ _ _ => VideoProcessingService.Extracted) (fun _ => None).

Lemma processSegments_all_extracted_witness :
  VideoProcessingService.events
    (snd (VideoProcessingService.processSegments workingTools (js "abc")
            [one_segment] (freshWorld 1000)))
  = [VideoProcessingService.Attempt (js "abc") one_segment 0].
Proof.
  destruct (@processSegments_all_extracted workingTools (js "abc")
              [one_segment] (freshWorld 1000)
              (fun _ => eq_refl) (fun _ _ _ => eq_refl))
    as (w' & job & E & _ & _ & _ & _ & Hevents).
  rewrite E. exact Hevents.
Defined.

(** X15: when a directory cannot be made, no extraction is attempted
    at all: the job is marked [failed] with the message of the error
    (or [Unknown error] for a thrown value that is not an error), its
    progress stays 0 and it has no current segment. *)
Theorem processSegments_without_directories
        (tools : VideoProcessingService.Tools) (video : jsstring)
        (segments : list VideoSegment) (w : VideoProcessingService.World)
        (e : Thrown) :
  VideoProcessingService.mkdir tools VideoProcessingService.AudioDir = Some e
  \/ (VideoProcessingService.mkdir tools VideoProcessingService.AudioDir = None
      /\ VideoProcessingService.mkdir tools VideoProcessingService.VideoDir
         = Some e) ->
  exists w' job,
    VideoProcessingService.processSegments tools video segments w
    = (Ret tt, w')
    /\ VideoProcessingService.map_get (jobKey video w)
         (VideoProcessingService.progressMap w') = Some job
    /\ VideoProcessingService.status job = VideoProcessingService.failed
    /\ VideoProcessingService.error job = Some (messageOr "Unknown error" e)
    /\ VideoProcessingService.progress job = 0
    /\ VideoProcessingService.currentSegment job = None
    /\ VideoProcessingService.events w' = VideoProcessingService.events w
    /\ VideoProcessingService.clock w' = VideoProcessingService.clock w.
Proof.
  intros Hmkdir.
  destruct (started_jobKept video segments w) as [_ Hjob0].
  rewrite processSegments_blocks.
  unfold Effects.try_catch, tryBlock.
  unfold Effects.bind at 1, VideoProcessingService.ensureDirectories.
  assert (Hcatch : exists w' job,
             catchBlock video w e (started video segments w) = (Ret tt, w')
             /\ VideoProcessingService.map_get (jobKey video w)
                  (VideoProcessingService.progressMap w') = Some job
             /\ VideoProcessingService.status job
                = VideoProcessingService.failed
             /\ VideoProcessingService.error job
                = Some (messageOr "Unknown error" e)
             /\ VideoProcessingService.progress job = 0
             /\ VideoProcessingService.currentSegment job = None
             /\ VideoProcessingService.events w'
                = VideoProcessingService.events w
             /\ VideoProcessingService.clock w'
                = VideoProcessingService.clock w).
  { destruct (@closing_update video w VideoProcessingService.failed None
                (Some (messageOr "Unknown error" e)) None _ _ Hjob0)
      as (w' & p' & E & Hp' & Hst & _ & _ & _ & He & Hprog & _ & Hcur
          & Hclock & Hevents & _).
    exists w', p'. repeat split; assumption. }
  destruct Hmkdir as [-> | [-> ->]]; exact Hcatch.
Qed.

(** A file system that refuses to make the video directory. *)
Definition readOnlyTools : VideoProcessingService.Tools :=
  VideoProcessingService.mkTools
    (fun _ _ _ => VideoProcessingService.Extracted)
    (fun d => match d with
              | VideoProcessingService.AudioDir => None
              | VideoProcessingService.VideoDir => Some (Error (js "EACCES"))
              end).

Lemma processSegments_without_directories_witness :
  VideoProcessingService.events
    (snd (VideoProcessingService.processSegments readOnlyTools (js "abc")
            [one_segment] (freshWorld 1000)))
  = [].
Proof.
  destruct (@processSegments_without_directories readOnlyTools (js "abc")
              [one_segment] (freshWorld 1000) (Error (js "EACCES"))
              (or_intror (conj eq_refl eq_refl)))
    as (w' & job & E & _ & _ & _ & _ & _ & Hevents & _).
  rewrite E. exact Hevents.
Defined.

(** ** The facade: rejections, the response, and a request that hangs *)

Section FacadePaths.
Import Effects VideoProcessingService VideoService.
Variable c : Collaborators.
Variable fuel : nat.
Variable request : VideoProcessingRequest.
Variable w : World.

(** What [processVideo] does once the source is resolved and the
    provider has answered. *)
Definition afterCaptions (video : jsstring) (metadata : VideoMetadata)
           (captions : jsstring) : M World VideoProcessingResponse :=
  bind (lift_option (CaptionProcessor.parseCaptions captions))
       (fun captionData =>
  bind (lift_option
          (CaptionProcessor.createSegments fuel captionData
             (mkPartial
                (Some (segmentDurationOr8 (req_segmentDuration request)))
                (Some 1) None None None None)))
       (fun segments =>
  bind (if or_default false (req_includeTranslation request)
        then translateAll c segments else ret segments)
       (fun segments =>
  bind (processSegments (tools c) video segments) (fun _ =>
  let segments := List.map (withUrls c video) segments in
  ret (mkResponse true
         (Some (mkData video (title metadata) (duration metadata)
                       segments
                       (join [SP] (List.map caption_text captionData))
                       (thumbnail metadata)))
         None))))).

Definition errorResponse (e : Thrown) : VideoProcessingResponse :=
  mkResponse false None (Some (messageOr "Failed to process video" e)).

Lemma processVideo_invalid_url :
  extractVideoId (req_videoUrl request) = None ->
  processVideo c fuel request w
  = (Ret (errorResponse (Error (js "Invalid YouTube URL"))), w).
Proof. intros H. unfold processVideo, try_catch, bind at 1. now rewrite H. Qed.

Lemma processVideo_no_metadata video e :
  extractVideoId (req_videoUrl request) = Some video ->
  getVideoMetadata c video = inr e ->
  processVideo c fuel request w = (Ret (errorResponse e), w).
Proof.
  intros Hv Hm. unfold processVideo, try_catch, bind at 1.
  rewrite Hv. unfold ret at 1, bind at 1. now rewrite Hm.
Qed.

Lemma processVideo_no_captions video metadata e :
  extractVideoId (req_videoUrl request) = Some video ->
  getVideoMetadata c video = inl metadata ->
  extractCaptions c video (js "it") = inr e ->
  processVideo c fuel request w = (Ret (errorResponse e), w).
Proof.
  intros Hv Hm Hc. unfold processVideo, try_catch, bind at 1.
  rewrite Hv. unfold ret at 1, bind at 1. rewrite Hm.
  unfold await at 1, ret at 1, bind at 1. now rewrite Hc.
Qed.

Lemma processVideo_after_captions video metadata captions :
  extractVideoId (req_videoUrl request) = Some video ->
  getVideoMetadata c video = inl metadata ->
  extractCaptions c video (js "it") = inl captions ->
  processVideo c fuel request w
  = try_catch (afterCaptions video metadata captions)
              (fun e => ret (errorResponse e)) w.
Proof.
  intros Hv Hm Hc. unfold processVideo, try_catch, bind at 1.
  rewrite Hv. unfold ret at 1, bind at 1. rewrite Hm.
  unfold await at 1, ret at 1, bind at 1. rewrite Hc.
  unfold await at 1, ret at 1. reflexivity.
Qed.
End FacadePaths.

(** X16: [processVideo] never throws.  A URL no pattern matches gives
    the error result [Invalid YouTube URL]; a rejection by the
    metadata or the caption provider gives the error result with the
    message of the rejection (or [Failed to process video] when what
    was thrown is not an error); and in these cases nothing has been
    done: no record in the progress map, no attempt, no wait. *)
Theorem processVideo_rejections
        (c : VideoService.Collaborators) (fuel : nat)
        (request : VideoService.VideoProcessingRequest)
        (w : VideoProcessingService.World) :
  (forall e, fst (VideoService.processVideo c fuel request w) <> Throw e)
  /\ (VideoService.extractVideoId (VideoService.req_videoUrl request) = None ->
      VideoService.processVideo c fuel request w
      = (Ret (VideoService.mkResponse false None
                (Some (js "Invalid YouTube URL"))), w))
  /\ (forall video e,
        VideoService.extractVideoId (VideoService.req_videoUrl request)
        = Some video ->
        VideoService.getVideoMetadata c video = inr e
        \/ (exists metadata,
              VideoService.getVideoMetadata c video = inl metadata
              /\ VideoService.extractCaptions c video (js "it") = inr e) ->
        VideoService.processVideo c fuel request w
        = (Ret (VideoService.mkResponse false None
                  (Some (messageOr "Failed to process video" e))), w)).
Proof.
  split; [|split].
  - intros e. unfold VideoService.processVideo, Effects.try_catch.
    match goal with
    | |- context [match ?body w with _ => _ end] =>
        destruct (body w) as [[r|e'|] w']
    end; cbn; discriminate.
  - apply processVideo_invalid_url.
  - intros video e Hv [Hm | (metadata & Hm & Hc)].
    + now apply (@processVideo_no_metadata c fuel request w video e).
    + now apply (@processVideo_no_captions c fuel request w video metadata e).
Qed.

Lemma processVideo_rejections_witness :
  VideoService.processVideo mockCollaborators 5
    (VideoService.mkRequest (js "https://example.com/watch") None None)
    (freshWorld 1000)
  = (Ret (VideoService.mkResponse false None
            (Some (js "Invalid YouTube URL"))), freshWorld 1000).
Proof.
  apply (proj1 (proj2 (@processVideo_rejections mockCollaborators 5
                         (VideoService.mkRequest
                            (js "https://example.com/watch") None None)
                         (freshWorld 1000)))).
  vm_compute. reflexivity.
Defined.

(** X17: a request whose [segmentDuration] is 1 makes [processVideo]
    hang as soon as the payload has a caption that meets the first
    second: the facade always passes the overlap 1, so the clock of
    segment building does not advance and no response is ever
    produced, for any number of turns of the loop.  (The validation of
    the HTTP route only lets durations from 3 to 30 through; this is
    about the callers of [processVideo] itself.) *)
Theorem processVideo_hangs_on_unit_duration
        (c : VideoService.Collaborators)
        (request : VideoService.VideoProcessingRequest)
        (w : VideoProcessingService.World)
        (video : jsstring) (metadata : VideoService.VideoMetadata)
        (captions : jsstring) (c0 : CaptionData) (rest : list CaptionData)
        (d : number) (caption : CaptionData) :
  VideoService.extractVideoId (VideoService.req_videoUrl request)
  = Some video ->
  VideoService.getVideoMetadata c video = inl metadata ->
  VideoService.extractCaptions c video (js "it") = inl captions ->
  CaptionProcessor.parseCaptions captions = Some (c0 :: rest) ->
  VideoService.req_segmentDuration request = Some d -> d == 1 ->
  In caption (c0 :: rest) ->
  start caption < Math_min (0 + d) (SegmentBuilder.maxEnd c0 rest) ->
  0 < end_ caption ->
  forall fuel : nat,
    VideoService.processVideo c fuel request w = (NoResult, w).
Proof.
  intros Hv Hm Hc Hparse Hd Hone Hin Hstart Hend fuel.
  rewrite (@processVideo_after_captions c fuel request w video metadata
             captions Hv Hm Hc).
  unfold Effects.try_catch, afterCaptions.
  unfold Effects.bind at 1. rewrite Hparse.
  unfold VideoService.lift_option at 1, Effects.ret at 1.
  unfold Effects.bind at 1.
  assert (Hdur : VideoService.segmentDurationOr8
                   (VideoService.req_segmentDuration request) = d).
  { rewrite Hd. unfold VideoService.segmentDurationOr8.
    destruct (Qeq_bool d 0) eqn:E; [|reflexivity].
    apply Qeq_bool_iff in E. rewrite E in Hone. discriminate. }
  rewrite Hdur.
  unfold CaptionProcessor.createSegments.
  rewrite (@build_stuck
             (resolveOptions (mkPartial (Some d) (Some 1) None None None None))
             CaptionProcessor.emptyUrl CaptionProcessor.emptyUrl
             c0 rest caption); try assumption.
  - reflexivity.
  - cbn. now rewrite Hone.
Qed.

(** The request of the overlap example, asking for segments of one
    second. *)
Definition one_second_request : VideoService.VideoProcessingRequest :=
  VideoService.mkRequest (js "https://youtu.be/abc") (Some 1) (Some true).

Lemma processVideo_hangs_on_unit_duration_witness :
  VideoService.processVideo mockCollaborators 1000 one_second_request
                            (freshWorld 1000)
  = (NoResult, freshWorld 1000).
Proof.
  refine (@processVideo_hangs_on_unit_duration
            mockCollaborators one_second_request (freshWorld 1000)
            (js "abc")
            (VideoService.mkMetadata (js "Italian Conversation Practice")
                                     [] 300 (js "thumbnail.jpg") [] [])
            (js "Ciao, come stai? Sono molto felice di vederti oggi.")
            (mkCaption 0 (0 + 3) (js "Ciao, come stai"))
            [mkCaption (0 + 3) (0 + 3 + 3)
                       (js "Sono molto felice di vederti oggi")]
            1
            (mkCaption 0 (0 + 3) (js "Ciao, come stai"))
            _ _ _ _ _ _ _ _ _ 1000%nat).
  - vm_compute. reflexivity.
  - reflexivity.
  - reflexivity.
  - reflexivity.
  - reflexivity.
  - reflexivity.
  - now left.
  - vm_compute. reflexivity.
  - reflexivity.
Defined.

(** X18: the response of [processVideo] when the source is resolved,
    the provider answers and the segments are built.  It is a success
    result whatever the extraction does; its segments are those of
    [createSegments], in order and with the same ids, times and texts,
    each with the two URLs under the backend address; when the request
    asks for translations each segment carries what the translation
    service gave, or the failure marker; and the world is left as
    [processSegments] leaves it. *)
Theorem processVideo_response
        (c : VideoService.Collaborators) (fuel : nat)
        (request : VideoService.VideoProcessingRequest)
        (w : VideoProcessingService.World)
        (video : jsstring) (metadata : VideoService.VideoMetadata)
        (captions : jsstring) (captionData : list CaptionData)
        (segments : list VideoSegment) :
  VideoService.extractVideoId (VideoService.req_videoUrl request)
  = Some video ->
  VideoService.getVideoMetadata c video = inl metadata ->
  VideoService.extractCaptions c video (js "it") = inl captions ->
  CaptionProcessor.parseCaptions captions = Some captionData ->
  CaptionProcessor.createSegments fuel captionData
    (mkPartial (Some (VideoService.segmentDurationOr8
                        (VideoService.req_segmentDuration request)))
               (Some 1) None None None None) = Some segments ->
  let shown :=
    if or_default false (VideoService.req_includeTranslation request)
    then List.map (translated c) segments else segments in
  let out := List.map (VideoService.withUrls c video) shown in
  VideoService.processVideo c fuel request w
  = (Ret (VideoService.mkResponse true
            (Some (VideoService.mkData video (VideoService.title metadata)
                     (VideoService.duration metadata) out
                     (join [SP] (List.map caption_text captionData))
                     (VideoService.thumbnail metadata)))
            None),
     snd (VideoProcessingService.processSegments
            (VideoService.tools c) video shown w))
  /\ List.map id out = List.map id segments
  /\ List.map startTime out = List.map startTime segments
  /\ List.map endTime out = List.map endTime segments
  /\ List.map text out = List.map text segments.
Proof.
  intros Hv Hm Hc Hparse Hsegments shown out. split.
  - rewrite (@processVideo_after_captions c fuel request w video metadata
               captions Hv Hm Hc).
    unfold Effects.try_catch, afterCaptions.
    unfold Effects.bind at 1. rewrite Hparse.
    unfold VideoService.lift_option at 1, Effects.ret at 1.
    unfold Effects.bind at 1. rewrite Hsegments.
    unfold VideoService.lift_option at 1, Effects.ret at 1.
    unfold Effects.bind at 1.
    assert (Htr : (if or_default false
                        (VideoService.req_includeTranslation request)
                   then VideoService.translateAll c segments
                   else Effects.ret segments) w = (Ret shown, w)).
    { unfold shown.
      destruct (or_default false (VideoService.req_includeTranslation request));
        [apply translateAll_absorbs_failures | reflexivity]. }
    rewrite Htr. unfold Effects.bind at 1.
    destruct (processSegments_returns (VideoService.tools c) video shown w)
      as (w' & ->).
    reflexivity.
  - unfold out, shown.
    destruct (or_default false (VideoService.req_includeTranslation request));
      rewrite ?map_map; repeat split; apply map_ext; reflexivity.
Qed.

Lemma processVideo_response_witness :
  exists d,
    VideoService.data (match fst ciao_run with
                       | Ret response => response
                       | _ => VideoService.mkResponse false None None
                       end) = Some d
    /\ List.map translation (VideoService.data_segments d)
       = [Some (js "Hello")].
Proof.
  destruct (@processVideo_response mockCollaborators 5 ciao_request
              (freshWorld 1000) (js "abc")
              (VideoService.mkMetadata (js "Italian Conversation Practice")
                                       [] 300 (js "thumbnail.jpg") [] [])
              (js "Ciao, come stai? Sono molto felice di vederti oggi.")
              [ mkCaption 0 (0 + 3) (js "Ciao, come stai");
                mkCaption (0 + 3) (0 + 3 + 3)
                          (js "Sono molto felice di vederti oggi") ]
              _
              ltac:(vm_compute; reflexivity) eq_refl eq_refl eq_refl eq_refl)
    as [E _].
  unfold ciao_run. rewrite E. cbn [fst]. eexists. split; reflexivity.
Defined.

(** ** The matcher: what a match means *)

Section MatcherMeaning.
Import Regex.

(** [matches r s s' caps caps']: the expression [r] reads a prefix of
    [s] and leaves [s'], taking the captures from [caps] to [caps']. *)
Inductive matches : regex -> jsstring -> jsstring
                    -> list jsstring -> list jsstring -> Prop :=
| matches_lit l s caps : matches (Lit l) (l ++ s) s caps caps
| matches_rep greedy lo hi p x s caps :
    Forall (fun c => p c = true) x ->
    (lo <= List.length x)%nat ->
    (forall h, hi = Some h -> (List.length x <= h)%nat) ->
    matches (Rep greedy lo hi p) (x ++ s) s caps caps
| matches_group r x s caps caps' :
    matches r (x ++ s) s caps caps' ->
    matches (Group r) (x ++ s) s caps (caps' ++ [x])
| matches_cat r1 r2 s s1 s2 caps caps1 caps2 :
    matches r1 s s1 caps caps1 -> matches r2 s1 s2 caps1 caps2 ->
    matches (Cat r1 r2) s s2 caps caps2
| matches_alt_l r1 r2 s s' caps caps' :
    matches r1 s s' caps caps' -> matches (Alt r1 r2) s s' caps caps'
| matches_alt_r r1 r2 s s' caps caps' :
    matches r2 s s' caps caps' -> matches (Alt r1 r2) s s' caps caps'.

Lemma matches_suffix r s s' caps caps' :
  matches r s s' caps caps' -> exists x, s = x ++ s'.
Proof.
  induction 1 as [l s caps | g lo hi p x s caps | r x s caps caps' _ _
                  | r1 r2 s s1 s2 caps caps1 caps2 _ [x1 E1] _ [x2 E2]
                  | r1 r2 s s' caps caps' _ IH | r1 r2 s s' caps caps' _ IH];
    eauto.
  exists (x1 ++ x2). now rewrite E1, E2, app_assoc.
Qed.

Lemma starts_with_prefix l : forall s,
  starts_with l s = true -> s = l ++ skipn (List.length l) s.
Proof.
  induction l as [|a l IH]; intros [|b s] H; cbn in *; try easy.
  apply andb_true_iff in H. destruct H as [Hab H].
  unfold char_eqb in Hab. apply N.eqb_eq in Hab. subst b.
  f_equal. now apply IH.
Qed.

Lemma or_else_some {R} (a b : option R) res :
  or_else a b = Some res -> a = Some res \/ b = Some res.
Proof. destruct a; cbn; auto. Qed.

Lemma rep_match_sound {R} p greedy (k : jsstring -> option R) res s :
  forall lo hi,
    rep_match p greedy lo hi s k = Some res ->
    exists x s', s = x ++ s'
                 /\ Forall (fun c => p c = true) x
                 /\ (lo <= List.length x)%nat
                 /\ (forall h, hi = Some h -> (List.length x <= h)%nat)
                 /\ k s' = Some res.
Proof.
  assert (Hstop : forall s0 hi0, k s0 = Some res ->
            exists x s', s0 = x ++ s'
                         /\ Forall (fun c => p c = true) x
                         /\ (0 <= List.length x)%nat
                         /\ (forall h, hi0 = Some h -> (List.length x <= h)%nat)
                         /\ k s' = Some res).
  { intros s0 hi0 H. exists [], s0. repeat split; auto.
    intros h _. cbn. lia. }
  induction s as [|c s IH]; intros lo hi H.
  - destruct lo as [|lo]; cbn in H; [|discriminate].
    destruct greedy; cbn in H; [now apply Hstop|].
    destruct (k []) eqn:E; cbn in H; [|discriminate].
    apply Hstop. congruence.
  - rewrite rep_match_turn in H. cbv zeta in H.
    assert (Hmore : (if p c && may_take hi
                     then rep_match p greedy (Nat.pred lo)
                            (option_map Nat.pred hi) s k
                     else None) = Some res ->
              exists x s', c :: s = x ++ s'
                /\ Forall (fun c => p c = true) x
                /\ (lo <= List.length x)%nat
                /\ (forall h, hi = Some h -> (List.length x <= h)%nat)
                /\ k s' = Some res).
    { destruct (p c && may_take hi) eqn:E; [|discriminate].
      apply andb_true_iff in E. destruct E as [Hc Htake].
      intros Hrec. destruct (IH _ _ Hrec) as (x & s' & -> & Hx & Hlo & Hhi & Hk).
      exists (c :: x), s'. repeat split; auto.
      - cbn. lia.
      - intros h ->. cbn in *. destruct h as [|h]; [discriminate|].
        specialize (Hhi h eq_refl). lia. }
    destruct lo as [|lo]; [|now apply Hmore].
    destruct greedy; apply or_else_some in H; destruct H as [H|H];
      (now apply Hmore) || (now apply Hstop).
Qed.

(** What the matcher accepts is a match: a result of [run] comes from
    a match of the expression, followed by the continuation. *)
Lemma run_sound {R} (r : regex) : forall s caps
    (k : jsstring -> list jsstring -> option R) res,
  run r s caps k = Some res ->
  exists s' caps', matches r s s' caps caps' /\ k s' caps' = Some res.
Proof.
  induction r as [l | greedy lo hi p | r IH | r1 IH1 r2 IH2 | r1 IH1 r2 IH2];
    intros s caps k res H; cbn [run] in H.
  - destruct (starts_with l s) eqn:E; [|discriminate].
    exists (skipn (List.length l) s), caps. split; [|exact H].
    rewrite (starts_with_prefix _ _ E) at 1. constructor.
  - apply rep_match_sound in H.
    destruct H as (x & s' & -> & Hx & Hlo & Hhi & Hk).
    exists s', caps. split; [now constructor | exact Hk].
  - apply IH in H. destruct H as (s' & caps' & Hm & Hk).
    destruct (matches_suffix Hm) as [x ->].
    rewrite length_app, Nat.add_sub, firstn_app, Nat.sub_diag, firstn_all in Hk.
    cbn [firstn] in Hk. rewrite app_nil_r in Hk.
    exists s', (caps' ++ [x]). split; [now constructor | exact Hk].
  - apply IH1 in H. destruct H as (s1 & caps1 & Hm1 & H).
    apply IH2 in H. destruct H as (s2 & caps2 & Hm2 & H).
    exists s2, caps2. split; [econstructor; eauto | exact H].
  - apply or_else_some in H. destruct H as [H|H].
    + apply IH1 in H. destruct H as (s' & caps' & Hm & Hk).
      exists s', caps'. split; [now apply matches_alt_l | exact Hk].
    + apply IH2 in H. destruct H as (s' & caps' & Hm & Hk).
      exists s', caps'. split; [now apply matches_alt_r | exact Hk].
Qed.

Lemma match_at_sound r s rest caps :
  match_at r s = Some (rest, caps) -> matches r s rest [] caps.
Proof.
  unfold match_at. intros H. apply run_sound in H.
  destruct H as (s' & caps' & Hm & E). now injection E as <- <-.
Qed.

(** The leftmost match starts somewhere in the string. *)
Lemma match_first_sound r s caps :
  match_first r s = Some caps ->
  exists before from rest,
    s = before ++ from /\ matches r from rest [] caps.
Proof.
  induction s as [|c s IH]; cbn [match_first].
  - destruct (match_at r []) as [[rest caps']|] eqn:E; [|discriminate].
    intros H. injection H as <-. exists [], [], rest.
    split; [reflexivity | now apply match_at_sound].
  - destruct (match_at r (c :: s)) as [[rest caps']|] eqn:E.
    + intros H. injection H as <-. exists [], (c :: s), rest.
      split; [reflexivity | now apply match_at_sound].
    + intros H. destruct (IH H) as (before & from & rest & -> & Hm).
      now exists (c :: before), from, rest.
Qed.
End MatcherMeaning.

Ltac invert_matches :=
  repeat match goal with
         | H : matches (Regex.Cat _ _) _ _ _ _ |- _ => inversion H; subst; clear H
         | H : matches (Regex.Alt _ _) _ _ _ _ |- _ => inversion H; subst; clear H
         | H : matches (Regex.Lit _) _ _ _ _ |- _ => inversion H; subst; clear H
         | H : matches (Regex.Group _) _ _ _ _ |- _ => inversion H; subst; clear H
         | H : matches (Regex.Rep _ _ _ _) _ _ _ _ |- _ =>
             inversion H; subst; clear H
         end.

(** The strings that announce an id in a URL. *)
Definition idMarkers : list jsstring :=
  [ js "youtube.com/watch?v="; js "youtu.be/"; js "youtube.com/embed/";
    js "youtube.com/v/"; js "v=" ].

Lemma firstMatch_sound (ps : list Regex.regex) (url v : jsstring) :
  VideoService.firstMatch ps url = Some v ->
  v <> []
  /\ exists pattern others,
       In pattern ps /\ Regex.match_first pattern url = Some (v :: others).
Proof.
  induction ps as [|pattern ps IH]; cbn [VideoService.firstMatch];
    [discriminate|].
  destruct (Regex.match_first pattern url) as [[|[|c m1] others]|] eqn:E;
    try (intros H; destruct (IH H) as (Hv & q & o & Hq & Ho);
         split; [exact Hv|]; exists q, o; split; [now right | exact Ho]).
  intros H. injection H as <-. split; [discriminate|].
  exists pattern, others. split; [now left | exact E].
Qed.

(** X19: an id that the backend [extractVideoId] returns is never
    empty, holds none of the units [&], [?], [#] and line feed, and is
    read in the URL right after one of the markers [watch?v=],
    [youtu.be/], [embed/], [/v/] or, behind [youtube.com/watch?], a
    later [v=]. *)
Theorem extractVideoId_sound (url v : jsstring) :
  VideoService.extractVideoId url = Some v ->
  v <> []
  /\ Forall (fun c => VideoService.idChar c = true) v
  /\ exists before marker after,
       url = before ++ marker ++ v ++ after /\ In marker idMarkers.
Proof.
  unfold VideoService.extractVideoId. intros H.
  apply firstMatch_sound in H.
  destruct H as (Hv & pattern & others & Hin & E).
  split; [exact Hv|].
  apply match_first_sound in E.
  destruct E as (before & from & rest & -> & Hm).
  unfold VideoService.patterns in Hin. cbn [In] in Hin.
  destruct Hin as [<- | [<- | [<- | []]]];
    unfold Regex.seq, Regex.plus, Regex.star in Hm;
    invert_matches;
    repeat match goal with
           | H : _ ++ ?r = _ ++ ?r |- _ => apply app_inv_tail in H
           end;
    match goal with
    | H : [] ++ [_] = v :: others |- _ => cbn [app] in H; injection H as ? ?
    end;
    subst; (split; [assumption|]); unfold idMarkers.
  - exists before, (js "youtube.com/watch?v="), rest. cbn [In]. tauto.
  - exists before, (js "youtu.be/"), rest. cbn [In]. tauto.
  - exists before, (js "youtube.com/embed/"), rest. cbn [In]. tauto.
  - exists before, (js "youtube.com/v/"), rest. cbn [In]. tauto.
  - match goal with
    | |- context [js "youtube.com/watch?" ++ ?y ++ js "v=" ++ _] =>
        exists (before ++ js "youtube.com/watch?" ++ y), (js "v="), rest
    end.
    split; [now rewrite <- !app_assoc | cbn [In]; tauto].
Qed.

Lemma extractVideoId_sound_witness :
  js "dQw4w9WgXcQ" <> []
  /\ Forall (fun c => VideoService.idChar c = true) (js "dQw4w9WgXcQ")
  /\ exists before marker after,
       js "https://www.youtube.com/watch?v=dQw4w9WgXcQ&t=42"
       = before ++ marker ++ js "dQw4w9WgXcQ" ++ after
       /\ In marker idMarkers.
Proof.
  apply extractVideoId_sound. vm_compute. reflexivity.
Defined.

(** ** Reading an id back from the usual forms of a URL *)

Lemma drop_while_run (p : char -> bool) (after : jsstring) :
  after = [] \/ (exists c r, after = c :: r /\ p c = false) ->
  forall x, Forall (fun c => p c = true) x -> drop_while p (x ++ after) = after.
Proof.
  intros Hafter. induction 1 as [|c x Hc Hx IH]; cbn.
  - destruct Hafter as [-> | (c & r & -> & Hc)]; cbn;
      [reflexivity | now rewrite Hc].
  - now rewrite Hc.
Qed.

Section ReadBack.
Import Regex.
Variable p : char -> bool.
Variables v after : jsstring.
Hypothesis v_not_empty : v <> [].
Hypothesis v_in_class : Forall (fun c => p c = true) v.
Hypothesis after_outside :
  after = [] \/ exists c r, after = c :: r /\ p c = false.

(** The group of a greedy run of the class takes the whole of [v]. *)
Lemma run_group_plus caps :
  run (Group (plus p)) (v ++ after) caps (fun s' caps' => Some (s', caps'))
  = Some (after, caps ++ [v]).
Proof.
  unfold plus. cbn [run].
  destruct v as [|c x] eqn:Ev; [congruence|].
  cbn [app]. rewrite rep_match_turn. cbv zeta.
  inversion v_in_class as [|? ? Hc Hx]; subst.
  rewrite Hc. cbn [andb may_take Nat.pred option_map].
  rewrite (greedy_run p
             (fun s' => (s', caps ++ [firstn (List.length (c :: x ++ after)
                                              - List.length s')
                                             (c :: x ++ after)]))).
  assert (Hd : drop_while p (x ++ after) = after)
    by now apply drop_while_run.
  rewrite Hd. do 3 f_equal.
  change (c :: x ++ after) with ((c :: x) ++ after).
  rewrite length_app, Nat.add_sub, firstn_app, Nat.sub_diag, firstn_all.
  cbn [firstn]. now rewrite app_nil_r.
Qed.
End ReadBack.

Section LeftmostMatch.
Import Regex.

Lemma match_first_here r s rest caps :
  match_at r s = Some (rest, caps) -> match_first r s = Some caps.
Proof. intros H. destruct s; cbn [match_first]; now rewrite H. Qed.

(** No match starts inside [prefix]. *)
Fixpoint noMatchIn (r : regex) (prefix s : jsstring) : Prop :=
  match prefix with
  | [] => True
  | c :: prefix' =>
      match_at r (c :: prefix' ++ s) = None /\ noMatchIn r prefix' s
  end.

Lemma match_first_prefix r prefix s :
  noMatchIn r prefix s -> match_first r (prefix ++ s) = match_first r s.
Proof.
  induction prefix as [|c prefix IH]; [reflexivity|].
  intros [H Hrest]. cbn [app match_first]. rewrite H. now apply IH.
Qed.

Lemma run_lit_here {R} l s caps (k : jsstring -> list jsstring -> option R) :
  run (Lit l) (l ++ s) caps k = k s caps.
Proof.
  cbn [run].
  assert (H : starts_with l (l ++ s) = true /\ skipn (List.length l) (l ++ s) = s).
  { induction l as [|c l [IH1 IH2]]; cbn; [easy|].
    unfold char_eqb. now rewrite N.eqb_refl, IH1, IH2. }
  destruct H as [-> ->]. reflexivity.
Qed.

Lemma run_cat {R} r1 r2 s caps (k : jsstring -> list jsstring -> option R) :
  run (Cat r1 r2) s caps k = run r1 s caps (fun s' caps' => run r2 s' caps' k).
Proof. reflexivity. Qed.

Lemma run_alt_skip {R} l r2 s caps
      (k : jsstring -> list jsstring -> option R) :
  starts_with l s = false -> run (Alt (Lit l) r2) s caps k = run r2 s caps k.
Proof. intros H. cbn [run]. now rewrite H. Qed.

Lemma run_alt_here {R} l r2 s caps
      (k : jsstring -> list jsstring -> option R) res :
  k s caps = Some res -> run (Alt (Lit l) r2) (l ++ s) caps k = Some res.
Proof.
  intros H. change (run (Alt (Lit l) r2) (l ++ s) caps k)
    with (or_else (run (Lit l) (l ++ s) caps k) (run r2 (l ++ s) caps k)).
  now rewrite run_lit_here, H.
Qed.
End LeftmostMatch.

(** X20: the three usual forms of a URL give their id back: for an id
    [v] that is not empty and holds none of [&], [?], [#] and line
    feed, followed by nothing or by one of these units, the backend
    [extractVideoId] returns [v] for the watch form, the short form
    and the embed form. *)
Theorem extractVideoId_reads_back (v after : jsstring) :
  v <> [] ->
  Forall (fun c => VideoService.idChar c = true) v ->
  after = [] \/ (exists c r, after = c :: r /\ VideoService.idChar c = false) ->
  VideoService.extractVideoId
    (js "https://www.youtube.com/watch?v=" ++ v ++ after) = Some v
  /\ VideoService.extractVideoId (js "https://youtu.be/" ++ v ++ after)
     = Some v
  /\ VideoService.extractVideoId
       (js "https://www.youtube.com/embed/" ++ v ++ after) = Some v.
Proof.
  intros Hne Hv Hafter.
  pose proof (@run_group_plus VideoService.idChar v after Hne Hv Hafter [])
    as Hrun.
  assert (Hfound : forall url,
             Regex.match_first (nth 0 VideoService.patterns (Regex.Lit [])) url
             = Some [v] ->
             VideoService.extractVideoId url = Some v).
  { intros url H. unfold VideoService.extractVideoId, VideoService.patterns.
    cbn [VideoService.firstMatch]. cbn [nth VideoService.patterns] in H.
    rewrite H. destruct v; [congruence | reflexivity]. }
  cbn [nth VideoService.patterns Regex.seq] in Hfound.
  repeat split; apply Hfound.
  - change (js "https://www.youtube.com/watch?v=" ++ v ++ after)
      with (js "https://www." ++ (js "youtube.com/watch?v=" ++ v ++ after)).
    rewrite match_first_prefix.
    + apply match_first_here with (rest := after).
      unfold Regex.match_at. rewrite run_cat.
      now apply run_alt_here.
    + cbn [noMatchIn js List.map list_ascii_of_string].
      repeat split; reflexivity.
  - change (js "https://youtu.be/" ++ v ++ after)
      with (js "https://" ++ (js "youtu.be/" ++ v ++ after)).
    rewrite match_first_prefix.
    + apply match_first_here with (rest := after).
      unfold Regex.match_at. rewrite run_cat.
      rewrite run_alt_skip by reflexivity.
      now apply run_alt_here.
    + cbn [noMatchIn js List.map list_ascii_of_string].
      repeat split; reflexivity.
  - change (js "https://www.youtube.com/embed/" ++ v ++ after)
      with (js "https://www." ++ (js "youtube.com/embed/" ++ v ++ after)).
    rewrite match_first_prefix.
    + apply match_first_here with (rest := after).
      unfold Regex.match_at. rewrite run_cat.
      rewrite !run_alt_skip by reflexivity.
      now rewrite run_lit_here.
    + cbn [noMatchIn js List.map list_ascii_of_string].
      repeat split; reflexivity.
Qed.

Lemma extractVideoId_reads_back_witness :
  VideoService.extractVideoId
    (js "https://www.youtube.com/watch?v=" ++ js "dQw4w9WgXcQ" ++ js "&t=42")
  = Some (js "dQw4w9WgXcQ").
Proof.
  apply (@extractVideoId_reads_back (js "dQw4w9WgXcQ") (js "&t=42")).
  - discriminate.
  - repeat constructor.
  - right. now exists (ch "&"), (js "t=42").
Defined.

(** ** The utilities module: ids of eleven units *)

Section ElevenUnits.
Import Regex.

(** A class taken exactly [n] times reads exactly the [n] units of
    [v], whatever follows. *)
Lemma rep_match_exactly {R} (p : char -> bool) (k : jsstring -> option R)
      (after : jsstring) (v : jsstring) :
  Forall (fun c => p c = true) v ->
  rep_match p true (List.length v) (Some (List.length v)) (v ++ after) k
  = k after.
Proof.
  induction 1 as [|c x Hc Hx IH]; cbn [List.length app].
  - destruct after as [|c r]; cbn; [reflexivity|].
    now rewrite andb_false_r.
  - rewrite rep_match_turn. cbv zeta.
    rewrite Hc. cbn [andb may_take Nat.pred option_map]. exact IH.
Qed.

Lemma run_group_times (p : char -> bool) (v after : jsstring) caps :
  Forall (fun c => p c = true) v ->
  run (Group (times (List.length v) p)) (v ++ after) caps
      (fun s' caps' => Some (s', caps'))
  = Some (after, caps ++ [v]).
Proof.
  intros Hv. unfold times. cbn [run].
  rewrite (rep_match_exactly p _ after Hv).
  rewrite length_app, Nat.add_sub, firstn_app, Nat.sub_diag, firstn_all.
  cbn [firstn]. now rewrite app_nil_r.
Qed.

Lemma run_alt_cat_skip {R} l x r2 s caps
      (k : jsstring -> list jsstring -> option R) :
  starts_with l s = false ->
  run (Alt (Cat (Lit l) x) r2) s caps k = run r2 s caps k.
Proof. intros H. cbn [run]. now rewrite H. Qed.
End ElevenUnits.

(** X21: an id that [extractVideoId] of the utilities module returns
    has exactly eleven units, none of which is a double quote, [&],
    [?], [/] or white space, and it stands in the URL; a URL is valid
    for [isValidYouTubeUrl] exactly when an id is returned. *)
Theorem utilities_extractVideoId_sound (url : jsstring) :
  (forall v, VideoUtils.extractVideoId url = Some v ->
             List.length v = 11%nat
             /\ Forall (fun c => VideoUtils.videoIdChar c = true) v
             /\ exists before after, url = before ++ v ++ after)
  /\ (VideoUtils.isValidYouTubeUrl url = true
      <-> exists v, VideoUtils.extractVideoId url = Some v).
Proof.
  split.
  - intros v. unfold VideoUtils.extractVideoId.
    destruct (Regex.match_first VideoUtils.videoIdRegex url)
      as [[|m1 others]|] eqn:E; try discriminate.
    intros H. injection H as <-.
    apply match_first_sound in E.
    destruct E as (before & from & rest & -> & Hm).
    unfold VideoUtils.videoIdRegex, Regex.seq, Regex.plus, Regex.star,
      Regex.one, Regex.times in Hm.
    invert_matches;
      repeat match goal with
             | H : _ ++ ?r = _ ++ ?r |- _ => apply app_inv_tail in H
             end;
      match goal with
      | H : [] ++ [_] = m1 :: others |- _ => cbn [app] in H; injection H as ? ?
      end;
      subst;
      match goal with
      | Hlo : (11 <= List.length ?x)%nat,
        Hhi : forall h, Some 11%nat = Some h -> (List.length ?x <= h)%nat |- _ =>
          specialize (Hhi 11%nat eq_refl)
      end;
      (split; [lia|]); (split; [assumption|]);
      match goal with
      | |- exists b a, ?l = b ++ m1 ++ a =>
          match l with
          | context C [m1 ++ ?r] =>
              let pre := context C [@nil char] in
              exists pre, r
          end
      end;
      cbn [app]; rewrite <- ?app_assoc; rewrite ?app_nil_r; reflexivity.
  - unfold VideoUtils.isValidYouTubeUrl.
    destruct (VideoUtils.extractVideoId url) as [v|].
    + split; [now exists v | reflexivity].
    + split; [discriminate | intros [v H]; discriminate].
Qed.

Lemma utilities_extractVideoId_sound_witness :
  List.length (js "dQw4w9WgXcQ") = 11%nat
  /\ Forall (fun c => VideoUtils.videoIdChar c = true) (js "dQw4w9WgXcQ")
  /\ exists before after,
       js "https://www.youtube.com/watch?v=dQw4w9WgXcQ&t=42"
       = before ++ js "dQw4w9WgXcQ" ++ after.
Proof.
  apply (proj1 (utilities_extractVideoId_sound
                  (js "https://www.youtube.com/watch?v=dQw4w9WgXcQ&t=42"))).
  vm_compute. reflexivity.
Defined.

Section Backtracking.
Import Regex.

(** [s'] is what is left of [s] after some of its units. *)
Definition suffixOf (s' s : jsstring) : Prop := exists x, s = x ++ s'.

Lemma suffixOf_tail s' c s : suffixOf s' s -> suffixOf s' (c :: s).
Proof. intros [x ->]. now exists (c :: x). Qed.

(** A quantified class has no match when what follows it fails
    wherever it could start. *)
Lemma rep_match_none {R} p greedy (k : jsstring -> option R) s :
  (forall s', suffixOf s' s -> k s' = None) ->
  forall lo hi, rep_match p greedy lo hi s k = None.
Proof.
  induction s as [|c s IH]; intros Hk lo hi.
  - assert (E : k [] = None) by (apply Hk; now exists []).
    destruct lo, greedy; cbn; now rewrite ?E.
  - rewrite rep_match_turn. cbv zeta.
    assert (E : k (c :: s) = None) by (apply Hk; now exists []).
    rewrite IH by (intros s' Hs'; apply Hk; now apply suffixOf_tail).
    destruct (p c && may_take hi), lo, greedy; cbn; now rewrite ?E.
Qed.

(** A greedy run gives back what it took until the continuation
    accepts: when the continuation accepts [rest] and nothing later,
    the run before [rest] ends there. *)
Lemma rep_match_gives_back {R} p (k : jsstring -> option R) rest res :
  k rest = Some res ->
  (forall s', suffixOf s' rest -> s' <> rest -> k s' = None) ->
  forall pre, Forall (fun c => p c = true) pre ->
              rep_match p true 0 None (pre ++ rest) k = Some res.
Proof.
  intros Hrest Hlater.
  assert (Hmore : forall c s, rest = c :: s ->
            (if p c && may_take None
             then rep_match p true 0 None s k else None) = None).
  { intros c s E. destruct (p c && may_take None); [|reflexivity].
    apply rep_match_none. intros s' [x Hx] . apply Hlater.
    - exists (c :: x). now rewrite E, Hx.
    - intros ->. rewrite E in Hx.
      apply (f_equal (@List.length char)) in Hx.
      rewrite length_app in Hx. cbn in Hx. lia. }
  induction 1 as [|c pre Hc Hpre IH]; cbn [app].
  - destruct rest as [|c s] eqn:E.
    + cbn. now rewrite Hrest.
    + rewrite rep_match_turn. cbv zeta. cbn [Nat.pred option_map].
      rewrite (Hmore c s eq_refl). cbn. exact Hrest.
  - rewrite rep_match_turn. cbv zeta.
    rewrite Hc. cbn [andb may_take Nat.pred option_map]. now rewrite IH.
Qed.

Lemma includes_suffix pat s :
  includes pat s = false ->
  forall s', suffixOf s' s -> starts_with pat s' = false.
Proof.
  intros H s' [x ->]. induction x as [|c x IH].
  - destruct s' as [|c s']; cbn in H; apply orb_false_iff in H; tauto.
  - apply IH. cbn in H. apply orb_false_iff in H. tauto.
Qed.
End Backtracking.

Lemma suffix_of_run (p : char -> bool) (after : jsstring) :
  forall w, Forall (fun c => p c = true) w ->
  forall x s', w ++ after = x ++ s' ->
    suffixOf s' after \/ exists c r, s' = c :: r /\ p c = true.
Proof.
  induction 1 as [|c w Hc Hw IH]; intros x s' H.
  - left. now exists x.
  - destruct x as [|d x]; cbn in H.
    + right. exists c, (w ++ after). now rewrite <- H.
    + injection H as _ H. now apply (IH x).
Qed.

(** The units of an id are not what the expression looks for around
    an id. *)
Lemma videoIdChar_plain c :
  VideoUtils.videoIdChar c = true ->
  char_eqb c (ch "/") = false /\ char_eqb c (ch "?") = false
  /\ char_eqb c (ch "&") = false.
Proof.
  unfold VideoUtils.videoIdChar. rewrite negb_true_iff, !orb_false_iff.
  tauto.
Qed.

Lemma no_slash_in_id (after : jsstring) :
  includes (js "/") after = false ->
  forall w, Forall (fun c => VideoUtils.videoIdChar c = true) w ->
            includes (js "/") (w ++ after) = false.
Proof.
  intros Hafter. induction 1 as [|c w Hc Hw IH]; [exact Hafter|].
  apply videoIdChar_plain in Hc. destruct Hc as (Hc & _).
  rewrite char_eqb_sym in Hc.
  cbn [app includes js List.map list_ascii_of_string starts_with].
  change (N_of_ascii "/") with (ch "/"). rewrite Hc. exact IH.
Qed.

Section UtilitiesReadBack.
Import Regex.
Variable v : jsstring.
Hypothesis eleven : List.length v = 11%nat.
Hypothesis v_in_class : Forall (fun c => VideoUtils.videoIdChar c = true) v.

Let final : jsstring -> list jsstring -> option (jsstring * list jsstring) :=
  fun s' caps' => Some (s', caps').

Let idGroup : regex := Group (times 11 VideoUtils.videoIdChar).

Lemma idGroup_reads after :
  run idGroup (v ++ after) [] final = Some (after, [v]).
Proof.
  unfold idGroup. rewrite <- eleven.
  apply (@run_group_times VideoUtils.videoIdChar v after [] v_in_class).
Qed.

Lemma run_alt {R} r1 r2 s caps (k : jsstring -> list jsstring -> option R) :
  run (Alt r1 r2) s caps k = or_else (run r1 s caps k) (run r2 s caps k).
Proof. reflexivity. Qed.

Lemma short_form after :
  VideoUtils.extractVideoId (js "https://youtu.be/" ++ v ++ after) = Some v.
Proof.
  unfold VideoUtils.extractVideoId.
  change (js "https://youtu.be/" ++ v ++ after)
    with (js "https://" ++ (js "youtu.be/" ++ v ++ after)).
  rewrite match_first_prefix.
  - rewrite (@match_first_here _ _ after [v]); [reflexivity|].
    unfold match_at, VideoUtils.videoIdRegex. rewrite run_cat.
    rewrite run_alt_cat_skip by reflexivity.
    rewrite run_lit_here. apply idGroup_reads.
  - cbn [noMatchIn js List.map list_ascii_of_string].
    repeat split; reflexivity.
Qed.

Variable after : jsstring.
Hypothesis no_slash : includes (js "/") after = false.
Hypothesis no_other_v :
  includes (js "?v=") after = false /\ includes (js "&v=") after = false.

(** What follows the first [?] of the watch form. *)
Let query : jsstring := js "v=" ++ v ++ after.

Lemma suffix_of_query s' :
  suffixOf s' query ->
  s' = [] \/ suffixOf s' after
  \/ exists c r, s' = c :: r
                 /\ (c = ch "v" \/ c = ch "=" \/ VideoUtils.videoIdChar c = true).
Proof.
  intros [x Hx]. unfold query in Hx.
  destruct x as [|d1 x]; cbn in Hx.
  { right. right. exists (ch "v"), (js "=" ++ v ++ after).
    split; [now rewrite <- Hx | now left]. }
  injection Hx as _ Hx.
  destruct x as [|d2 x]; cbn in Hx.
  { right. right. exists (ch "="), (v ++ after).
    split; [now rewrite <- Hx | right; now left]. }
  injection Hx as _ Hx.
  destruct (@suffix_of_run _ after v v_in_class x s' Hx)
    as [H | (c & r & H & Hc)]; auto.
  right. right. exists c, r. auto.
Qed.

Lemma rep_match_zero {R} p (k : jsstring -> option R) s :
  rep_match p true 0 (Some 0%nat) s k = k s.
Proof.
  destruct s as [|c s]; [reflexivity|].
  rewrite rep_match_turn. cbn. now rewrite andb_false_r.
Qed.

(** The part of the expression behind [.*]: [?] or [&], then [v=],
    then the id. *)
Let isQuery : char -> bool :=
  fun c => char_eqb c (ch "?") || char_eqb c (ch "&").

Let afterDots (s : jsstring) : option (jsstring * list jsstring) :=
  run (Cat (one isQuery) (Lit (js "v="))) s []
      (fun s' caps' => run idGroup s' caps' final).

Lemma afterDots_cons c r :
  afterDots (c :: r)
  = if isQuery c
    then run (Lit (js "v=")) r []
             (fun s' caps' => run idGroup s' caps' final)
    else None.
Proof.
  unfold afterDots, one. rewrite run_cat. cbn [run].
  rewrite rep_match_turn. cbv zeta.
  cbn [may_take Nat.pred option_map]. rewrite andb_true_r.
  destruct (isQuery c); [|reflexivity].
  now rewrite rep_match_zero.
Qed.

Lemma afterDots_query :
  afterDots (ch "?" :: query) = Some (after, [v]).
Proof.
  rewrite afterDots_cons. cbn [isQuery]. unfold query.
  change (isQuery (ch "?")) with true. cbv iota.
  rewrite run_lit_here. apply idGroup_reads.
Qed.

Lemma afterDots_later s' :
  suffixOf s' query -> afterDots s' = None.
Proof.
  intros H. destruct (suffix_of_query H) as [-> | [Hs | (c & r & -> & Hc)]].
  - reflexivity.
  - destruct s' as [|c r]; [reflexivity|].
    rewrite afterDots_cons. destruct (isQuery c) eqn:E; [|reflexivity].
    destruct no_other_v as [Hq Ha].
    pose proof (@includes_suffix _ _ Hq _ Hs) as H1.
    pose proof (@includes_suffix _ _ Ha _ Hs) as H2.
    cbn [js List.map list_ascii_of_string starts_with] in H1, H2.
    assert (Hv : starts_with (js "v=") r = false).
    { unfold isQuery in E. apply orb_true_iff in E.
      destruct E as [E|E]; rewrite char_eqb_sym in E.
      - change (N_of_ascii "?") with (ch "?") in H1.
        rewrite E in H1. exact H1.
      - change (N_of_ascii "&") with (ch "&") in H2.
        rewrite E in H2. exact H2. }
    cbn [run]. now rewrite Hv.
  - rewrite afterDots_cons.
    assert (E : isQuery c = false).
    { destruct Hc as [-> | [-> | Hc]]; try reflexivity.
      apply videoIdChar_plain in Hc. destruct Hc as (_ & Hq & Ha).
      unfold isQuery. now rewrite Hq, Ha. }
    now rewrite E.
Qed.

Lemma no_slash_in_path s' :
  suffixOf s' (js "watch?v=" ++ v ++ after) ->
  starts_with (js "/") s' = false.
Proof.
  apply includes_suffix.
  assert (H : includes (js "/") (v ++ after) = false)
    by now apply no_slash_in_id.
  cbn [js List.map list_ascii_of_string app includes starts_with].
  exact H.
Qed.

Lemma watch_form :
  VideoUtils.extractVideoId
    (js "https://www.youtube.com/watch?v=" ++ v ++ after) = Some v.
Proof.
  unfold VideoUtils.extractVideoId.
  change (js "https://www.youtube.com/watch?v=" ++ v ++ after)
    with (js "https://www."
          ++ (js "youtube.com/" ++ (js "watch?v=" ++ v ++ after))).
  rewrite match_first_prefix.
  - rewrite (@match_first_here _ _ after [v]); [reflexivity|].
    unfold match_at, VideoUtils.videoIdRegex.
    rewrite run_cat, run_alt, run_cat, run_lit_here.
    rewrite run_alt.
    assert (E1 : forall k : jsstring -> list jsstring
                              -> option (jsstring * list jsstring),
               run (seq [plus (not_char "/"); Lit (js "/"); plus dot;
                         Lit (js "/")])
                   (js "watch?v=" ++ v ++ after) [] k = None).
    { intros k. cbn [seq]. rewrite run_cat. unfold plus at 1. cbn [run].
      apply rep_match_none. intros s' Hs'.
      now rewrite (no_slash_in_path Hs'). }
    rewrite E1. cbn [or_else]. rewrite run_alt.
    assert (E2 : forall k : jsstring -> list jsstring
                              -> option (jsstring * list jsstring),
               run (seq [Alt (Lit (js "v"))
                             (Cat (Lit (js "e"))
                                  (Alt (Lit (js "mbed")) (Lit [])));
                         Lit (js "/")])
                   (js "watch?v=" ++ v ++ after) [] k = None)
      by reflexivity.
    rewrite E2. cbn [or_else seq]. rewrite run_cat. unfold star. cbn [run].
    change (js "watch?v=" ++ v ++ after)
      with (js "watch" ++ (ch "?" :: query)).
    rewrite (@rep_match_gives_back _ dot afterDots (ch "?" :: query)
               (after, [v])).
    + reflexivity.
    + apply afterDots_query.
    + intros s' [x Hx] Hne. apply afterDots_later.
      destruct x as [|d x]; [now rewrite Hx in Hne|].
      injection Hx as _ Hx. now exists x.
    + repeat constructor.
  - cbn [noMatchIn js List.map list_ascii_of_string].
    repeat split; reflexivity.
Qed.
End UtilitiesReadBack.

(** X22: [extractVideoId] of the utilities module gives an id of
    eleven units of its class back: from the short form whatever
    follows the id (units beyond the eleventh are cut off), and from
    the watch form when what follows the id has no [/] and no second
    [v=] parameter. *)
Theorem utilities_extractVideoId_reads_back (v : jsstring) :
  List.length v = 11%nat ->
  Forall (fun c => VideoUtils.videoIdChar c = true) v ->
  (forall after,
      VideoUtils.extractVideoId (js "https://youtu.be/" ++ v ++ after)
      = Some v)
  /\ (forall after,
        includes (js "/") after = false ->
        includes (js "?v=") after = false ->
        includes (js "&v=") after = false ->
        VideoUtils.extractVideoId
          (js "https://www.youtube.com/watch?v=" ++ v ++ after) = Some v).
Proof.
  intros Hlen Hv. split.
  - intros after. now apply short_form.
  - intros after H1 H2 H3. now apply watch_form.
Qed.

Lemma utilities_extractVideoId_reads_back_witness :
  VideoUtils.extractVideoId
    (js "https://www.youtube.com/watch?v=" ++ js "dQw4w9WgXcQ" ++ js "&t=42")
  = Some (js "dQw4w9WgXcQ")
  /\ VideoUtils.extractVideoId
       (js "https://youtu.be/" ++ js "dQw4w9WgXcQ" ++ js "XYZ")
     = Some (js "dQw4w9WgXcQ").
Proof.
  destruct (@utilities_extractVideoId_reads_back (js "dQw4w9WgXcQ"))
    as [Hshort Hwatch].
  - reflexivity.
  - repeat constructor.
  - split; [apply Hwatch; reflexivity | apply Hshort].
Defined.

(** ** From the parsers to the segments: every segment built is valid *)

Lemma nat_to_string_not_empty (n : nat) : nat_to_string n <> [].
Proof.
  unfold nat_to_string.
  assert (H : Nat.to_uint n <> Decimal.Nil).
  { intros E. pose proof (DecimalNat.Unsigned.of_to n) as Hn.
    rewrite E in Hn. cbn in Hn. subst n. discriminate. }
  destruct (Nat.to_uint n); [congruence| | | | | | | | | |]; discriminate.
Qed.

(** A text with a unit that is not white space. *)
Definition notBlank (t : jsstring) : Prop :=
  exists c, In c t /\ is_space c = false.

Lemma drop_while_nil (p : char -> bool) (s : jsstring) :
  drop_while p s = [] -> Forall (fun c => p c = true) s.
Proof.
  induction s as [|c s IH]; cbn; [constructor|].
  destruct (p c) eqn:E; [|discriminate]. intros H. constructor; auto.
Qed.

Lemma notBlank_trim (t : jsstring) : notBlank t <-> trim t <> [].
Proof.
  split.
  - intros (c & Hin & Hc) E. unfold trim in E.
    apply (f_equal (@rev char)) in E. rewrite rev_involutive in E.
    cbn in E. apply drop_while_nil in E.
    destruct (drop_while_start is_space t) as [Hd | (d & r & Hd & Hdc)].
    + apply drop_while_nil in Hd. rewrite Forall_forall in Hd.
      specialize (Hd c Hin). cbn in Hd. congruence.
    + rewrite Hd in E. rewrite Forall_forall in E.
      specialize (E d). cbn in E.
      rewrite E in Hdc; [discriminate|]. apply in_or_app. right. now left.
  - intros H. destruct (trim_ends t) as [E | [(c & r & E & Hc) _]];
      [congruence|].
    exists c. split; [|exact Hc].
    apply (@subseq_In (trim t) t c (subseq_trim t)).
    rewrite E. now left.
Qed.

Lemma notBlank_collapse (t : jsstring) :
  notBlank t -> notBlank (collapse_spaces t).
Proof.
  intros (c & Hin & Hc). exists c. split; [|exact Hc].
  rewrite collapse_spaces_scan. apply has_In.
  rewrite has_collapse by exact Hc. now apply has_In.
Qed.

Lemma notBlank_join (texts : list jsstring) (t : jsstring) :
  In t texts -> notBlank t -> notBlank (join [SP] texts).
Proof.
  intros Hin (c & Hc & Hs). exists c. split; [|exact Hs].
  induction texts as [|x texts IH]; [destruct Hin|].
  cbn [join]. destruct texts as [|y texts].
  - destruct Hin as [->|[]]. exact Hc.
  - apply in_or_app. destruct Hin as [->|Hin]; [now left|].
    right. apply in_or_app. right. now apply IH.
Qed.

Lemma notBlank_trimmed (t : jsstring) : notBlank t -> notBlank (trim t).
Proof.
  intros H. apply notBlank_trim in H.
  destruct (trim_ends t) as [E | [(c & r & E & Hc) _]]; [congruence|].
  exists c. split; [rewrite E; now left | exact Hc].
Qed.

Lemma ends_outside_notBlank (t : jsstring) :
  ends_outside is_space t -> notBlank t.
Proof.
  intros (r & c & -> & Hc). exists c. split; [|exact Hc].
  apply in_or_app. right. now left.
Qed.

Section ValidSegments.
Import SegmentBuilder.
Variable opts : SegmentationOptions.
Variables audio video : url_maker.
Variables (c0 : CaptionData) (rest : list CaptionData).

Let loop := segmentLoop opts audio video c0 rest.

Hypothesis floor_positive : 0 < minSegmentDuration opts.
Hypothesis duration_not_negative : 0 <= segmentDuration opts.
Hypothesis overlap_within_duration : overlap opts <= segmentDuration opts.
Hypothesis texts_not_blank :
  Forall (fun c => notBlank (caption_text c)) (c0 :: rest).

(** What [validateSegment] asks of a segment. *)
Definition sound (s : VideoSegment) : Prop :=
  id s <> [] /\ 0 <= startTime s /\ startTime s < endTime s
  /\ notBlank (text s).

Lemma takeSentences_ends maxWords sentences : forall text_ words,
  text_ = [] \/ ends_outside is_space text_ ->
  takeSentences maxWords sentences text_ words = []
  \/ ends_outside is_space (takeSentences maxWords sentences text_ words).
Proof.
  induction sentences as [|sentence sentences IH]; intros text_ words H;
    cbn [takeSentences]; [exact H|].
  destruct (leb _ maxWords && truthy (trim sentence)) eqn:E; [|exact H].
  apply andb_true_iff in E. destruct E as [_ Ht].
  apply IH. right.
  destruct (trim_ends sentence) as [E | [_ He]];
    [rewrite E in Ht; discriminate|].
  now apply ends_outside_app, ends_outside_app.
Qed.

Lemma limitWords_notBlank t : notBlank t -> notBlank (limitWords opts t).
Proof.
  intros H. unfold limitWords.
  destruct (ltb _ _ && preferSentenceBoundaries opts); [|exact H].
  destruct (1 <? _)%nat; [|exact H].
  destruct (@takeSentences_ends (maxWordsPerSegment opts)
              (split_sentences t) [] 0%nat (or_introl eq_refl)) as [E|E].
  - now rewrite E.
  - destruct (takeSentences _ _ _ _) eqn:Et; [exact H|].
    now apply ends_outside_notBlank.
Qed.

Lemma window_text_notBlank t first others :
  windowCaptions c0 rest t (windowEnd opts c0 rest t) = first :: others ->
  notBlank (combineText (first :: others)).
Proof.
  intros H. unfold combineText.
  apply notBlank_trimmed, notBlank_collapse.
  apply (@notBlank_join _ (caption_text first)); [now left|].
  assert (Hin : In first (c0 :: rest)).
  { apply sortCaptions_In. unfold windowCaptions in H.
    assert (Hf : In first (first :: others)) by now left.
    rewrite <- H in Hf. apply filter_In in Hf. tauto. }
  rewrite Forall_forall in texts_not_blank. now apply texts_not_blank.
Qed.

Lemma segmentLoop_sound fuel : forall t n segs out,
  0 <= t -> Forall sound segs ->
  loop fuel t n segs = Some out -> Forall sound out.
Proof.
  induction fuel as [|fuel IH]; intros t n segs out Ht Hsegs; [discriminate|].
  unfold loop. rewrite segmentLoop_turn.
  destruct (ltb t _); [|intros H; now injection H as <-].
  destruct (windowCaptions _ _ _ _) as [|first others] eqn:Ew;
    [apply IH; [lra | exact Hsegs]|].
  destruct (windowSegment _ _ _ _ _ _ _ _ _) as [seg|] eqn:E;
    [|apply IH; [lra | exact Hsegs]].
  apply IH; [lra|]. apply Forall_app. split; [exact Hsegs|].
  constructor; [|constructor].
  pose proof (windowSegment_floor _ _ _ _ _ _ _ _ _ E) as Hfloor.
  destruct (windowSegment_start _ _ _ _ _ _ _ _ _ E) as (Hstart & _ & _).
  unfold reachesFloor in Hfloor.
  unfold windowSegment in E. destruct (geb _ _); [|discriminate].
  injection E as <-. unfold sound. cbn [id startTime endTime text] in *.
  set (actualStart := Math_max t (start first)) in *.
  set (actualEnd := Math_min _ _) in *.
  split; [apply nat_to_string_not_empty|].
  split; [lra|]. split; [lra|].
  apply limitWords_notBlank. now apply (window_text_notBlank t).
Qed.

Lemma sound_valid s :
  sound s ->
  CaptionProcessor.validateSegment s = true
  /\ VideoUtils.validateSegment s = true.
Proof.
  intros (Hid & Hs & He & Ht).
  assert (H : CaptionProcessor.validateSegment s = true).
  { unfold CaptionProcessor.validateSegment.
    apply notBlank_trim in Ht.
    repeat (apply andb_true_iff; split).
    - destruct (id s); [congruence | reflexivity].
    - now apply leb_le.
    - now apply ltb_lt.
    - destruct (trim (text s)); [congruence | reflexivity]. }
  split; exact H.
Qed.
End ValidSegments.

Lemma build_valid (fuel : nat) (opts : SegmentationOptions)
      (audio video : SegmentBuilder.url_maker)
      (captions : list CaptionData) (segs : list VideoSegment) :
  0 < minSegmentDuration opts -> 0 <= segmentDuration opts ->
  overlap opts <= segmentDuration opts ->
  Forall (fun c => notBlank (caption_text c)) captions ->
  SegmentBuilder.build fuel opts audio video captions = Some segs ->
  Forall (fun s => CaptionProcessor.validateSegment s = true
                   /\ VideoUtils.validateSegment s = true) segs.
Proof.
  intros Hfloor Hd Ho Htexts. unfold SegmentBuilder.build.
  destruct captions as [|c0 rest]; [intros H; injection H as <-; constructor|].
  intros H.
  eapply Forall_impl; [intros s Hs; apply sound_valid; exact Hs|].
  eapply (@segmentLoop_sound opts audio video c0 rest Hfloor Hd Ho Htexts);
    [| |exact H]; [apply Qle_refl | constructor].
Qed.

(** X23: when the minimum duration is positive, the segment duration
    is not negative and the overlap is not larger than it, every
    segment built from captions whose texts are not blank passes
    [validateSegment], of the backend and of the utilities module: its
    id is not empty, it does not start before 0, it ends after its
    start and its text is not blank. *)
Theorem built_segments_are_valid
        (numberToString : number -> jsstring) (fuel : nat)
        (captions : list CaptionData) (options : PartialOptions)
        (segs : list VideoSegment) :
  let opts := resolveOptions options in
  0 < minSegmentDuration opts -> 0 <= segmentDuration opts ->
  overlap opts <= segmentDuration opts ->
  Forall (fun c => exists u, In u (caption_text c) /\ is_space u = false)
         captions ->
  CaptionProcessor.createSegments fuel captions options = Some segs
  \/ VideoUtils.createVideoSegments numberToString fuel captions options
     = Some segs ->
  Forall (fun s => CaptionProcessor.validateSegment s = true
                   /\ VideoUtils.validateSegment s = true) segs.
Proof.
  intros opts Hfloor Hd Ho Htexts [H|H];
    eapply build_valid; eauto.
Qed.

Lemma built_segments_are_valid_witness :
  Forall (fun s => CaptionProcessor.validateSegment s = true
                   /\ VideoUtils.validateSegment s = true)
         ciao_utility_segments
  /\ List.length ciao_utility_segments = 2%nat.
Proof.
  split; [|reflexivity].
  apply (@built_segments_are_valid (fun _ => []) 3 ciao_captions noOptions).
  - reflexivity.
  - vm_compute. discriminate.
  - vm_compute. discriminate.
  - constructor; [exists (ch "C"); split; [now left | reflexivity]|].
    constructor; [exists (ch "S"); split; [now left | reflexivity]|].
    constructor.
  - right. vm_compute. reflexivity.
Defined.

Section ParsedTexts.
Import CaptionProcessor.

Lemma trimmed_notBlank (t raw : jsstring) :
  t = trim raw -> t <> [] -> notBlank t.
Proof.
  intros -> H. destruct (trim_ends raw) as [E | [(c & r & E & Hc) _]];
    [congruence|].
  exists c. split; [rewrite E; now left | exact Hc].
Qed.

Lemma parseSRT_trimmed (srtContent : jsstring) (out : list CaptionData) :
  parseSRT srtContent = Some out ->
  Forall (fun c => validCaption c
                   /\ exists raw, caption_text c = trim raw) out.
Proof.
  unfold parseSRT.
  apply (foldCaptions_invariant
           (Forall (fun c => validCaption c
                             /\ exists raw, caption_text c = trim raw)));
    [|constructor].
  intros block captions out' Hcaptions. unfold srtCaption.
  destruct (3 <=? _)%nat; [|intros E; now injection E as <-].
  destruct (Regex.match_first _ _) as [[|m1 [|m2 [|m3 ms]]]|];
    try (intros E; now injection E as <-).
  intros E.
  eapply (@pushCaption_valid (fun t => exists raw, t = trim raw));
    [exact Hcaptions | eexists; reflexivity | exact E].
Qed.

Lemma parseCaptions_notBlank (captionText : jsstring)
      (captions : list CaptionData) :
  parseCaptions captionText = Some captions ->
  Forall (fun c => notBlank (caption_text c)) captions.
Proof.
  unfold parseCaptions. destruct (_ || _).
  - intros H. apply parseTTML_valid in H.
    eapply Forall_impl; [|exact H].
    intros c [(Ht & _) (raw & E)].
    unfold cleanText in E. eapply trimmed_notBlank; eauto.
  - destruct (includes _ _).
    + intros H. apply parseSRT_trimmed in H.
      eapply Forall_impl; [|exact H].
      intros c [(Ht & _) (raw & E)]. eapply trimmed_notBlank; eauto.
    + intros H. injection H as <-.
      apply Forall_forall. intros c Hc.
      apply In_nth_error in Hc. destruct Hc as [i Hi].
      pose proof (parsePlainText_inSlots captionText) as Hslots.
      destruct (Hslots i c Hi) as (_ & _ & Ht & Etrim).
      eapply trimmed_notBlank; [symmetry; exact Etrim | exact Ht].
Qed.
End ParsedTexts.

(** X24: from the payload to the segments.  With a positive minimum
    duration, a segment duration that is not negative and an overlap
    not larger than it (the defaults, and what [processVideo] passes
    for a requested duration of at least 1), every segment that
    [createSegments] builds from what [parseCaptions] returns passes
    [validateSegment]. *)
Theorem parsed_captions_give_valid_segments
        (captionText : jsstring) (captions : list CaptionData)
        (fuel : nat) (options : PartialOptions) (segs : list VideoSegment) :
  let opts := resolveOptions options in
  0 < minSegmentDuration opts -> 0 <= segmentDuration opts ->
  overlap opts <= segmentDuration opts ->
  CaptionProcessor.parseCaptions captionText = Some captions ->
  CaptionProcessor.createSegments fuel captions options = Some segs ->
  Forall (fun s => CaptionProcessor.validateSegment s = true) segs.
Proof.
  intros opts Hfloor Hd Ho Hparse Hbuild.
  apply parseCaptions_notBlank in Hparse.
  eapply Forall_impl;
    [|exact (@build_valid fuel opts _ _ captions segs Hfloor Hd Ho Hparse
               Hbuild)].
  now intros s [H _].
Qed.

(** The segments built from the plain payload of the overlap
    example. *)
Definition ciao_plain_segments : list VideoSegment :=
  Eval vm_compute in
    match CaptionProcessor.parseCaptions
            (js "Ciao, come stai? Sono molto felice di vederti oggi.") with
    | Some captions =>
        match CaptionProcessor.createSegments 3 captions noOptions with
        | Some segments => segments
        | None => []
        end
    | None => []
    end.

Lemma parsed_captions_give_valid_segments_witness :
  Forall (fun s => CaptionProcessor.validateSegment s = true)
         ciao_plain_segments
  /\ List.length ciao_plain_segments = 1%nat.
Proof.
  split; [|reflexivity].
  eapply (@parsed_captions_give_valid_segments
            (js "Ciao, come stai? Sono molto felice di vederti oggi.")
            _ 3 noOptions).
  - reflexivity.
  - vm_compute. discriminate.
  - vm_compute. discriminate.
  - vm_compute. reflexivity.
  - vm_compute. reflexivity.
Defined.

(** ** Reading a time stamp *)

Section SingleUnitSplit.
Import Regex.

(** [s.split(r)] for an expression that matches single units of a
    class: the pieces between these units; [cur] is the piece being
    read, reversed. *)
Fixpoint splitEach (p : char -> bool) (cur : jsstring) (s : jsstring)
  : list jsstring :=
  match s with
  | [] => [rev cur]
  | c :: s' => if p c then rev cur :: splitEach p [] s'
               else splitEach p (c :: cur) s'
  end.

Lemma split_from_single (r : regex) (p : char -> bool) :
  (forall c s, match_at r (c :: s)
               = if p c then Some (s, @nil jsstring) else None) ->
  forall s cur, split_from r 0 cur s = splitEach p cur s.
Proof.
  intros Hr. induction s as [|c s IH]; intros cur; [reflexivity|].
  cbn [split_from splitEach]. rewrite Hr. destruct (p c).
  - replace (List.length (c :: s) - List.length s)%nat with 1%nat
      by (cbn [List.length]; lia).
    now rewrite IH.
  - apply IH.
Qed.

Lemma split_char_scan sep s :
  split_char sep s = splitEach (char_eqb sep) [] s.
Proof.
  unfold split_char, split. apply split_from_single.
  intros c r. unfold match_at. cbn [run starts_with List.length skipn].
  now rewrite andb_true_r.
Qed.

Lemma split_each_scan p s : split_each p s = splitEach p [] s.
Proof.
  unfold split_each, split. apply split_from_single.
  intros c r. unfold match_at, one. cbn [run].
  rewrite rep_match_turn. cbv zeta. cbn [may_take Nat.pred option_map].
  rewrite andb_true_r. destruct (p c); [|reflexivity].
  now rewrite rep_match_zero.
Qed.

Lemma splitEach_piece p x : forall cur,
  Forall (fun c => p c = false) x ->
  (splitEach p cur x = [rev cur ++ x])
  /\ forall c rest, p c = true ->
       splitEach p cur (x ++ c :: rest) = (rev cur ++ x) :: splitEach p [] rest.
Proof.
  induction x as [|d x IH]; intros cur Hx.
  - cbn. rewrite app_nil_r. split; [reflexivity|].
    intros c rest Hc. now rewrite Hc.
  - inversion Hx as [|? ? Hd Hx']; subst.
    destruct (IH (d :: cur) Hx') as [IH1 IH2].
    cbn [app splitEach rev] in *. rewrite Hd.
    rewrite <- app_assoc in IH1, IH2. cbn [app] in IH1, IH2.
    split; [exact IH1 | exact IH2].
Qed.
End SingleUnitSplit.

Section Stamps.
Import CaptionProcessor NumberParsing.

(** A non-empty string of decimal digits, and the number it writes. *)
Definition digits (x : jsstring) : Prop :=
  x <> [] /\ Forall (fun c => is_digit c = true) x.

Definition decimalFrom (acc : N) (x : jsstring) : N :=
  fold_left (fun a c => (a * 10 + (c - 48))%N) x acc.

Definition decimal (x : jsstring) : number :=
  inject_Z (Z.of_N (decimalFrom 0 x)).

Lemma digit_facts c :
  is_digit c = true ->
  digit_value c = Some (c - 48)%N /\ (c - 48 <? 10)%N = true
  /\ is_space c = false /\ char_eqb c (ch "-") = false
  /\ char_eqb c (ch "+") = false /\ char_eqb c (ch ":") = false
  /\ char_eqb c (ch ",") = false /\ char_eqb c (ch ".") = false
  /\ char_eqb c (ch "x") = false /\ char_eqb c (ch "X") = false.
Proof.
  intros H. unfold digit_value. rewrite H.
  unfold is_digit in H. apply andb_true_iff in H. destruct H as [H1 H2].
  apply N.leb_le in H1. apply N.leb_le in H2.
  split; [reflexivity|]. split; [apply N.ltb_lt; lia|].
  unfold is_space, char_eqb, ch.
  repeat split;
    repeat match goal with
           | |- context [(?a <=? ?b)%N] =>
               let E := fresh in
               destruct (a <=? b)%N eqn:E;
               [apply N.leb_le in E | apply N.leb_gt in E]
           | |- context [(?a =? ?b)%N] =>
               let E := fresh in
               destruct (a =? b)%N eqn:E;
               [apply N.eqb_eq in E | apply N.eqb_neq in E]
           end; cbn in *; try reflexivity; try lia.
Qed.

Lemma read_digits_all x : forall acc,
  Forall (fun c => is_digit c = true) x ->
  read_digits 10 (Some acc) x = (Some (decimalFrom acc x), []).
Proof.
  induction x as [|c x IH]; intros acc Hx; [reflexivity|].
  inversion Hx as [|? ? Hc Hx']; subst.
  destruct (digit_facts c Hc) as (Hv & Hlt & _).
  cbn [read_digits decimalFrom fold_left]. rewrite Hv, Hlt.
  now apply IH.
Qed.

Lemma parseInt_digits x :
  digits x -> parseInt x = Finite (decimal x).
Proof.
  intros [Hne Hx]. destruct x as [|c x]; [congruence|].
  inversion Hx as [|? ? Hc Hx']; subst.
  destruct (digit_facts c Hc)
    as (Hv & Hlt & Hsp & Hminus & Hplus & _ & _ & _ & Hx1 & Hx2).
  unfold parseInt. cbn [drop_while]. rewrite Hsp.
  unfold read_sign. rewrite Hminus, Hplus.
  assert (E : starts_with (js "0x") (c :: x) || starts_with (js "0X") (c :: x)
              = false).
  { destruct x as [|d x].
    - cbn. now rewrite !andb_false_r.
    - inversion Hx' as [|? ? Hd _]; subst.
      destruct (digit_facts d Hd) as (_ & _ & _ & _ & _ & _ & _ & _ & Hd1 & Hd2).
      cbn [js List.map list_ascii_of_string starts_with].
      change (N_of_ascii "x") with (ch "x").
      change (N_of_ascii "X") with (ch "X").
      rewrite (char_eqb_sym (ch "x") d), (char_eqb_sym (ch "X") d), Hd1, Hd2.
      now rewrite !andb_false_r. }
  rewrite E. cbn [read_digits]. rewrite Hv, Hlt.
  rewrite (@read_digits_all x _ Hx'). cbn [fst signed].
  unfold decimal. cbn [decimalFrom fold_left].
  now rewrite N.mul_0_l, N.add_0_l.
Qed.

Lemma digits_or_zero x : digits x -> or_zero (Some x) = x.
Proof. intros [Hne _]. destruct x; [congruence | reflexivity]. Qed.

Lemma digits_free x (sep : char) :
  digits x ->
  sep = ch ":" \/ sep = ch "," \/ sep = ch "." ->
  Forall (fun c => char_eqb sep c = false) x.
Proof.
  intros [_ Hx] Hsep. eapply Forall_impl; [|exact Hx].
  intros c Hc. rewrite char_eqb_sym.
  destruct (digit_facts c Hc) as (_ & _ & _ & _ & _ & H1 & H2 & H3 & _).
  destruct Hsep as [-> | [-> | ->]]; assumption.
Qed.

Lemma includes_colon x y : includes (js ":") (x ++ ch ":" :: y) = true.
Proof.
  induction x as [|c x IH]; cbn [app includes].
  - reflexivity.
  - rewrite IH. apply orb_true_r.
Qed.
End Stamps.

Section StampValue.
Import CaptionProcessor NumberParsing.
Variables h m s ms : jsstring.
Hypothesis Hh : digits h.
Hypothesis Hm : digits m.
Hypothesis Hs : digits s.
Hypothesis Hms : digits ms.

Let isColon : char -> bool := char_eqb (ch ":").
Let isMark : char -> bool :=
  fun c => char_eqb c (ch ",") || char_eqb c (ch ".").

Lemma digits_no_colon x : digits x -> Forall (fun c => isColon c = false) x.
Proof. intros H. apply digits_free; [exact H | now left]. Qed.

Lemma digits_no_mark x : digits x -> Forall (fun c => isMark c = false) x.
Proof.
  intros [_ H]. eapply Forall_impl; [|exact H].
  intros c Hc. destruct (digit_facts c Hc) as (_ & _ & _ & _ & _ & _ & H2 & H3 & _).
  unfold isMark. now rewrite H2, H3.
Qed.

Lemma seconds_part (tail : jsstring) :
  Forall (fun c => isColon c = false) tail ->
  split_char (ch ":") (h ++ js ":" ++ m ++ js ":" ++ s ++ tail)
  = [h; m; s ++ tail].
Proof.
  intros Htail. rewrite split_char_scan. fold isColon.
  change (js ":" ++ m ++ js ":" ++ s ++ tail)
    with (ch ":" :: (m ++ ch ":" :: (s ++ tail))).
  destruct (@splitEach_piece isColon h [] (digits_no_colon Hh)) as [_ ->];
    [|reflexivity].
  destruct (@splitEach_piece isColon m [] (digits_no_colon Hm)) as [_ ->];
    [|reflexivity].
  destruct (@splitEach_piece isColon (s ++ tail) []) as [-> _].
  - apply Forall_app. split; [apply digits_no_colon, Hs | exact Htail].
  - reflexivity.
Qed.

Lemma stamp_value (secondsParts : list jsstring) (sec msec : number) :
  parseInt (or_zero (nth_error secondsParts 0)) = Finite sec ->
  parseInt (or_zero (nth_error secondsParts 1)) = Finite msec ->
  xadd (xadd (xadd (xscale (parseInt (or_zero (Some h))) 3600)
                   (xscale (parseInt (or_zero (Some m))) 60))
             (parseInt (or_zero (nth_error secondsParts 0))))
       (xscale (parseInt (or_zero (nth_error secondsParts 1))) (1 # 1000))
  = Finite (decimal h * 3600 + decimal m * 60 + sec + msec * (1 # 1000)).
Proof.
  intros -> ->.
  rewrite (digits_or_zero Hh), (digits_or_zero Hm).
  now rewrite (parseInt_digits Hh), (parseInt_digits Hm).
Qed.
End StampValue.

(** A stamp with its fraction. *)
Lemma stamp_with_fraction (h m s ms : jsstring) (sep : char) :
  digits h -> digits m -> digits s -> digits ms ->
  sep = ch "," \/ sep = ch "." ->
  CaptionProcessor.parseTimeToSeconds
    (h ++ js ":" ++ m ++ js ":" ++ s ++ [sep] ++ ms)
  = NumberParsing.Finite
      (decimal h * 3600 + decimal m * 60 + decimal s
       + decimal ms * (1 # 1000)).
Proof.
  intros Hh Hm Hs Hms Hsep.
  assert (Hmark : char_eqb sep (ch ",") || char_eqb sep (ch ".") = true)
    by (destruct Hsep as [-> | ->]; reflexivity).
  assert (Hsep_colon : char_eqb (ch ":") sep = false)
    by (destruct Hsep as [-> | ->]; reflexivity).
  unfold CaptionProcessor.parseTimeToSeconds.
  change (js ":" ++ m ++ js ":" ++ s ++ [sep] ++ ms)
    with (ch ":" :: (m ++ js ":" ++ s ++ [sep] ++ ms)).
  rewrite includes_colon.
  change (ch ":" :: (m ++ js ":" ++ s ++ [sep] ++ ms))
    with (js ":" ++ m ++ js ":" ++ s ++ [sep] ++ ms).
  rewrite (@seconds_part h m s Hh Hm Hs ([sep] ++ ms)).
  2:{ constructor; [exact Hsep_colon|]. apply digits_free; auto. }
  cbn [nth_error].
  destruct s as [|c s'] eqn:Es; [destruct Hs; congruence|].
  cbn [app]. rewrite split_each_scan.
  change (c :: s' ++ sep :: ms) with ((c :: s') ++ sep :: ms).
  destruct (@splitEach_piece
              (fun c => char_eqb c (ch ",") || char_eqb c (ch "."))
              (c :: s') [] (digits_no_mark Hs)) as [_ ->];
    [|exact Hmark].
  destruct (@splitEach_piece
              (fun c => char_eqb c (ch ",") || char_eqb c (ch "."))
              ms [] (digits_no_mark Hms)) as [-> _].
  cbn [rev app].
  apply (@stamp_value h m Hh Hm [c :: s'; ms] (decimal (c :: s'))
                      (decimal ms));
    cbn [nth_error];
    rewrite digits_or_zero by assumption; now apply parseInt_digits.
Qed.

(** *** The stamp on doubles *)

(** The whole number that a string of digits writes. *)
Definition wholeOf (x : jsstring) : Z := Z.of_N (decimalFrom 0 x).

Lemma xround_whole (q : Q) (z : Z) :
  q == inject_Z z -> (Z.abs z < 2 ^ 53)%Z ->
  Rounded.xround (NumberParsing.Finite q) = NumberParsing.Finite (inject_Z z).
Proof.
  intros E Hz. unfold Rounded.xround.
  now rewrite (@round_compat _ _ E), (@round_whole _ Hz).
Qed.

Lemma rounded_parseInt_digits x :
  digits x -> (wholeOf x < 2 ^ 53)%Z ->
  Rounded.parseInt x = NumberParsing.Finite (inject_Z (wholeOf x)).
Proof.
  intros Hx Hbound. unfold Rounded.parseInt.
  rewrite (parseInt_digits Hx). apply xround_whole; [reflexivity|].
  unfold wholeOf in *. lia.
Qed.

(** Hours, minutes and seconds that are whole add up without
    rounding while the sum stays below 2^53. *)
Lemma rounded_whole_seconds (a b c : Z) :
  (0 <= a)%Z -> (0 <= b)%Z -> (0 <= c)%Z ->
  (a * 3600 + b * 60 + c < 2 ^ 53)%Z ->
  Rounded.plus
    (Rounded.plus (Rounded.times (NumberParsing.Finite (inject_Z a)) 3600)
                  (Rounded.times (NumberParsing.Finite (inject_Z b)) 60))
    (NumberParsing.Finite (inject_Z c))
  = NumberParsing.Finite (inject_Z (a * 3600 + b * 60 + c)).
Proof.
  intros Ha Hb Hc Hsum. unfold Rounded.plus, Rounded.times.
  cbn [NumberParsing.xscale].
  rewrite (@xround_whole (inject_Z a * 3600) (a * 3600));
    [| rewrite inject_Z_mult; reflexivity | lia].
  rewrite (@xround_whole (inject_Z b * 60) (b * 60));
    [| rewrite inject_Z_mult; reflexivity | lia].
  cbn [NumberParsing.xadd].
  rewrite (@xround_whole (inject_Z (a * 3600) + inject_Z (b * 60))
                         (a * 3600 + b * 60));
    [| rewrite !inject_Z_plus; reflexivity | lia].
  cbn [NumberParsing.xadd].
  apply xround_whole; [rewrite !inject_Z_plus; reflexivity | lia].
Qed.

Section RoundedStamp.
Import NumberParsing.
Variables h m s ms : jsstring.
Hypothesis Hh : digits h.
Hypothesis Hm : digits m.
Hypothesis Hs : digits s.
Hypothesis Hms : digits ms.
Hypothesis whole_below :
  (wholeOf h * 3600 + wholeOf m * 60 + wholeOf s < 2 ^ 53)%Z.

Lemma wholeOf_not_negative x : (0 <= wholeOf x)%Z.
Proof. unfold wholeOf. lia. Qed.

Lemma rounded_stamp_value (secondsParts : list jsstring) (sec : Z)
      (msec : xnumber) :
  (0 <= sec)%Z ->
  (wholeOf h * 3600 + wholeOf m * 60 + sec < 2 ^ 53)%Z ->
  Rounded.parseInt (CaptionProcessor.or_zero (nth_error secondsParts 0))
  = Finite (inject_Z sec) ->
  Rounded.parseInt (CaptionProcessor.or_zero (nth_error secondsParts 1))
  = msec ->
  Rounded.plus
    (Rounded.plus
       (Rounded.plus
          (Rounded.times
             (Rounded.parseInt (CaptionProcessor.or_zero (Some h))) 3600)
          (Rounded.times
             (Rounded.parseInt (CaptionProcessor.or_zero (Some m))) 60))
       (Rounded.parseInt (CaptionProcessor.or_zero (nth_error secondsParts 0))))
    (Rounded.over
       (Rounded.parseInt (CaptionProcessor.or_zero (nth_error secondsParts 1)))
       1000)
  = Rounded.plus
      (Finite (inject_Z (wholeOf h * 3600 + wholeOf m * 60 + sec)))
      (Rounded.over msec 1000).
Proof.
  intros Hsec Hsum -> ->.
  pose proof (wholeOf_not_negative h). pose proof (wholeOf_not_negative m).
  rewrite (digits_or_zero Hh), (digits_or_zero Hm).
  rewrite (rounded_parseInt_digits Hh), (rounded_parseInt_digits Hm) by lia.
  now rewrite rounded_whole_seconds.
Qed.

Lemma no_fraction (z : Z) :
  (Z.abs z < 2 ^ 53)%Z ->
  Rounded.plus (Finite (inject_Z z)) (Rounded.over (Finite 0) 1000)
  = Finite (inject_Z z).
Proof.
  intros Hz.
  change (Rounded.over (Finite 0) 1000) with (Finite 0).
  unfold Rounded.plus. cbn [xadd].
  apply xround_whole; [apply Qplus_0_r | exact Hz].
Qed.
End RoundedStamp.


(** The value of [00:01:02.5]: the double nearest to 62.005. *)
Definition one_minute_two : number :=
  Eval vm_compute in Double.literal 62005 1000.


(** ** The progress query after a job *)

Lemma findProgress_finds (m : VideoProcessingService.ProgressMap)
      (key : jsstring) (p : VideoProcessingService.ProcessingProgress) :
  VideoProcessingService.map_get key m = Some p ->
  exists q, VideoProcessingService.findProgress
              (VideoProcessingService.videoId p) m = Some q
            /\ VideoProcessingService.videoId q
               = VideoProcessingService.videoId p.
Proof.
  induction m as [|[k v] m IH]; cbn; [discriminate|].
  destruct (str_eqb key k).
  - intros H. injection H as ->. rewrite str_eqb_refl. now exists p.
  - intros H.
    destruct (str_eqb (VideoProcessingService.videoId v)
                      (VideoProcessingService.videoId p)) eqn:E.
    + apply str_eqb_eq in E. now exists v.
    + now apply IH.
Qed.

(** X26: once [processSegments] has run for a video, the progress
    query for that video is never [null]: it answers with a record of
    that video (the oldest one in the map, which need not be the one
    of this job). *)
Theorem getProgress_after_processSegments
        (tools : VideoProcessingService.Tools) (video : jsstring)
        (segments : list VideoSegment) (w : VideoProcessingService.World) :
  let w' := snd (VideoProcessingService.processSegments
                   tools video segments w) in
  exists q,
    VideoProcessingService.getProgress video w' = (Ret (Some q), w')
    /\ VideoProcessingService.videoId q = video.
Proof.
  cbv zeta.
  destruct (processSegments_settles_job_record tools video segments w)
    as (w' & job & E & Hjob & Hvideo & _).
  rewrite E. cbn [snd]. unfold VideoProcessingService.getProgress.
  destruct (findProgress_finds _ _ Hjob) as (q & Hq & Hv).
  rewrite Hvideo in Hq, Hv. exists q. now rewrite Hq.
Qed.

(** ** Segment building: what is left for later *)

Section BuiltFields.
Import SegmentBuilder.
Variable opts : SegmentationOptions.
Variables audio video : url_maker.
Variables (c0 : CaptionData) (rest : list CaptionData).

(** The URLs of a segment are made from its own id and bounds, and
    its translation is the empty string. *)
Definition named (s : VideoSegment) : Prop :=
  translation s = Some []
  /\ exists n, id s = nat_to_string n
               /\ audioUrl s = audio n (startTime s) (endTime s)
               /\ videoUrl s = video n (startTime s) (endTime s).

Lemma segmentLoop_named fuel : forall t n segs out,
  Forall named segs ->
  segmentLoop opts audio video c0 rest fuel t n segs = Some out ->
  Forall named out.
Proof.
  induction fuel as [|fuel IH]; intros t n segs out Hsegs; [discriminate|].
  rewrite segmentLoop_turn.
  destruct (ltb t _); [|intros H; now injection H as <-].
  destruct (windowCaptions _ _ _ _) as [|first others]; [now apply IH|].
  destruct (windowSegment _ _ _ _ _ _ _ _ _) as [seg|] eqn:E; [|now apply IH].
  apply IH. apply Forall_app. split; [exact Hsegs|].
  constructor; [|constructor].
  unfold windowSegment in E. destruct (geb _ _); [|discriminate].
  injection E as <-. split; [reflexivity|]. now exists n.
Qed.
End BuiltFields.

(** X27: what segment building leaves to the later stages.  Every
    segment of [createSegments] has an empty translation and empty
    URLs; every segment of [createVideoSegments] has an empty
    translation, and URLs under [/api/audio/] and [/api/video/] that
    name the segment's own id, start and end. *)
Theorem built_segments_fields
        (numberToString : number -> jsstring) (fuel : nat)
        (captions : list CaptionData) (options : PartialOptions)
        (segs : list VideoSegment) :
  (CaptionProcessor.createSegments fuel captions options = Some segs ->
   Forall (fun s => translation s = Some [] /\ audioUrl s = Some []
                    /\ videoUrl s = Some []) segs)
  /\ (VideoUtils.createVideoSegments numberToString fuel captions options
      = Some segs ->
      Forall (fun s =>
                let name := id s ++ js "_" ++ numberToString (startTime s)
                            ++ js "_" ++ numberToString (endTime s) in
                translation s = Some []
                /\ audioUrl s
                   = Some (js "/api/audio/segment_" ++ name ++ js ".mp3")
                /\ videoUrl s
                   = Some (js "/api/video/segment_" ++ name ++ js ".mp4"))
             segs).
Proof.
  unfold CaptionProcessor.createSegments, VideoUtils.createVideoSegments,
    SegmentBuilder.build.
  split; intros H;
    (destruct captions as [|c0 rest]; [injection H as <-; constructor|]);
    (eapply Forall_impl; [|eapply segmentLoop_named; [|exact H]; constructor]);
    intros s (Ht & n & Hid & Ha & Hv); cbv zeta.
  - now repeat split.
  - split; [exact Ht|]. rewrite Ha, Hv, Hid.
    unfold VideoUtils.generateAudioUrl, VideoUtils.generateVideoUrl.
    now rewrite <- !app_assoc.
Qed.

Lemma built_segments_fields_witness :
  Forall (fun s => translation s = Some [] /\ audioUrl s = Some []
                   /\ videoUrl s = Some [])
         [ mkSegment (js "1") 0 8 ciao_both (Some []) (Some []) (Some []);
           mkSegment (js "2") 7 10 ciao_second (Some []) (Some []) (Some []) ].
Proof.
  apply (proj1 (@built_segments_fields (fun _ => []) 3 ciao_captions
                  noOptions _)).
  reflexivity.
Defined.

(** ** The arrow-style parsers: the times are always numbers *)

Section SrtTimes.
Import NumberParsing.

Lemma digits_of_run (x : jsstring) (n : nat) :
  Forall (fun c => is_digit c = true) x -> (S n <= List.length x)%nat ->
  digits x.
Proof.
  intros Hx Hlen. split; [|exact Hx]. intros ->. cbn in Hlen. lia.
Qed.

Lemma decimal_not_negative (x : jsstring) : 0 <= decimal x.
Proof.
  unfold decimal. change 0 with (inject_Z 0). rewrite <- Zle_Qle. lia.
Qed.

Lemma utilities_time (h m s ms : jsstring) :
  digits h -> digits m -> digits s -> digits ms ->
  exists q, VideoUtils.parseTimeToSeconds h m s ms = Finite q /\ 0 <= q.
Proof.
  intros Hh Hm Hs Hms. unfold VideoUtils.parseTimeToSeconds.
  rewrite !parseInt_digits by assumption. cbn [xscale xadd].
  eexists. split; [reflexivity|].
  pose proof (decimal_not_negative h). pose proof (decimal_not_negative m).
  pose proof (decimal_not_negative s). pose proof (decimal_not_negative ms).
  nra.
Qed.
End SrtTimes.

Section UtilitiesSrt.
Import NumberParsing.

(** What [parseSRTCaptions] guarantees of a caption. *)
Definition timedCaption (c : CaptionData) : Prop :=
  0 <= start c /\ 0 <= end_ c
  /\ trim (caption_text c) = caption_text c
  /\ stripTags (caption_text c) = caption_text c.

Lemma utilities_srtCaption_total block captions :
  Forall timedCaption captions ->
  exists out, VideoUtils.srtCaption block captions = Some out
              /\ Forall timedCaption out.
Proof.
  intros Hcaptions. unfold VideoUtils.srtCaption.
  destruct (3 <=? _)%nat; [|now exists captions].
  destruct (Regex.match_first _ _)
    as [[|h1 [|m1 [|s1 [|ms1 [|h2 [|m2 [|s2 [|ms2 [|extra caps]]]]]]]]]|] eqn:E;
    try (now exists captions).
  apply match_first_sound in E.
  destruct E as (before & from & rest & _ & Hm).
  unfold VideoUtils.srtTimeRegex, VideoUtils.srtStampGroups, Regex.seq,
    Regex.times, Regex.star in Hm.
  invert_matches.
  repeat match goal with
         | H : _ ++ _ = _ ++ _ |- _ =>
             cbn in H; apply app_inv_tail in H; subst
         end.
  match goal with
  | H : _ = [h1; m1; s1; ms1; h2; m2; s2; ms2] |- _ =>
      cbn [app] in H; injection H as -> -> -> -> -> -> -> ->
  end.
  destruct (@utilities_time h1 m1 s1 ms1) as (a & -> & Ha);
    try (eapply digits_of_run; eassumption).
  destruct (@utilities_time h2 m2 s2 ms2) as (b & -> & Hb);
    try (eapply digits_of_run; eassumption).
  eexists. split; [reflexivity|].
  apply Forall_app. split; [exact Hcaptions|].
  constructor; [|constructor].
  repeat split; cbn [start end_ caption_text]; try assumption.
  - apply trim_twice.
  - rewrite stripTags_scan. apply stripTags_fixed.
    eapply pairFree_subseq; [apply subseq_trim|].
    rewrite stripTags_scan. apply stripTags_pairFree.
Qed.

Lemma utilities_parseSRT_total content :
  exists out, VideoUtils.parseSRTCaptions content = Some out
              /\ Forall timedCaption out.
Proof.
  unfold VideoUtils.parseSRTCaptions.
  assert (H : forall blocks captions,
             Forall timedCaption captions ->
             exists out,
               CaptionProcessor.foldCaptions VideoUtils.srtCaption blocks
                 captions = Some out
               /\ Forall timedCaption out).
  { induction blocks as [|block blocks IH]; intros captions Hc; cbn.
    - now exists captions.
    - destruct (utilities_srtCaption_total block Hc) as (out & -> & Hout).
      now apply IH. }
  apply H. constructor.
Qed.
End UtilitiesSrt.

Section BackendSrt.
Import NumberParsing CaptionProcessor.

Lemma backend_srtCaption_total block captions :
  exists out, srtCaption block captions = Some out.
Proof.
  unfold srtCaption.
  destruct (3 <=? _)%nat; [|now exists captions].
  destruct (Regex.match_first _ _) as [[|m1 [|m2 [|extra caps]]]|] eqn:E;
    try (now exists captions).
  apply match_first_sound in E.
  destruct E as (before & from & rest & _ & Hm).
  unfold srtTimeRegex, srtStamp, Regex.seq, Regex.times, Regex.star in Hm.
  invert_matches.
  repeat match goal with
         | H : ?a ++ js ":" ++ ?b ++ js ":" ++ ?c ++ js "," ++ ?d ++ ?tail
               = ?x ++ ?tail |- _ =>
             assert (x = a ++ js ":" ++ b ++ js ":" ++ c ++ [ch ","] ++ d)
               by (apply (app_inv_tail tail); rewrite <- H;
                   now rewrite <- !app_assoc);
             clear H
         end.
  subst.
  match goal with
  | H : _ = [m1; m2] |- _ =>
      change (([] ++ [?a]) ++ [?b]) with [a; b] in H; injection H as <- <-
  end.
  repeat match goal with
         | |- context [parseTimeToSeconds
                         (?a ++ 58%N :: ?b ++ 58%N :: ?c ++ 44%N :: ?d)] =>
             change (a ++ 58%N :: b ++ 58%N :: c ++ 44%N :: d)
               with (a ++ js ":" ++ b ++ js ":" ++ c ++ [ch ","] ++ d);
             rewrite (@stamp_with_fraction a b c d (ch ","));
             try (eapply digits_of_run; eassumption); try (now left)
         end.
  unfold pushCaption.
  destruct (_ && _); eexists; reflexivity.
Qed.

Lemma backend_parseSRT_total content :
  exists out, parseSRT content = Some out.
Proof.
  unfold parseSRT.
  assert (H : forall blocks captions,
             exists out, foldCaptions srtCaption blocks captions = Some out).
  { induction blocks as [|block blocks IH]; intros captions; cbn.
    - now exists captions.
    - destruct (backend_srtCaption_total block captions) as (out & ->).
      apply IH. }
  apply H.
Qed.
End BackendSrt.

(** X28: the arrow-style parsers always return.  The stamps their
    expressions accept are made of decimal digits, so the times they
    compute are numbers that are not negative: neither
    [CaptionProcessor.parseSRT] nor [parseSRTCaptions] of the utilities
    module ever meets [NaN] or an infinity.  What the utilities parser
    emits has a start and an end that are not negative and a text that
    is trimmed and holds no tag. *)
Theorem srt_parsers_return (content : jsstring) :
  (exists captions, CaptionProcessor.parseSRT content = Some captions)
  /\ (exists captions,
        VideoUtils.parseSRTCaptions content = Some captions
        /\ Forall (fun c => 0 <= start c /\ 0 <= end_ c
                            /\ trim (caption_text c) = caption_text c
                            /\ stripTags (caption_text c) = caption_text c)
                  captions).
Proof.
  split.
  - apply backend_parseSRT_total.
  - destruct (utilities_parseSRT_total content) as (captions & E & H).
    exists captions. split; [exact E|].
    eapply Forall_impl; [|exact H]. intros c Hc. exact Hc.
Qed.

(** ** Merging: the two extremes *)

Section MergeExtremes.

(** The gap between a segment and the next one as the code computes
    it: the difference [next.startTime - current.endTime], rounded. *)
Definition gap (a b : VideoSegment) : option number :=
  Double.sub (startTime b) (endTime a).

(** Every gap is above 2 seconds. *)
Fixpoint spaced (l : list VideoSegment) : Prop :=
  match l with
  | a :: ((b :: _) as rest) =>
      (exists g, gap a b = Some g /\ 2 < g) /\ spaced rest
  | _ => True
  end.

(** Every gap is at most 2 seconds. *)
Fixpoint chained (l : list VideoSegment) : Prop :=
  match l with
  | a :: ((b :: _) as rest) =>
      (exists g, gap a b = Some g /\ g <= 2) /\ chained rest
  | _ => True
  end.

Lemma rounded_merge_apart rest : forall current merged,
  spaced (current :: rest) ->
  Rounded.mergeLoop rest current merged = Some (merged ++ current :: rest).
Proof.
  induction rest as [|next rest IH]; intros current merged H;
    cbn [Rounded.mergeLoop]; [reflexivity|].
  destruct H as [(g & Hg & Hlt) Hrest]. unfold gap in Hg. rewrite Hg.
  assert (E : leb g 2 = false).
  { apply not_true_iff_false. intros E. apply leb_le in E.
    exact (Qlt_not_le _ _ Hlt E). }
  rewrite E, (IH next (merged ++ [current]) Hrest), <- app_assoc.
  reflexivity.
Qed.

Lemma rounded_merge_chain rest : forall current,
  (forall current', endTime current' = endTime current ->
                    chained (current' :: rest)) ->
  exists t,
    Rounded.mergeLoop rest current []
    = Some [mkSegment (id current) (startTime current)
                      (endTime (last rest current)) t
                      (translation current) (audioUrl current)
                      (videoUrl current)].
Proof.
  induction rest as [|next rest IH]; intros current H;
    cbn [Rounded.mergeLoop].
  - exists (text current). now destruct current.
  - destruct (H current eq_refl) as [(g & Hg & Hle) Hrest].
    unfold gap in Hg. rewrite Hg.
    assert (E : leb g 2 = true) by now apply leb_le.
    rewrite E.
    destruct (IH (mkSegment (id current) (startTime current) (endTime next)
                    (trim (collapse_spaces (text current ++ [SP] ++ text next)))
                    (translation current) (audioUrl current)
                    (videoUrl current))) as [t Ht].
    + intros current' E'. cbn [endTime] in E'.
      destruct rest as [|b rest]; [exact I|].
      destruct Hrest as [Hb Hrest]. split; [|exact Hrest].
      unfold gap in *. now rewrite E'.
    + exists t. rewrite Ht. cbn [id startTime translation audioUrl videoUrl].
      do 3 f_equal.
      destruct rest as [|b rest]; [reflexivity|].
      change (last (next :: b :: rest) current) with (last (b :: rest) current).
      f_equal. apply last_cons_default.
Qed.
End MergeExtremes.

(** The gap is the rounded difference: a segment that ends at 0.003 s
    and one that starts at 2.003 s are more than 2 seconds apart as
    doubles, their difference rounds to 2, and they are merged. *)
Lemma merge_gap_is_rounded :
  let a := mkSegment (js "1") 0 (Double.literal 3 1000) (js "Ciao")
                     (Some []) (Some []) (Some []) in
  let b := mkSegment (js "2") (Double.literal 2003 1000) 5 (js "a tutti")
                     (Some []) (Some []) (Some []) in
  2 < startTime b - endTime a
  /\ gap a b = Some 2
  /\ Rounded.mergeAdjacentSegments [a; b]
     = Some [mkSegment (js "1") 0 5 (js "Ciao a tutti")
                       (Some []) (Some []) (Some [])].
Proof.
  cbv zeta. repeat split; vm_compute; reflexivity.
Qed.

(** X29: the two extremes of [mergeAdjacentSegments], the gap between
    two neighbours being the difference [next.startTime -
    current.endTime] as the code computes it, rounded to the nearest
    double.  A list in which every gap is above 2 seconds is returned
    as it is; a list in which every gap is at most 2 seconds is merged
    into a single segment, which keeps the id, the start, the
    translation and the URLs of the first segment and ends where the
    last one ends. *)
Theorem mergeAdjacentSegments_extremes
        (first : VideoSegment) (others : list VideoSegment) :
  (spaced (first :: others) ->
   Rounded.mergeAdjacentSegments (first :: others) = Some (first :: others))
  /\ (chained (first :: others) ->
      exists t,
        Rounded.mergeAdjacentSegments (first :: others)
        = Some [mkSegment (id first) (startTime first)
                          (endTime (last others first)) t
                          (translation first) (audioUrl first)
                          (videoUrl first)]).
Proof.
  split.
  - intros H. destruct others as [|b others]; [reflexivity|].
    exact (@rounded_merge_apart (b :: others) first [] H).
  - intros H. destruct others as [|b others].
    + exists (text first). now destruct first.
    + apply (@rounded_merge_chain (b :: others) first).
      intros current' E. destruct H as [Hb Hrest].
      split; [|exact Hrest]. unfold gap in *. now rewrite E.
Qed.

Lemma mergeAdjacentSegments_extremes_witness :
  exists t,
    Rounded.mergeAdjacentSegments
      [ mkSegment (js "1") 0 8 ciao_both (Some []) (Some []) (Some []);
        mkSegment (js "2") 7 10 ciao_second (Some []) (Some []) (Some []) ]
    = Some [ mkSegment (js "1") 0 10 t (Some []) (Some []) (Some []) ].
Proof.
  apply (proj2 (@mergeAdjacentSegments_extremes
                  (mkSegment (js "1") 0 8 ciao_both (Some []) (Some [])
                             (Some []))
                  [ mkSegment (js "2") 7 10 ciao_second (Some []) (Some [])
                              (Some []) ])).
  split; [|exact I].
  exists (-1). split; [vm_compute; reflexivity | vm_compute; discriminate].
Defined.

(** ** Printing a time *)

Section FormatTime.

Lemma Qfloor_between (x : Q) (z : Z) :
  inject_Z z <= x -> x < inject_Z (z + 1) -> Qfloor x = z.
Proof.
  intros Hle Hlt.
  assert (H1 : (z <= Qfloor x)%Z).
  { rewrite <- (Qfloor_Z z). now apply Qfloor_resp_le. }
  assert (H2 : (Qfloor x < z + 1)%Z).
  { rewrite Zlt_Qlt. eapply Qle_lt_trans; [apply Qfloor_le | exact Hlt]. }
  lia.
Qed.

Variable seconds : number.
Hypothesis not_negative : 0 <= seconds.

Let whole : Z := Qfloor seconds.

Lemma whole_facts :
  (0 <= whole)%Z /\ inject_Z whole <= seconds
  /\ seconds < inject_Z (whole + 1).
Proof.
  unfold whole. split; [|split].
  - rewrite <- (Qfloor_Z 0). now apply Qfloor_resp_le.
  - apply Qfloor_le.
  - apply Qlt_floor.
Qed.

Lemma minutes_of_seconds : Qfloor (seconds / 60) = (whole / 60)%Z.
Proof.
  destruct whole_facts as (H0 & Hle & Hlt).
  pose proof (Z.mul_div_le whole 60 eq_refl) as Hdiv.
  pose proof (Z.mul_succ_div_gt whole 60 eq_refl) as Hdiv'.
  apply Qfloor_between.
  - apply Qle_shift_div_l; [reflexivity|].
    eapply Qle_trans; [|exact Hle].
    change 60 with (inject_Z 60).
    rewrite <- inject_Z_mult, <- Zle_Qle. lia.
  - apply Qlt_shift_div_r; [reflexivity|].
    eapply Qlt_le_trans; [exact Hlt|].
    change 60 with (inject_Z 60).
    rewrite <- inject_Z_mult, <- Zle_Qle. lia.
Qed.

Lemma seconds_of_seconds :
  Qfloor (VideoUtils.remainder seconds 60) = (whole mod 60)%Z.
Proof.
  destruct whole_facts as (H0 & Hle & Hlt).
  unfold VideoUtils.remainder. cbv zeta.
  assert (E : ltb (seconds / 60) 0 = false).
  { apply ltb_ge. apply Qle_shift_div_l; [reflexivity|].
    now rewrite Qmult_0_l. }
  rewrite E, minutes_of_seconds.
  pose proof (Z.div_mod whole 60 ltac:(lia)) as Hmod.
  apply Qfloor_between.
  - assert (Hz : inject_Z (whole mod 60)
                 == inject_Z whole - 60 * inject_Z (whole / 60)).
    { replace (whole mod 60)%Z with (whole - 60 * (whole / 60))%Z by lia.
      unfold Zminus. rewrite inject_Z_plus, inject_Z_opp, inject_Z_mult.
      reflexivity. }
    rewrite Hz. change (inject_Z 60) with 60. lra.
  - assert (Hz : inject_Z (whole mod 60 + 1)
                 == inject_Z (whole + 1) - 60 * inject_Z (whole / 60)).
    { replace (whole mod 60 + 1)%Z with (whole + 1 - 60 * (whole / 60))%Z
        by lia.
      unfold Zminus. rewrite !inject_Z_plus, inject_Z_opp, inject_Z_mult.
      reflexivity. }
    rewrite Hz, inject_Z_plus in *. change (inject_Z 60) with 60. lra.
Qed.
End FormatTime.

Lemma two_digits (k : Z) :
  (0 <= k < 60)%Z ->
  exists d1 d2,
    VideoUtils.padStart2 (int_to_string k) = [d1; d2]
    /\ is_digit d1 = true /\ is_digit d2 = true
    /\ (Z.of_N (d1 - 48) * 10 + Z.of_N (d2 - 48))%Z = k.
Proof.
  intros Hk.
  assert (H : exists j, k = Z.of_nat j /\ (j < 60)%nat)
    by (exists (Z.to_nat k); lia).
  destruct H as (j & -> & Hj). clear Hk.
  do 60 (destruct j as [|j];
         [eexists _, _; split; [vm_compute; reflexivity|];
          vm_compute; repeat split; reflexivity|]).
  lia.
Qed.

(** X30: for a time from 0 up to 2^53 seconds, excluded, [formatTime]
    prints the whole minutes, a colon, and the remaining whole seconds
    on exactly two digits: the fraction of a second is dropped, never
    rounded up. *)
Theorem formatTime_minutes_and_seconds (seconds : number) :
  0 <= seconds -> seconds < 2 ^ 53 ->
  exists d1 d2,
    VideoUtils.formatTime seconds
    = Some (int_to_string (Qfloor seconds / 60) ++ js ":" ++ [d1; d2])
    /\ is_digit d1 = true /\ is_digit d2 = true
    /\ (Z.of_N (d1 - 48) * 10 + Z.of_N (d2 - 48))%Z
       = (Qfloor seconds mod 60)%Z.
Proof.
  intros Hs Hbound. unfold VideoUtils.formatTime. cbv zeta.
  assert (Hlow : leb 0 seconds = true) by now apply leb_le.
  assert (Hhigh : ltb seconds (2 ^ 53) = true) by now apply ltb_lt.
  rewrite Hlow, Hhigh. cbn [andb].
  rewrite (minutes_of_seconds Hs), (seconds_of_seconds Hs).
  destruct (@two_digits (Qfloor seconds mod 60))
    as (d1 & d2 & E & H1 & H2 & Hv).
  { apply Z.mod_pos_bound. lia. }
  exists d1, d2. rewrite E. now repeat split.
Qed.

Lemma formatTime_minutes_and_seconds_witness :
  exists d1 d2,
    VideoUtils.formatTime (251 # 2)
    = Some (int_to_string (Qfloor (251 # 2) / 60) ++ js ":" ++ [d1; d2])
    /\ is_digit d1 = true /\ is_digit d2 = true
    /\ (Z.of_N (d1 - 48) * 10 + Z.of_N (d2 - 48))%Z
       = (Qfloor (251 # 2) mod 60)%Z.
Proof.
  apply formatTime_minutes_and_seconds; [vm_compute; discriminate|].
  vm_compute. reflexivity.
Defined.
